(** * Pathfinder: a shallow embedding of [src/algorithms.py] and [app.py]

    The development follows the Python sources function by function.

    - Numbers.  An edge weight, a distance and a priority key is a Python
      number [num]: an [int] of any size ([Int]) or a [float], an IEEE
      binary64 value ([Flt], Rocq's primitive floats).  [+] on two ints
      is exact; on two floats it is the rounded binary64 sum; on an int
      and a float the int is first converted, rounding to nearest even,
      and the conversion raises [OverflowError] when the int is too
      large.  [<], [>] and [==] compare the exact values of both sides,
      also between an int and a float, and are false on a NaN.  The
      default weight of [from_dict] is the float [1.0], and
      [float('inf')] is the float [infinity].
    - Node coordinates are Python numbers too (the defaults are the int
      [0]).  [** 2] is exact on an int; on a float, and for [** 0.5],
      CPython's [float_pow] settles the special bases (NaN, infinities,
      zeros, [1.0]) itself and otherwise calls the C library's [pow],
      raising [OverflowError] on an infinite result (the C library is
      taken to report a range error for no other result).  That function
      is not fixed by Python: it is the parameter [libm_pow] of the
      Euclidean estimate and of everything that uses it.  A negative
      float to the power [0.5] is a complex number; complex numbers are
      outside [num], and the outcome [ComplexValue] marks that the
      program left the model there.
    - Dictionaries are [gmap]s, sets are [gset]s.  A subscript [d[k]] on a
      missing key raises [KeyError]; this is the [KeyError] outcome.
    - [heapq] is the binary heap of the Python library, on a list:
      [heappush] appends and sifts the new item towards the root,
      [heappop] moves the last item to the root and sifts it.
    - [while] loops are run with a fuel bound computed from the graph; the
      outcome [OutOfFuel] stands for a loop that does not end.  For the
      predecessor walk the bound is the number of nodes, which is only
      exceeded when the walk is caught in a cycle.
    - The wall-clock field [execution_time_ms] of [PathResult] depends on
      [time.perf_counter()] and is not part of the model. *)

From Stdlib Require Import ZArith QArith String List Lia Floats OrderedTypeEx.
From stdpp Require Import gmap strings list fin_maps.

Local Open Scope Z_scope.

(** ** Outcomes of fallible code *)

Inductive outcome (A : Type) : Type :=
| Ok (a : A)
| KeyError
| OverflowError
| ComplexValue
| OutOfFuel.
Arguments Ok {A} a.
Arguments KeyError {A}.
Arguments OverflowError {A}.
Arguments ComplexValue {A}.
Arguments OutOfFuel {A}.

Definition bind {A B} (m : outcome A) (f : A -> outcome B) : outcome B :=
  match m with
  | Ok a => f a
  | KeyError => KeyError
  | OverflowError => OverflowError
  | ComplexValue => ComplexValue
  | OutOfFuel => OutOfFuel
  end.

Notation "x <- m ;; k" := (bind m (fun x => k))
  (at level 100, m at next level, right associativity).

(** [d[k]]: a subscript raises [KeyError] on a missing key. *)
Definition subscript {V} (d : gmap string V) (k : string) : outcome V :=
  match d !! k with
  | Some v => Ok v
  | None => KeyError
  end.

(** A [for] loop over a list whose body may raise. *)
Fixpoint for_each {A S} (body : S -> A -> outcome S) (l : list A) (s : S)
  : outcome S :=
  match l with
  | [] => Ok s
  | a :: l' => s' <- body s a ;; for_each body l' s'
  end.

(** What the body of a [while] loop does next: run again from a new state,
    or leave the loop ([break], [return], or a false loop condition). *)
Inductive ctl (S R : Type) : Type :=
| Next (s : S)
| Stop (r : R).
Arguments Next {S R} s.
Arguments Stop {S R} r.

(** A [while] loop, run for at most [fuel] evaluations of its body. *)
Fixpoint while_loop {S R} (body : S -> outcome (ctl S R)) (fuel : nat) (s : S)
  : outcome R :=
  match fuel with
  | O => OutOfFuel
  | S fuel' =>
      c <- body s ;;
      match c with
      | Next s' => while_loop body fuel' s'
      | Stop r => Ok r
      end
  end.

(** ** Python numbers *)

Inductive num : Type :=
| Int (z : Z)
| Flt (f : float).

(** The conversion of an int to a float, as [int + float] and
    [int ** float] do it: the nearest binary64 value, ties to even, and
    [OverflowError] when that would be infinite. *)
Definition float_of_int (z : Z) : outcome float :=
  let f := SF2Prim (binary_normalize prec emax z 0 false) in
  if is_infinity f then OverflowError else Ok f.

(** [a + b] *)
Definition num_add (a b : num) : outcome num :=
  match a, b with
  | Int x, Int y => Ok (Int (x + y))
  | Int x, Flt y => fx <- float_of_int x ;; Ok (Flt (fx + y))
  | Flt x, Int y => fy <- float_of_int y ;; Ok (Flt (x + fy))
  | Flt x, Flt y => Ok (Flt (x + y))
  end.

(** [a - b] *)
Definition num_sub (a b : num) : outcome num :=
  match a, b with
  | Int x, Int y => Ok (Int (x - y))
  | Int x, Flt y => fx <- float_of_int x ;; Ok (Flt (fx - y))
  | Flt x, Int y => fy <- float_of_int y ;; Ok (Flt (x - fy))
  | Flt x, Flt y => Ok (Flt (x - y))
  end.

(** [abs(a)] *)
Definition num_abs (a : num) : num :=
  match a with
  | Int z => Int (Z.abs z)
  | Flt f => Flt (abs f)
  end.

(** The exact value of a number: a rational or an infinity; a NaN has
    none. *)
Inductive xq : Type :=
| NegInf
| Finite (q : Q)
| PosInf.

(** [m * 2 ^ e] *)
Definition dyadic (m e : Z) : Q :=
  match e with
  | Zneg p => Qmake m (2 ^ p)%positive
  | _ => inject_Z (m * 2 ^ e)
  end.

Definition exact (a : num) : option xq :=
  match a with
  | Int z => Some (Finite (inject_Z z))
  | Flt f =>
      match Prim2SF f with
      | S754_nan => None
      | S754_zero _ => Some (Finite (inject_Z 0))
      | S754_infinity s => Some (if s then NegInf else PosInf)
      | S754_finite s m e =>
          Some (Finite (dyadic (if s then Z.neg m else Z.pos m) e))
      end
  end.

Definition xq_compare (a b : xq) : comparison :=
  match a, b with
  | NegInf, NegInf => Eq
  | NegInf, _ => Lt
  | _, NegInf => Gt
  | PosInf, PosInf => Eq
  | PosInf, _ => Gt
  | _, PosInf => Lt
  | Finite p, Finite q => Qcompare p q
  end.

(** The comparison behind [<], [>] and [==]: none when a side is a NaN. *)
Definition num_compare (a b : num) : option comparison :=
  match exact a, exact b with
  | Some x, Some y => Some (xq_compare x y)
  | _, _ => None
  end.

(** [a < b]; [a > b] is [num_ltb b a]. *)
Definition num_ltb (a b : num) : bool :=
  match num_compare a b with
  | Some Lt => true
  | _ => false
  end.

(** [a == b] *)
Definition num_eqb (a b : num) : bool :=
  match num_compare a b with
  | Some Eq => true
  | _ => false
  end.

(** [float('inf')] *)
Definition inf : num := Flt infinity.

(** [iv ** 2] on a float, as [float_pow] computes it for the whole
    exponent [2.0]: a NaN is returned as it is, an infinity gives [inf],
    a zero gives [0.0]; a negative base is replaced by its absolute
    value; the base [1.0] gives [1.0]; otherwise the C library's [pow] is
    called and an infinite result raises [OverflowError]. *)
Definition float_square (libm_pow : float -> float -> float) (iv : float)
  : outcome float :=
  if is_nan iv then Ok iv
  else if is_infinity iv then Ok infinity
  else if (iv =? 0)%float then Ok 0%float
  else
    let iv := abs iv in
    if (iv =? 1)%float then Ok 1%float
    else
      let ix := libm_pow iv 2%float in
      if is_infinity ix then OverflowError else Ok ix.

(** [iv ** 0.5] on a float: as above, but a negative base gives a
    complex number. *)
Definition float_pow_half (libm_pow : float -> float -> float) (iv : float)
  : outcome float :=
  if is_nan iv then Ok iv
  else if is_infinity iv then Ok infinity
  else if (iv =? 0)%float then Ok 0%float
  else if (iv <? 0)%float then ComplexValue
  else if (iv =? 1)%float then Ok 1%float
  else
    let ix := libm_pow iv 0.5%float in
    if is_infinity ix then OverflowError else Ok ix.

(** [a ** 2]: exact on an int. *)
Definition num_square (libm_pow : float -> float -> float) (a : num)
  : outcome num :=
  match a with
  | Int z => Ok (Int (z ^ 2))
  | Flt f => r <- float_square libm_pow f ;; Ok (Flt r)
  end.

(** [a ** 0.5]: an int is converted to a float first. *)
Definition num_pow_half (libm_pow : float -> float -> float) (a : num)
  : outcome float :=
  match a with
  | Int z => v <- float_of_int z ;; float_pow_half libm_pow v
  | Flt f => float_pow_half libm_pow f
  end.

(** ** heapq

    The binary heap of Python's [heapq] on a list; [lt] is [<] on the
    items. *)

Section Heapq.
Context {E : Type} (lt : E -> E -> bool).

(** The loop of [_siftdown]: [while pos > startpos: ...]; [pos]
    decreases in every round, so [pos] rounds are enough. *)
Fixpoint siftdown_loop (fuel : nat) (heap : list E) (startpos pos : nat)
    (newitem : E) : list E :=
  match fuel with
  | O => <[pos := newitem]> heap
  | S fuel' =>
      if (startpos <? pos)%nat then
        let parentpos := ((pos - 1) / 2)%nat in
        match heap !! parentpos with
        | Some parent =>
            if lt newitem parent then
              siftdown_loop fuel' (<[pos := parent]> heap) startpos
                parentpos newitem
            else <[pos := newitem]> heap
        | None => heap
        end
      else <[pos := newitem]> heap
  end.

(** [_siftdown(heap, startpos, pos)] *)
Definition siftdown (heap : list E) (startpos pos : nat) : list E :=
  match heap !! pos with
  | Some newitem => siftdown_loop pos heap startpos pos newitem
  | None => heap
  end.

(** The loop of [_siftup]: [while childpos < endpos: ...] moves the
    smaller child up until a leaf is reached; it returns the list and
    the position of that leaf. *)
Fixpoint siftup_loop (fuel : nat) (heap : list E) (endpos pos : nat)
  : list E * nat :=
  match fuel with
  | O => (heap, pos)
  | S fuel' =>
      let childpos := (2 * pos + 1)%nat in
      if (childpos <? endpos)%nat then
        let rightpos := (childpos + 1)%nat in
        let childpos :=
          match heap !! childpos, heap !! rightpos with
          | Some l, Some r =>
              if (rightpos <? endpos)%nat && negb (lt l r) then rightpos
              else childpos
          | _, _ => childpos
          end in
        match heap !! childpos with
        | Some c => siftup_loop fuel' (<[pos := c]> heap) endpos childpos
        | None => (heap, pos)
        end
      else (heap, pos)
  end.

(** [_siftup(heap, pos)] *)
Definition siftup (heap : list E) (pos : nat) : list E :=
  match heap !! pos with
  | Some newitem =>
      let '(heap1, pos1) :=
        siftup_loop (length heap) heap (length heap) pos in
      siftdown (<[pos1 := newitem]> heap1) pos pos1
  | None => heap
  end.

(** [heapq.heappush] *)
Definition heappush (heap : list E) (item : E) : list E :=
  siftdown (heap ++ [item]) 0 (length heap).

(** [heapq.heappop]; [None] stands for the empty heap, which the callers
    test before popping. *)
Definition heappop (heap : list E) : option (E * list E) :=
  match last heap with
  | None => None
  | Some lastelt =>
      match removelast heap with
      | [] => Some (lastelt, [])
      | returnitem :: rest =>
          Some (returnitem, siftup (lastelt :: rest) 0)
      end
  end.
End Heapq.

(** Python's [<] on the tuples [(key, id)]: the keys decide unless they
    are equal, then the node ids do. *)
Definition entry_ltb (a b : num * string) : bool :=
  if num_eqb (fst a) (fst b) then String.ltb (snd a) (snd b)
  else num_ltb (fst a) (fst b).

(** ** class Graph *)

Record Graph : Type := MkGraph {
  adjacency_list : gmap string (list (string * num));
  node_positions : gmap string (num * num)
}.

(** [Graph.__init__] *)
Definition Graph_init : Graph := MkGraph ∅ ∅.

(** [Graph.add_node] *)
Definition add_node (g : Graph) (node_id : string) (x y : num) : Graph :=
  {| adjacency_list :=
       match adjacency_list g !! node_id with
       | None => <[node_id := []]> (adjacency_list g)
       | Some _ => adjacency_list g
       end;
     node_positions := <[node_id := (x, y)]> (node_positions g) |}.

(** [self.adjacency_list[n].append(arc)]; both call sites come after
    the key [n] was ensured to exist. *)
Definition append_arc (g : Graph) (n : string) (arc : string * num) : Graph :=
  {| adjacency_list := alter (fun l => l ++ [arc]) n (adjacency_list g);
     node_positions := node_positions g |}.

Definition ensure_node (g : Graph) (n : string) : Graph :=
  match adjacency_list g !! n with
  | None => add_node g n (Int 0) (Int 0)
  | Some _ => g
  end.

(** [Graph.add_edge] *)
Definition add_edge (g : Graph) (from_node to_node : string) (weight : num)
    (bidirectional : bool) : Graph :=
  let g1 := ensure_node g from_node in
  let g2 := ensure_node g1 to_node in
  let g3 := append_arc g2 from_node (to_node, weight) in
  if bidirectional then append_arc g3 to_node (from_node, weight) else g3.

(** [Graph.get_neighbors] *)
Definition get_neighbors (g : Graph) (node_id : string)
  : list (string * num) :=
  default [] (adjacency_list g !! node_id).

(** ** Graph.from_dict

    The structured input: a node item is an object with optional keys
    [id], [x], [y], or a bare value (already rendered by [str]); an edge
    item is an object with optional keys [from], [to], [weight],
    [bidirectional]; the lists themselves are optional ([data.get]). *)

Inductive node_item : Type :=
| NodeObj (id : option string) (x y : option num)
| NodeBare (s : string).

Record edge_item : Type := MkEdge {
  e_from : option string;
  e_to : option string;
  e_weight : option num;
  e_bidirectional : option bool
}.

Record graph_data : Type := MkData {
  data_nodes : option (list node_item);
  data_edges : option (list edge_item)
}.

Definition required {A} (o : option A) : outcome A :=
  match o with
  | Some a => Ok a
  | None => KeyError
  end.

Definition from_dict_node (g : Graph) (node : node_item) : outcome Graph :=
  match node with
  | NodeObj id x y =>
      i <- required id ;;
      Ok (add_node g i (default (Int 0) x) (default (Int 0) y))
  | NodeBare s => Ok (add_node g s (Int 0) (Int 0))
  end.

Definition from_dict_edge (g : Graph) (edge : edge_item) : outcome Graph :=
  f <- required (e_from edge) ;;
  t <- required (e_to edge) ;;
  Ok (add_edge g f t (default (Flt 1) (e_weight edge))
        (default true (e_bidirectional edge))).

Definition from_dict (data : graph_data) : outcome Graph :=
  g <- for_each from_dict_node (default [] (data_nodes data)) Graph_init ;;
  for_each from_dict_edge (default [] (data_edges data)) g.

(** ** PathResult *)

Record PathResult : Type := MkResult {
  path : list string;
  distance : num;
  nodes_explored : nat;
  algorithm : string
}.

(** The predecessor walk shared by both searches:
    [while current is not None: path.append(current);
     current = previous[current]]. *)
Fixpoint walk_back (previous : gmap string (option string)) (fuel : nat)
    (current : option string) (path : list string) : outcome (list string) :=
  match current with
  | None => Ok path
  | Some c =>
      match fuel with
      | O => OutOfFuel
      | S fuel' =>
          p <- subscript previous c ;;
          walk_back previous fuel' p (path ++ [c])
      end
  end.

(** ** dijkstra *)

Record dstate : Type := MkD {
  distances : gmap string num;
  previous : gmap string (option string);
  priority_queue : list (num * string);
  visited : gset string;
  d_explored : nat
}.

(** The body of [for neighbor, weight in graph.get_neighbors(current_node)]. *)
Definition relax (current_node : string) (current_distance : num)
    (st : dstate) (arc : string * num) : outcome dstate :=
  let '(neighbor, weight) := arc in
  distance <- num_add current_distance weight ;;
  dn <- subscript (distances st) neighbor ;;
  if num_ltb distance dn then
    Ok {| distances := <[neighbor := distance]> (distances st);
          previous := <[neighbor := Some current_node]> (previous st);
          priority_queue :=
            heappush entry_ltb (priority_queue st) (distance, neighbor);
          visited := visited st;
          d_explored := d_explored st |}
  else Ok st.

(** One round of [while priority_queue: ...]; [Stop] carries the state
    at loop exit (empty frontier, or [break] at the target). *)
Definition dijkstra_body (g : Graph) (end_ : string) (st : dstate)
  : outcome (ctl dstate dstate) :=
  match heappop entry_ltb (priority_queue st) with
  | None => Ok (Stop st)
  | Some ((current_distance, current_node), q) =>
      if decide (current_node ∈ visited st) then
        Ok (Next (MkD (distances st) (previous st) q (visited st)
                      (d_explored st)))
      else
        let st1 := MkD (distances st) (previous st) q
                       ({[current_node]} ∪ visited st)
                       (S (d_explored st)) in
        if String.eqb current_node end_ then Ok (Stop st1)
        else
          dc <- subscript (distances st1) current_node ;;
          if num_ltb dc current_distance then Ok (Next st1)
          else
            st2 <- for_each (relax current_node current_distance)
                     (get_neighbors g current_node) st1 ;;
            Ok (Next st2)
  end.

(** The number of stored arcs; every frontier entry but the first is
    pushed while some arc of a newly visited node is relaxed. *)
Definition arc_count (g : Graph) : nat :=
  sum_list ((fun p => length (snd p)) <$> map_to_list (adjacency_list g)).

(** The state before the first round of the loop. *)
Definition dijkstra_init (g : Graph) (start : string) : dstate :=
  {| distances := <[start := Int 0]> ((fun _ => inf) <$> adjacency_list g);
     previous := (fun _ => None) <$> adjacency_list g;
     priority_queue := [(Int 0, start)];
     visited := ∅;
     d_explored := 0 |}.

Definition dijkstra (g : Graph) (start end_ : string)
  : outcome (option PathResult) :=
  match adjacency_list g !! start, adjacency_list g !! end_ with
  | Some _, Some _ =>
      st <- while_loop (dijkstra_body g end_) (2 + arc_count g)
              (dijkstra_init g start) ;;
      de <- subscript (distances st) end_ ;;
      if num_eqb de inf then Ok None
      else
        p <- walk_back (previous st) (size (adjacency_list g)) (Some end_) [] ;;
        Ok (Some {| path := rev p;
                    distance := de;
                    nodes_explored := d_explored st;
                    algorithm := "dijkstra" |})
  | _, _ => Ok None
  end.

(** ** Heuristics *)

Definition euclidean_heuristic (libm_pow : float -> float -> float)
    (g : Graph) (node goal : string) : outcome num :=
  match node_positions g !! node, node_positions g !! goal with
  | Some (x1, y1), Some (x2, y2) =>
      dx <- num_sub x2 x1 ;;
      sx <- num_square libm_pow dx ;;
      dy <- num_sub y2 y1 ;;
      sy <- num_square libm_pow dy ;;
      s <- num_add sx sy ;;
      r <- num_pow_half libm_pow s ;;
      Ok (Flt r)
  | _, _ => Ok (Int 0)
  end.

Definition manhattan_heuristic (g : Graph) (node goal : string)
  : outcome num :=
  match node_positions g !! node, node_positions g !! goal with
  | Some (x1, y1), Some (x2, y2) =>
      dx <- num_sub x2 x1 ;;
      dy <- num_sub y2 y1 ;;
      num_add (num_abs dx) (num_abs dy)
  | _, _ => Ok (Int 0)
  end.

(** ** astar *)

Record astate : Type := MkA {
  g_score : gmap string num;
  f_score : gmap string num;
  a_previous : gmap string (option string);
  open_set : list (num * string);
  open_set_hash : gset string;
  closed_set : gset string;
  a_explored : nat
}.

Section Astar.
Variable graph : Graph.
Variable heuristic_fn : Graph -> string -> string -> outcome num.
Variable end_ : string.
(** the tag, used for the [algorithm] label only *)
Variable heuristic : string.

(** The body of [for neighbor, weight in graph.get_neighbors(current)]. *)
Definition astar_relax (current : string) (st : astate) (arc : string * num)
  : outcome astate :=
  let '(neighbor, weight) := arc in
  if decide (neighbor ∈ closed_set st) then Ok st
  else
    gc <- subscript (g_score st) current ;;
    tentative_g <- num_add gc weight ;;
    gn <- subscript (g_score st) neighbor ;;
    if num_ltb tentative_g gn then
      h <- heuristic_fn graph neighbor end_ ;;
      f <- num_add tentative_g h ;;
      let st1 :=
        MkA (<[neighbor := tentative_g]> (g_score st))
            (<[neighbor := f]> (f_score st))
            (<[neighbor := Some current]> (a_previous st))
            (open_set st) (open_set_hash st) (closed_set st)
            (a_explored st) in
      if decide (neighbor ∈ open_set_hash st1) then Ok st1
      else
        Ok (MkA (g_score st1) (f_score st1) (a_previous st1)
                (heappush entry_ltb (open_set st1) (f, neighbor))
                ({[neighbor]} ∪ open_set_hash st1)
                (closed_set st1) (a_explored st1))
    else Ok st.

(** One round of [while open_set: ...]; [Stop] carries the value
    returned: the result built at the target, or [None] once the
    frontier is empty.  [nodes] bounds the predecessor walk. *)
Definition astar_body (nodes : nat) (st : astate)
  : outcome (ctl astate (option PathResult)) :=
  match heappop entry_ltb (open_set st) with
  | None => Ok (Stop None)
  | Some ((_, current), q) =>
      if decide (current ∈ open_set_hash st) then
        let st1 := MkA (g_score st) (f_score st) (a_previous st) q
                       (open_set_hash st ∖ {[current]})
                       (closed_set st) (S (a_explored st)) in
        if String.eqb current end_ then
          p <- walk_back (a_previous st1) nodes (Some current) [] ;;
          ge <- subscript (g_score st1) end_ ;;
          Ok (Stop (Some {| path := rev p;
                            distance := ge;
                            nodes_explored := a_explored st1;
                            algorithm := String.append "astar_" heuristic |}))
        else
          let st2 := MkA (g_score st1) (f_score st1) (a_previous st1)
                         (open_set st1) (open_set_hash st1)
                         ({[current]} ∪ closed_set st1)
                         (a_explored st1) in
          st3 <- for_each (astar_relax current)
                   (get_neighbors graph current) st2 ;;
          Ok (Next st3)
      else
        Ok (Next (MkA (g_score st) (f_score st) (a_previous st) q
                      (open_set_hash st) (closed_set st) (a_explored st)))
  end.
End Astar.

Definition select_heuristic (libm_pow : float -> float -> float)
    (heuristic : string) : Graph -> string -> string -> outcome num :=
  if String.eqb heuristic "manhattan" then manhattan_heuristic
  else euclidean_heuristic libm_pow.

(** The state before the first round of the loop; [h0] is the estimate
    at [start]. *)
Definition astar_init (g : Graph) (start : string) (h0 : num) : astate :=
  {| g_score := <[start := Int 0]> ((fun _ => inf) <$> adjacency_list g);
     f_score := <[start := h0]> ((fun _ => inf) <$> adjacency_list g);
     a_previous := (fun _ => None) <$> adjacency_list g;
     open_set := [(h0, start)];
     open_set_hash := {[start]};
     closed_set := ∅;
     a_explored := 0 |}.

Definition astar (libm_pow : float -> float -> float) (g : Graph)
    (start end_ : string) (heuristic : string)
  : outcome (option PathResult) :=
  match adjacency_list g !! start, adjacency_list g !! end_ with
  | Some _, Some _ =>
      let heuristic_fn := select_heuristic libm_pow heuristic in
      h0 <- heuristic_fn g start end_ ;;
      while_loop
        (astar_body g heuristic_fn end_ heuristic (size (adjacency_list g)))
        (2 * size (adjacency_list g))%nat (astar_init g start h0)
  | _, _ => Ok None
  end.

(** ** The request handlers of [app.py] *)

(** The JSON object of a request: the four keys the handlers read, and
    whether the object has any other key. *)
Record request : Type := MkReq {
  req_graph : option graph_data;
  req_start : option string;
  req_end : option string;
  req_heuristic : option string;
  req_other_keys : bool
}.

(** [not data]: the object is empty. *)
Definition request_empty (data : request) : bool :=
  match req_graph data, req_start data, req_end data, req_heuristic data with
  | None, None, None, None => negb (req_other_keys data)
  | _, _, _, _ => false
  end.

(** The JSON bodies the handlers answer with. *)
Inductive body : Type :=
| ErrorBody (message : string)
| NoPathBody (start end_ : string)
| ExceptionBody
| SuccessBody (result : PathResult)
| NoComparisonBody (start end_ : string)
| ComparisonBody (start end_ : string)
    (comparisons : list (string * PathResult)).

(** [try: ... except Exception: return ..., 500]: both exceptions of
    the model are caught. *)
Definition catch (m : outcome (body * Z)) : outcome (body * Z) :=
  match m with
  | KeyError | OverflowError => Ok (ExceptionBody, 500)
  | other => other
  end.

(** The checks all three handlers start with; [None] when they pass. *)
Definition check_request (data : request) : option (body * Z) :=
  if request_empty data then Some (ErrorBody "No JSON data provided", 400)
  else
    match req_graph data, req_start data, req_end data with
    | None, _, _ => Some (ErrorBody "Missing required field: graph", 400)
    | _, None, _ => Some (ErrorBody "Missing required field: start", 400)
    | _, _, None => Some (ErrorBody "Missing required field: end", 400)
    | Some _, Some _, Some _ => None
    end.

Definition find_path_dijkstra (data : request) : outcome (body * Z) :=
  catch
    match check_request data with
    | Some answer => Ok answer
    | None =>
        gd <- required (req_graph data) ;;
        graph <- from_dict gd ;;
        start <- required (req_start data) ;;
        end_ <- required (req_end data) ;;
        result <- dijkstra graph start end_ ;;
        match result with
        | None => Ok (NoPathBody start end_, 404)
        | Some r => Ok (SuccessBody r, 200)
        end
    end.

Definition find_path_astar (libm_pow : float -> float -> float)
    (data : request) : outcome (body * Z) :=
  catch
    match check_request data with
    | Some answer => Ok answer
    | None =>
        gd <- required (req_graph data) ;;
        graph <- from_dict gd ;;
        start <- required (req_start data) ;;
        end_ <- required (req_end data) ;;
        let heuristic := default "euclidean" (req_heuristic data) in
        if negb (String.eqb heuristic "euclidean"
                 || String.eqb heuristic "manhattan") then
          Ok (ErrorBody "Invalid heuristic. Use 'euclidean' or 'manhattan'",
              400)
        else
          result <- astar libm_pow graph start end_ heuristic ;;
          match result with
          | None => Ok (NoPathBody start end_, 404)
          | Some r => Ok (SuccessBody r, 200)
          end
    end.



(** * Specification-side definitions *)

(** ** heapq: the items are kept, the list stays a heap, the root is least *)

(** [j] is a child position of [i]. *)
Definition child (i j : nat) : Prop := j = (2 * i + 1)%nat ∨ j = (2 * i + 2)%nat.

(** The heap invariant of [heapq]: no item is less than its parent. *)
Definition is_heap {E} (lt : E -> E -> bool) (h : list E) : Prop :=
  forall i j a b, child i j -> h !! i = Some a -> h !! j = Some b -> lt b a = false.

(** The invariant everywhere but at the position [pos] being filled. *)
Definition heap_but {E} (lt : E -> E -> bool) (h : list E) (pos : nat) : Prop :=
  forall i j a b, child i j -> i ≠ pos -> j ≠ pos ->
    h !! i = Some a -> h !! j = Some b -> lt b a = false.

(** [item] is not above the children of [pos]. *)
Definition fits_above {E} (lt : E -> E -> bool) (h : list E) (pos : nat)
    (item : E) : Prop :=
  forall c y, child pos c -> h !! c = Some y -> lt y item = false.

(** The children of [pos] are not less than the parent of [pos]. *)
Definition bridged {E} (lt : E -> E -> bool) (h : list E) (pos : nat) : Prop :=
  forall p c a y, child p pos -> child pos c ->
    h !! p = Some a -> h !! c = Some y -> lt y a = false.

(** ** The order of Python numbers *)

(** A number that is not a NaN. *)
Definition ordered (a : num) : Prop := is_Some (exact a).

(** A frontier entry whose key is not a NaN. *)
Definition ordered_entry (e : num * string) : Prop := ordered (fst e).

(** ** Specification-side notions for the graph claims *)

(** An arc [u -> v] of weight [w] is stored in the graph. *)
Definition arc (g : Graph) (u v : string) (w : num) : Prop :=
  (v, w) ∈ get_neighbors g u.

(** Both endpoints of every stored arc are keys of the adjacency mapping. *)
Definition closed (g : Graph) : Prop :=
  forall u v w, arc g u v w ->
    is_Some (adjacency_list g !! u) ∧ is_Some (adjacency_list g !! v).

(** Graphs obtained from the empty graph by the mutators. *)
Inductive built : Graph -> Prop :=
| built_init : built Graph_init
| built_add_node g n x y : built g -> built (add_node g n x y)
| built_add_edge g a b w bd : built g -> built (add_edge g a b w bd).

(** Input items with every optional field resolved, and the graph they
    describe (the words of the specification of [buildGraph]). *)
Record node_spec : Type := MkNodeSpec { s_id : string; s_x : num; s_y : num }.
Record edge_spec : Type := MkEdgeSpec {
  s_from : string; s_to : string; s_weight : num; s_bidirectional : bool
}.

Definition resolve_node (n : node_item) : option node_spec :=
  match n with
  | NodeObj (Some i) x y => Some (MkNodeSpec i (default (Int 0) x) (default (Int 0) y))
  | NodeObj None _ _ => None
  | NodeBare s => Some (MkNodeSpec s (Int 0) (Int 0))
  end.

Definition resolve_edge (e : edge_item) : option edge_spec :=
  match e_from e, e_to e with
  | Some f, Some t =>
      Some (MkEdgeSpec f t (default (Flt 1) (e_weight e))
              (default true (e_bidirectional e)))
  | _, _ => None
  end.

Definition build_graph (ns : list node_spec) (es : list edge_spec) : Graph :=
  foldl (fun g e => add_edge g (s_from e) (s_to e) (s_weight e) (s_bidirectional e))
    (foldl (fun g n => add_node g (s_id n) (s_x n) (s_y n)) Graph_init ns) es.

Definition lacks_id (n : node_item) : Prop :=
  exists x y, n = NodeObj None x y.
Definition lacks_endpoint (e : edge_item) : Prop :=
  e_from e = None ∨ e_to e = None.

(** ** Paths and the searches' loop invariants *)

(** The integer a number stands for, when it is a whole number: a
    Python int, or a float without fractional part. *)
Definition whole (a : num) : option Z :=
  match a with
  | Int z => Some z
  | Flt f =>
      match Prim2SF f with
      | S754_zero _ => Some 0
      | S754_finite s m e =>
          let n := if s then Z.neg m else Z.pos m in
          match e with
          | Zneg p => if (n mod 2 ^ Z.pos p =? 0) then Some (n / 2 ^ Z.pos p) else None
          | _ => Some (n * 2 ^ e)
          end
      | _ => None
      end
  end.

(** [path_from g s v p d]: [p] lists the nodes of a path from [s] to [v]
    along stored arcs with whole weights, of total weight [d]. *)
Inductive path_from (g : Graph) (s : string) : string -> list string -> Z -> Prop :=
| path_here : path_from g s s [s] 0
| path_step u v w z p d :
    path_from g s u p d -> arc g u v w -> whole w = Some z ->
    path_from g s v (p ++ [v]) (d + z).

(** Some sequence of stored arcs, of any weights, leads from [s] to [v]. *)
Inductive reachable (g : Graph) (s : string) : string -> Prop :=
| reach_here : reachable g s s
| reach_step u v w : reachable g s u -> arc g u v w -> reachable g s v.

(** [0 <= w] for every stored weight. *)
Definition num_leb (a b : num) : bool :=
  match num_compare a b with
  | Some Lt | Some Eq => true
  | _ => false
  end.

Definition nonneg (g : Graph) : Prop :=
  forall u v w, arc g u v w -> num_leb (Int 0) w = true.

(** Every stored weight is a Python int. *)
Definition int_weights (g : Graph) : Prop :=
  forall u v w, arc g u v w -> exists z, w = Int z.

(** A score-table value of a search on int weights: still
    [float('inf')], or an int. *)
Definition int_or_inf (d : num) : Prop := d = inf ∨ exists z, d = Int z.

(** Arcs of the nodes not yet visited: a bound on the pushes to come. *)
Definition budget (g : Graph) (V : gset string) : nat :=
  sum_list ((fun p => if decide (p.1 ∈ V) then O else length p.2)
              <$> map_to_list (adjacency_list g)).

Definition dijkstra_measure (g : Graph) (st : dstate) : nat :=
  (length (priority_queue st) + budget g (visited st))%nat.

(** What holds of the uniform-cost search state whatever the weights. *)
Record dinv (g : Graph) (start : string) (st : dstate) : Prop := MkDinv {
  dinv_dom : forall n,
    is_Some (distances st !! n) <-> is_Some (adjacency_list g !! n);
  dinv_prev : forall n,
    is_Some (previous st !! n) <-> is_Some (adjacency_list g !! n);
  dinv_pq : forall k n, (k, n) ∈ priority_queue st ->
    is_Some (adjacency_list g !! n) ∧ reachable g start n;
  dinv_vis : forall n, n ∈ visited st ->
    is_Some (adjacency_list g !! n) ∧ reachable g start n;
  dinv_fin : forall n d, distances st !! n = Some d ->
    d = inf ∨ reachable g start n;
  dinv_heap : is_heap entry_ltb (priority_queue st) ∧
              Forall ordered_entry (priority_queue st);
  dinv_int : int_weights g ->
    (forall n d, distances st !! n = Some d -> int_or_inf d) ∧
    (forall k n, (k, n) ∈ priority_queue st -> exists z, k = Int z)
}.

(** The float is no NaN. *)
Definition sf_number (x : spec_float) : Prop := x <> S754_nan.

(** The float is a zero or a finite number. *)
Definition sf_finite (x : spec_float) : Prop :=
  match x with
  | S754_zero _ | S754_finite _ _ _ => True
  | _ => False
  end.

(** The float is a zero, or positive. *)
Definition sf_nonneg (x : spec_float) : Prop :=
  match x with
  | S754_zero _ => True
  | S754_infinity s | S754_finite s _ _ => s = false
  | S754_nan => False
  end.

(** The float is no NaN and has the sign bit [s]. *)
Definition sf_signed (s : bool) (x : spec_float) : Prop :=
  match x with
  | S754_nan => False
  | S754_zero s' | S754_infinity s' | S754_finite s' _ _ => s' = s
  end.


(** [0 <= a] *)
Definition nonneg_num (a : num) : Prop := num_leb (Int 0) a = true.

(** The float is a NaN, a zero, or positive. *)
Definition sf_not_neg (x : spec_float) : Prop :=
  match x with
  | S754_nan | S754_zero _ => True
  | S754_infinity s | S754_finite s _ _ => s = false
  end.

(** The float is a NaN or a zero. *)
Definition sf_null (x : spec_float) : Prop :=
  match x with
  | S754_nan | S754_zero _ => True
  | _ => False
  end.

(** [a < 0] is false: [a] is a NaN, zero, or positive. *)
Definition not_neg (a : num) : Prop := num_ltb a (Int 0) = false.

(** [a] is the int [0], a float zero or a NaN. *)
Definition null (a : num) : Prop :=
  match a with
  | Int z => z = 0
  | Flt f => sf_null (Prim2SF f)
  end.

(** For a positive base the C library's [pow] returns a number that is
    not negative. *)
Definition pow_sane (libm_pow : float -> float -> float) : Prop :=
  forall x y, (0 <? x)%float = true -> (0 <=? libm_pow x y)%float = true.

(** A [pow] that is correctly rounded for the two exponents the program
    uses: the square for [2.0], and otherwise the square root. *)
Definition rounded_pow (x y : float) : float :=
  if (y =? 2)%float then (x * x)%float else sqrt x.

(** The id a node item of the structured input names, if any. *)
Definition item_id (n : node_item) : option string :=
  match n with
  | NodeObj id _ _ => id
  | NodeBare s => Some s
  end.

(** Every key of the adjacency mapping has a recorded position, and only
    the keys have. *)
Definition positioned (g : Graph) : Prop :=
  forall n, is_Some (node_positions g !! n) <-> is_Some (adjacency_list g !! n).

(** The input edge [e] puts the arc [u -> v] of weight [w] into the graph. *)
Definition edge_gives (e : edge_item) (u v : string) (w : num) : Prop :=
  w = default (Flt 1) (e_weight e) ∧
  ((e_from e = Some u ∧ e_to e = Some v) ∨
   (default true (e_bidirectional e) = true ∧ e_from e = Some v ∧ e_to e = Some u)).

(** The node's best-known distance is an int, at most [b]. *)
Definition dist_le (st : dstate) (n : string) (b : Z) : Prop :=
  exists d, distances st !! n = Some (Int d) ∧ d <= b.

(** [chain P n l]: following the predecessor table [P] from [n] visits the
    nodes [l] (starting with [n]) and stops at a node without
    predecessor. *)
Inductive chain (P : gmap string (option string)) : string -> list string -> Prop :=
| chain_root n : P !! n = Some None -> chain P n [n]
| chain_step n u l :
    P !! n = Some (Some u) -> chain P u l -> chain P n (n :: l).

(** A visited node: its distance is the least weight of a path from
    [start], and its predecessor chain spells such a path backwards. *)
Definition settled (g : Graph) (start : string) (st : dstate) (n : string) : Prop :=
  exists d l,
    distances st !! n = Some (Int d) ∧
    chain (previous st) n l ∧
    Forall (fun x => x ∈ visited st) l ∧
    (length l <= size (visited st))%nat ∧
    path_from g start n (rev l) d ∧
    forall p' d', path_from g start n p' d' -> d <= d'.

(** The part of the uniform-cost invariant that holds at every point of
    the loop, for non-negative int weights; [k0] is the key popped
    last. *)
Record core (g : Graph) (start : string) (k0 : Z) (st : dstate) : Prop := MkCore {
  core_start : dist_le st start 0;
  core_vis : forall n, n ∈ visited st -> settled g start st n;
  core_int : forall n d, distances st !! n = Some d -> int_or_inf d;
  core_unvis : forall n d,
    n ∉ visited st -> distances st !! n = Some (Int d) ->
    (Int d, n) ∈ priority_queue st ∧
    ((n = start ∧ previous st !! n = Some None ∧ d = 0) ∨
     (exists u w du, u ∈ visited st ∧ arc g u n (Int w) ∧
        distances st !! u = Some (Int du) ∧ d = du + w ∧
        previous st !! n = Some (Some u)));
  core_pq : forall k n, (k, n) ∈ priority_queue st ->
    exists z, k = Int z ∧ dist_le st n z;
  core_mark_vis : forall u du,
    u ∈ visited st -> distances st !! u = Some (Int du) -> du <= k0;
  core_mark_pq : forall k n, (Int k, n) ∈ priority_queue st -> k0 <= k
}.

(** Every arc out of a visited node has been relaxed, except the arcs
    [pend] of the node [cur] being expanded. *)
Definition relaxed_except (g : Graph) (st : dstate) (cur : string)
    (pend : list (string * num)) : Prop :=
  forall u v w du,
    u ∈ visited st -> arc g u v (Int w) -> distances st !! u = Some (Int du) ->
    dist_le st v (du + w) ∨ (u = cur ∧ (v, Int w) ∈ pend).

(** The invariant at the head of the loop and inside the [for] loop. *)
Definition loop_head (g : Graph) (start : string) (st : dstate) : Prop :=
  exists k0 cur, core g start k0 st ∧ relaxed_except g st cur [].

Definition loop_mid (g : Graph) (start cur : string) (k0 : Z)
    (pend : list (string * num)) (st : dstate) : Prop :=
  core g start k0 st ∧ cur ∈ visited st ∧
  distances st !! cur = Some (Int k0) ∧
  (forall x, x ∈ pend -> x ∈ get_neighbors g cur) ∧
  relaxed_except g st cur pend.

(** What holds of the guided search state whatever the weights and the
    heuristic. *)
Record ainv (g : Graph) (start : string) (st : astate) : Prop := MkAinv {
  ainv_dom : forall n,
    is_Some (g_score st !! n) <-> is_Some (adjacency_list g !! n);
  ainv_open : forall k n, (k, n) ∈ open_set st ->
    is_Some (adjacency_list g !! n) ∧ reachable g start n;
  ainv_closed : forall n, n ∈ closed_set st ->
    is_Some (adjacency_list g !! n) ∧ reachable g start n
}.

(** Frontier entries, and two for every node never put on the frontier. *)
Definition astar_measure (g : Graph) (st : astate) : nat :=
  (length (open_set st) +
   2 * size (dom (adjacency_list g) ∖ (closed_set st ∪ open_set_hash st)))%nat.

(** The same result under another [algorithm] label. *)
Definition relabel (label : string) (o : outcome (option PathResult))
  : outcome (option PathResult) :=
  match o with
  | Ok (Some r) =>
      Ok (Some {| path := path r; distance := distance r;
                  nodes_explored := nodes_explored r; algorithm := label |})
  | other => other
  end.

(** An estimate returns a number or raises [OverflowError]. *)
Definition estimate (heuristic_fn : Graph -> string -> string -> outcome num)
  : Prop :=
  forall g a b,
    (exists h, heuristic_fn g a b = Ok h) ∨ heuristic_fn g a b = OverflowError.

(** An estimate that returns an int for every two nodes of [g]. *)
Definition int_estimate (g : Graph)
    (heuristic_fn : Graph -> string -> string -> outcome num) : Prop :=
  forall a b, exists z, heuristic_fn g a b = Ok (Int z).

(** Every recorded coordinate is a Python int. *)
Definition int_positions (g : Graph) : Prop :=
  forall n x y, node_positions g !! n = Some (x, y) ->
    exists a b, x = Int a ∧ y = Int b.

(** Guided search stays within exact arithmetic: int weights and an int
    estimate. *)
Definition exact_search (g : Graph)
    (heuristic_fn : Graph -> string -> string -> outcome num) : Prop :=
  int_weights g ∧ int_estimate g heuristic_fn.

(** [trail g s v p]: [p] lists the nodes of a path from [s] to [v] along
    stored arcs, whatever their weights. *)
Inductive trail (g : Graph) (s : string) : string -> list string -> Prop :=
| trail_here : trail g s s [s]
| trail_step u v w p : trail g s u p -> arc g u v w -> trail g s v (p ++ [v]).

(** A node on the frontier or already expanded: it has a cost so far,
    and its predecessor chain runs through expanded nodes and spells,
    backwards, a path from [start]; on int weights the cost is the int
    that path weighs. *)
Definition a_tracked (g : Graph) (start : string) (st : astate) (n : string) : Prop :=
  exists d l,
    g_score st !! n = Some d ∧
    chain (a_previous st) n (n :: l) ∧
    Forall (fun x => x ∈ closed_set st) l ∧
    trail g start n (rev (n :: l)) ∧
    (int_weights g ->
     exists z, d = Int z ∧ path_from g start n (rev (n :: l)) z).

(** The invariant of guided search, for any heuristic; [pend] are the
    arcs of the node [cur] still to be looked at by the [for] loop (none
    at the head of the [while] loop). *)
Record afull (g : Graph) (start end_ cur : string) (pend : list (string * num))
    (st : astate) : Prop := MkAfull {
  af_weak : ainv g start st;
  af_disj : forall n, n ∈ open_set_hash st -> n ∉ closed_set st;
  af_entry : forall n, n ∈ open_set_hash st -> exists k, (k, n) ∈ open_set st;
  af_tracked : forall n,
    n ∈ closed_set st ∨ n ∈ open_set_hash st -> a_tracked g start st n;
  af_finite : forall n d,
    g_score st !! n = Some d ->
    d = inf ∨ n ∈ closed_set st ∨ n ∈ open_set_hash st;
  af_start : start ∈ closed_set st ∨ start ∈ open_set_hash st;
  af_end : end_ ∉ closed_set st;
  af_count : a_explored st = size (closed_set st);
  af_arcs : int_weights g -> forall u v w,
    u ∈ closed_set st -> arc g u v w ->
    (v ∈ closed_set st ∨ v ∈ open_set_hash st) ∨ (u = cur ∧ (v, w) ∈ pend)
}.

(** What a result of guided search is like. *)
Definition astar_post (g : Graph) (start end_ heuristic : string)
    (o : option PathResult) : Prop :=
  match o with
  | None => int_weights g -> ~ reachable g start end_
  | Some r =>
      trail g start end_ (path r) ∧
      NoDup (path r) ∧
      (length (path r) <= nodes_explored r)%nat ∧
      (nodes_explored r <= size (adjacency_list g))%nat ∧
      algorithm r = String.append "astar_" heuristic ∧
      (int_weights g ->
       exists d, distance r = Int d ∧ path_from g start end_ (path r) d)
  end.

(** No path can be reported from [start] to [end_]: an endpoint is no
    node of the graph, or no sequence of arcs leads from [start] to
    [end_]. *)
Definition no_path (g : Graph) (start end_ : string) : Prop :=
  adjacency_list g !! start = None ∨ adjacency_list g !! end_ = None ∨
  ~ reachable g start end_.

(** The structured input of [triangle]. *)
Definition triangle_data : graph_data :=
  {| data_nodes := None;
     data_edges := Some [MkEdge (Some "A") (Some "B") (Some (Int 1)) None;
                         MkEdge (Some "B") (Some "C") (Some (Int 2)) None;
                         MkEdge (Some "A") (Some "C") (Some (Int 5)) None] |}.

(** Nodes A, B, C with edges A-B of weight 1, B-C of weight 2 and A-C of
    weight 5. *)
Definition triangle : Graph :=
  add_edge (add_edge (add_edge Graph_init "A" "B" (Int 1) true)
                     "B" "C" (Int 2) true)
           "A" "C" (Int 5) true.

(** [hf] never overestimates the weight of a path to [goal]. *)
Definition admissible (g : Graph)
    (hf : Graph -> string -> string -> outcome num) (goal : string) : Prop :=
  forall n p d, path_from g n goal p d ->
    exists h, hf g n goal = Ok h ∧ num_leb h (Int d) = true.

(** Every recorded position is the default one. *)
Definition flat (g : Graph) : Prop :=
  forall n p, node_positions g !! n = Some p -> p = (Int 0, Int 0).

(** A graph with a cheap three-arc route and a dearer direct arc. *)
Definition detour_data : graph_data :=
  {| data_nodes := Some [NodeBare "S"; NodeBare "A"; NodeBare "B"; NodeBare "E"];
     data_edges := Some [MkEdge (Some "S") (Some "A") (Some (Int 10)) None;
                         MkEdge (Some "S") (Some "B") (Some (Int 1)) None;
                         MkEdge (Some "S") (Some "E") (Some (Int 5)) None;
                         MkEdge (Some "B") (Some "A") (Some (Int 1)) None;
                         MkEdge (Some "A") (Some "E") (Some (Int 1)) None] |}.

(** The graph [from_dict] builds from [detour_data]. *)
Definition detour : Graph :=
  build_graph
    [MkNodeSpec "S" (Int 0) (Int 0); MkNodeSpec "A" (Int 0) (Int 0);
     MkNodeSpec "B" (Int 0) (Int 0); MkNodeSpec "E" (Int 0) (Int 0)]
    [MkEdgeSpec "S" "A" (Int 10) true; MkEdgeSpec "S" "B" (Int 1) true;
     MkEdgeSpec "S" "E" (Int 5) true; MkEdgeSpec "B" "A" (Int 1) true;
     MkEdgeSpec "A" "E" (Int 1) true].

(** The result record of a run, if it returned one. *)
Definition result_of (o : outcome (option PathResult)) : option PathResult :=
  match o with
  | Ok r => r
  | _ => None
  end.

Definition dijkstra_result (g : Graph) (start end_ : string) : option PathResult :=
  result_of (dijkstra g start end_).

Definition astar_result (libm_pow : float -> float -> float) (g : Graph)
    (start end_ heuristic : string) : option PathResult :=
  result_of (astar libm_pow g start end_ heuristic).

(** Two routes of equal weight from S to E, through A and through B. *)
Definition diamond : Graph :=
  add_edge (add_edge (add_edge (add_edge Graph_init "S" "B" (Int 1) true)
                               "S" "A" (Int 1) true) "B" "E" (Int 1) true)
           "A" "E" (Int 1) true.

(** The triangle with an isolated node. *)
Definition triangle_z : Graph := add_node triangle "Z" (Int 0) (Int 0).


(** The graph [from_dict] builds from [rounding_data]. *)
Definition rounding : Graph :=
  build_graph []
    [MkEdgeSpec "S" "A" (Int 9007199254740992) true; MkEdgeSpec "A" "B" (Flt 1) true;
     MkEdgeSpec "B" "E" (Flt 1) true; MkEdgeSpec "S" "E" (Int 9007199254740993) true].


(** The first edge one heavier: the predecessor links of A and B then
    point at each other. *)
Definition looping_data : graph_data :=
  {| data_nodes := None;
     data_edges := Some [MkEdge (Some "S") (Some "A") (Some (Int 9007199254740993)) None;
                         MkEdge (Some "A") (Some "B") None None;
                         MkEdge (Some "B") (Some "E") None None] |}.

Definition looping : Graph :=
  build_graph []
    [MkEdgeSpec "S" "A" (Int 9007199254740993) true; MkEdgeSpec "A" "B" (Flt 1) true;
     MkEdgeSpec "B" "E" (Flt 1) true].



(** The states a loop is in at the start of its rounds, from [s0] on. *)
Inductive iterates {S R : Type} (body : S -> outcome (ctl S R)) (s0 : S)
  : S -> Prop :=
| iter_start : iterates body s0 s0
| iter_next s s' :
    iterates body s0 s -> body s = Ok (Next s') -> iterates body s0 s'.








(** What holds of the state of uniform-cost search for weights that are
    not negative, ints or floats: the predecessor links lead from visited
    nodes to visited nodes and only [start] has none. *)
Record dshape (g : Graph) (start : string) (st : dstate) : Prop := MkShape {
  sh_explored : d_explored st = size (visited st);
  sh_dom : forall n, is_Some (distances st !! n) -> is_Some (adjacency_list g !! n);
  sh_start : distances st !! start = Some (Int 0) ∧ previous st !! start = Some None;
  sh_pq : forall k n, (k, n) ∈ priority_queue st ->
    is_Some (adjacency_list g !! n) ∧ nonneg_num k ∧
    (n = start ∨ exists u, previous st !! n = Some (Some u));
  sh_vis : forall n, n ∈ visited st ->
    is_Some (adjacency_list g !! n) ∧
    (n = start ∨ exists u, previous st !! n = Some (Some u));
  sh_prev : forall n u, previous st !! n = Some (Some u) ->
    u ∈ visited st ∧ n <> start;
  sh_dist : forall n d, distances st !! n = Some d -> num_eqb d inf = false ->
    n ∈ visited st ∨ exists k, (k, n) ∈ priority_queue st
}.

(** The state at loop exit: the target is visited if it has a
    distance. *)
Definition dshape_exit (g : Graph) (start end_ : string) (st : dstate) : Prop :=
  dshape g start st ∧
  forall d, distances st !! end_ = Some d -> num_eqb d inf = false ->
    end_ ∈ visited st.

(** A heuristic field the guided-search handler accepts: absent, or one
    of the two tags. *)
Definition accepted_tag (h : option string) : Prop :=
  h = None ∨ h = Some "euclidean" ∨ h = Some "manhattan".

(** Three nodes with recorded positions and no arcs. *)
Definition placed : Graph :=
  add_node (add_node (add_node Graph_init "A" (Int 0) (Int 0)) "B" (Int 3) (Int 4))
    "C" (Int 6) (Int 8).

(** * Lemmas and theorems *)

Lemma parent_child (pos : nat) :
  (1 <= pos)%nat -> ((pos - 1) / 2 < pos)%nat ∧ child ((pos - 1) / 2) pos.
Proof.
  intros. unfold child. pose proof (Nat.div_mod_eq (pos - 1) 2).
  pose proof (Nat.mod_upper_bound (pos - 1) 2). lia.
Qed.

Lemma child_parent (i j : nat) : child i j -> i = ((j - 1) / 2)%nat ∧ (i < j)%nat.
Proof.
  intros Hc. assert (1 <= j)%nat by (unfold child in Hc; lia).
  destruct (parent_child j) as [? Hp]; [done|]. unfold child in *. lia.
Qed.

Section HeapItems.
Context {E : Type} (lt : E -> E -> bool).

Lemma insert_perm (l : list E) i x y :
  l !! i = Some x -> <[i := y]> l ≡ₚ y :: delete i l.
Proof.
  intros Hl. pose proof (lookup_lt_Some _ _ _ Hl).
  rewrite insert_take_drop by done. rewrite delete_take_drop.
  by rewrite <- Permutation_middle.
Qed.

Lemma insert_swap_perm (l : list E) i j x z :
  i ≠ j -> l !! i = Some x -> (j < length l)%nat ->
  <[i := z]> (<[j := x]> l) ≡ₚ <[j := z]> l.
Proof.
  intros Hne Hi Hj. destruct (lookup_lt_is_Some_2 l j Hj) as [y Hy].
  assert (Hmi : <[j := x]> l !! i = Some x) by by rewrite list_lookup_insert_ne.
  rewrite (insert_perm _ _ _ z Hmi), (insert_perm _ _ _ z Hy).
  apply Permutation_cons; [done|].
  apply (Permutation_cons_inv (a := x)).
  rewrite <- (delete_Permutation _ _ _ Hmi).
  by rewrite (insert_perm _ _ _ x Hy).
Qed.

Lemma siftdown_loop_perm fuel : forall (heap : list E) startpos pos item,
  (pos < length heap)%nat ->
  siftdown_loop lt fuel heap startpos pos item ≡ₚ <[pos := item]> heap.
Proof.
  induction fuel as [|fuel IH]; intros heap startpos pos item Hpos; [done|].
  cbn [siftdown_loop]. destruct (startpos <? pos)%nat eqn:Hlt; [|done].
  apply Nat.ltb_lt in Hlt. destruct (parent_child pos) as [Hp _]; [lia|].
  destruct (heap !! ((pos - 1) / 2)%nat) as [parent|] eqn:Hpar.
  2:{ apply lookup_ge_None in Hpar. lia. }
  destruct (lt item parent); [|done].
  rewrite IH by (rewrite length_insert; lia).
  apply insert_swap_perm; [lia|done|done].
Qed.

Lemma siftdown_perm (heap : list E) startpos pos :
  siftdown lt heap startpos pos ≡ₚ heap.
Proof.
  unfold siftdown. destruct (heap !! pos) as [item|] eqn:Hpos; [|done].
  rewrite siftdown_loop_perm by by eapply lookup_lt_Some.
  by rewrite list_insert_id.
Qed.

Lemma siftup_loop_perm fuel : forall (heap : list E) endpos pos heap' pos',
  (pos < length heap)%nat ->
  siftup_loop lt fuel heap endpos pos = (heap', pos') ->
  (pos' < length heap')%nat ∧ length heap' = length heap ∧
  forall item, <[pos' := item]> heap' ≡ₚ <[pos := item]> heap.
Proof.
  induction fuel as [|fuel IH]; intros heap endpos pos heap' pos' Hpos Hrun.
  { cbn in Hrun. by simplify_eq. }
  cbn [siftup_loop] in Hrun. cbv zeta in Hrun.
  destruct (2 * pos + 1 <? endpos)%nat; [|by simplify_eq].
  set (c_idx := match heap !! (2 * pos + 1)%nat, heap !! (2 * pos + 1 + 1)%nat with
                | Some l, Some r =>
                    if (2 * pos + 1 + 1 <? endpos)%nat && negb (lt l r)
                    then (2 * pos + 1 + 1)%nat else (2 * pos + 1)%nat
                | _, _ => (2 * pos + 1)%nat
                end) in *.
  assert (Hne : c_idx ≠ pos).
  { unfold c_idx. repeat case_match; lia. }
  destruct (heap !! c_idx) as [c|] eqn:Hc; [|by simplify_eq].
  apply IH in Hrun as (H1 & H2 & H3).
  2:{ rewrite length_insert. by eapply lookup_lt_Some. }
  rewrite length_insert in H2. split; [done|]. split; [done|].
  intros item. rewrite H3. by apply insert_swap_perm.
Qed.

Lemma siftup_perm (heap : list E) pos : siftup lt heap pos ≡ₚ heap.
Proof.
  unfold siftup. destruct (heap !! pos) as [item|] eqn:Hpos; [|done].
  destruct (siftup_loop lt (length heap) heap (length heap) pos)
    as [heap1 pos1] eqn:Hrun.
  apply siftup_loop_perm in Hrun as (_ & _ & H3); [|by eapply lookup_lt_Some].
  rewrite siftdown_perm, H3. by rewrite list_insert_id.
Qed.

Lemma heappush_perm (heap : list E) item : heappush lt heap item ≡ₚ item :: heap.
Proof.
  unfold heappush. rewrite siftdown_perm. by rewrite Permutation_app_comm.
Qed.

Lemma heappop_None (heap : list E) : heappop lt heap = None <-> heap = [].
Proof.
  unfold heappop. split.
  - destruct (last heap) eqn:Hl.
    + by destruct (removelast heap).
    + intros _. by apply last_None.
  - by intros ->.
Qed.

Lemma heappop_root (heap : list E) x q :
  heappop lt heap = Some (x, q) -> heap !! 0%nat = Some x.
Proof.
  unfold heappop. destruct (last heap) as [lastelt|] eqn:Hl; [|done].
  destruct heap as [|a heap] using rev_ind; [done|]. clear IHheap.
  rewrite last_snoc in Hl. simplify_eq. rewrite removelast_last.
  destruct heap as [|r rest]; intros; by simplify_eq.
Qed.

Lemma heappop_perm (heap : list E) x q :
  heappop lt heap = Some (x, q) -> heap ≡ₚ x :: q.
Proof.
  unfold heappop. destruct (last heap) as [lastelt|] eqn:Hl; [|done].
  destruct heap as [|a heap] using rev_ind; [done|]. clear IHheap.
  rewrite last_snoc in Hl. simplify_eq. rewrite removelast_last.
  destruct heap as [|r rest]; intros; simplify_eq; [done|].
  rewrite siftup_perm. cbn. apply Permutation_cons; [done|].
  by rewrite Permutation_app_comm.
Qed.

(** *** The heap invariant, for items on which [lt] is a strict weak
    order. *)

Variable ok : E -> Prop.
Hypothesis lt_asym : forall a b, ok a -> ok b -> lt a b = true -> lt b a = false.
Hypothesis le_trans : forall a b c, ok a -> ok b -> ok c ->
  lt b a = false -> lt c b = false -> lt c a = false.

Lemma lt_irrefl a : ok a -> lt a a = false.
Proof. intros Ha. destruct (lt a a) eqn:Hl; [|done]. by rewrite lt_asym in Hl. Qed.

Lemma is_heap_fill (heap : list E) pos item :
  heap_but lt heap pos -> fits_above lt heap pos item ->
  (forall p a, child p pos -> heap !! p = Some a -> lt item a = false) ->
  is_heap lt (<[pos := item]> heap).
Proof.
  intros Hbut Hfit Hpar i j a b Hc Hi Hj.
  pose proof (child_parent _ _ Hc) as [_ Hij].
  apply list_lookup_insert_Some in Hi as [(-> & -> & _)|[Hi1 Hi]];
  apply list_lookup_insert_Some in Hj as [(Hj0 & Hj1 & _)|[Hj1 Hj]];
    simplify_eq; try lia.
  - by eapply Hfit.
  - by eapply Hpar.
  - eapply Hbut; [done|lia|lia|done|done].
Qed.

Lemma siftdown_loop_heap fuel : forall (heap : list E) pos item,
  (pos <= fuel)%nat -> (pos < length heap)%nat ->
  Forall ok heap -> ok item ->
  heap_but lt heap pos -> fits_above lt heap pos item -> bridged lt heap pos ->
  is_heap lt (siftdown_loop lt fuel heap 0 pos item).
Proof.
  induction fuel as [|fuel IH]; intros heap pos item Hf Hpos Hok Hi Hbut Hfit Hbr.
  { cbn. apply is_heap_fill; [done..|]. intros p a Hc. apply child_parent in Hc. lia. }
  cbn [siftdown_loop]. destruct (0 <? pos)%nat eqn:Hlt.
  2:{ apply Nat.ltb_ge in Hlt. apply is_heap_fill; [done..|].
      intros p a Hc. apply child_parent in Hc. lia. }
  apply Nat.ltb_lt in Hlt. destruct (parent_child pos) as [Hp Hpc]; [lia|].
  set (pp := ((pos - 1) / 2)%nat) in *.
  destruct (heap !! pp) as [parent|] eqn:Hpar.
  2:{ apply lookup_ge_None in Hpar. lia. }
  assert (Hokp : ok parent).
  { rewrite Forall_forall in Hok. apply Hok. by eapply list_elem_of_lookup_2. }
  assert (Hokl : forall i y, heap !! i = Some y -> ok y).
  { intros i y Hy. rewrite Forall_forall in Hok. apply Hok.
    by eapply list_elem_of_lookup_2. }
  destruct (lt item parent) eqn:Hcmp.
  - apply IH.
    + lia.
    + rewrite length_insert. lia.
    + apply Forall_insert; [done|done].
    + done.
    + intros i j a b Hc Hip Hjp Ha Hb.
      pose proof (child_parent _ _ Hc) as [_ Hij].
      apply list_lookup_insert_Some in Ha as [(<- & <- & _)|[Ha1 Ha]];
      apply list_lookup_insert_Some in Hb as [(Hb0 & Hb1 & _)|[Hb1 Hb]];
        simplify_eq; try lia.
      * exact (Hbr pp j parent b Hpc Hc Hpar Hb).
      * exfalso. apply Hip. by apply child_parent in Hc as [-> _].
      * eapply Hbut; [done|lia|lia|done|done].
    + intros c y Hc Hy.
      apply list_lookup_insert_Some in Hy as [(<- & <- & _)|[Hy1 Hy]].
      * by apply lt_asym.
      * apply (le_trans item parent y); [done|done|by eapply Hokl|by apply lt_asym|].
        eapply (Hbut pp c); [done|lia|done|done|done].
    + intros gp c a y Hgp Hc Ha Hy.
      pose proof (child_parent _ _ Hgp) as [_ Hgpp].
      rewrite list_lookup_insert_ne in Ha by lia.
      assert (Hpa : lt parent a = false).
      { eapply (Hbut gp pp); [done|lia|lia|done|done]. }
      apply list_lookup_insert_Some in Hy as [(<- & <- & _)|[Hy1 Hy]]; [done|].
      apply (le_trans a parent y); [by eapply Hokl|done|by eapply Hokl|done|].
      eapply (Hbut pp c); [done|lia|done|done|done].
  - apply is_heap_fill; [done..|].
    intros p a Hc Ha. apply child_parent in Hc as [-> _].
    fold pp in Ha. by simplify_eq.
Qed.

Lemma siftup_loop_heap fuel : forall (heap : list E) pos heap' pos',
  (length heap <= fuel + pos)%nat -> (pos < length heap)%nat ->
  Forall ok heap ->
  heap_but lt heap pos -> bridged lt heap pos ->
  siftup_loop lt fuel heap (length heap) pos = (heap', pos') ->
  Forall ok heap' ∧ heap_but lt heap' pos' ∧ bridged lt heap' pos' ∧
  (forall c, child pos' c -> heap' !! c = None).
Proof.
  induction fuel as [|fuel IH]; intros heap pos heap' pos' Hf Hpos Hok Hbut Hbr Hrun.
  { lia. }
  cbn [siftup_loop] in Hrun. cbv zeta in Hrun.
  destruct (2 * pos + 1 <? length heap)%nat eqn:Hlt.
  2:{ simplify_eq. apply Nat.ltb_ge in Hlt. repeat split; [done..|].
      intros c Hc. apply lookup_ge_None. unfold child in Hc. lia. }
  apply Nat.ltb_lt in Hlt.
  destruct (lookup_lt_is_Some_2 heap (2 * pos + 1)%nat Hlt) as [l Hl].
  rewrite Hl in Hrun.
  assert (Hokl : forall i y, heap !! i = Some y -> ok y).
  { intros i y Hy. rewrite Forall_forall in Hok. apply Hok.
    by eapply list_elem_of_lookup_2. }
  set (c_idx := match heap !! (2 * pos + 1 + 1)%nat with
                | Some r =>
                    if (2 * pos + 1 + 1 <? length heap)%nat && negb (lt l r)
                    then (2 * pos + 1 + 1)%nat else (2 * pos + 1)%nat
                | None => (2 * pos + 1)%nat
                end) in *.
  assert (Hcc : child pos c_idx).
  { unfold c_idx, child. repeat case_match; lia. }
  assert (Hsib : forall j b, child pos j -> j ≠ c_idx -> heap !! j = Some b ->
                             forall c, heap !! c_idx = Some c -> lt b c = false).
  { intros j b Hj Hne Hb c Hc. unfold c_idx in Hne, Hc.
    destruct (heap !! (2 * pos + 1 + 1)%nat) as [r|] eqn:Hr.
    - pose proof (lookup_lt_Some _ _ _ Hr) as Hrl.
      apply Nat.ltb_lt in Hrl. rewrite Hrl in Hne, Hc.
      destruct (lt l r) eqn:Hcmp; cbn [andb negb] in Hne, Hc.
      + assert (j = (2 * pos + 1 + 1)%nat) by (unfold child in Hj; lia).
        simplify_eq. apply lt_asym; [by eapply Hokl|by eapply Hokl|done].
      + assert (j = (2 * pos + 1)%nat) by (unfold child in Hj; lia).
        by simplify_eq.
    - destruct Hj as [->| ->]; [by destruct Hne|].
      replace (2 * pos + 2)%nat with (2 * pos + 1 + 1)%nat in Hb by lia.
      congruence. }
  assert (Hsome : is_Some (heap !! c_idx)).
  { unfold c_idx. destruct (heap !! (2 * pos + 1 + 1)%nat) eqn:Hr; [|done].
    destruct ((2 * pos + 1 + 1 <? length heap)%nat && negb (lt l e)); eauto. }
  destruct Hsome as [c Hc]. rewrite Hc in Hrun.
  pose proof (child_parent _ _ Hcc) as [_ Hpc].
  replace (length heap) with (length (<[pos := c]> heap)) in Hrun
    by apply length_insert.
  apply IH in Hrun; [done|rewrite length_insert; lia|
                     rewrite length_insert; by eapply lookup_lt_Some|..].
  - apply Forall_insert; [done|by eapply Hokl].
  - intros i j a b Hij Hi Hj Ha Hb.
    pose proof (child_parent _ _ Hij) as [_ Hlt'].
    apply list_lookup_insert_Some in Ha as [(<- & <- & _)|[Ha1 Ha]];
    apply list_lookup_insert_Some in Hb as [(Hb0 & Hb1 & _)|[Hb1 Hb]];
      simplify_eq; try lia.
    + by eapply Hsib.
    + eapply Hbr; [exact Hij|exact Hcc|exact Ha|exact Hc].
    + eapply Hbut; [done|lia|lia|done|done].
  - intros p gc a y Hp Hgc Ha Hy.
    pose proof (child_parent _ _ Hp) as [Hpp _].
    pose proof (child_parent _ _ Hcc) as [Hpp' _].
    pose proof (child_parent _ _ Hgc) as [_ Hgl].
    assert (Hpeq : p = pos) by lia. rewrite Hpeq in Ha.
    rewrite list_lookup_insert_eq in Ha by lia. simplify_eq.
    rewrite list_lookup_insert_ne in Hy by lia.
    eapply (Hbut c_idx gc); [done|lia|lia|done|done].
Qed.

Lemma siftup_heap (heap : list E) :
  Forall ok heap -> heap_but lt heap 0 -> is_heap lt (siftup lt heap 0).
Proof.
  intros Hok Hbut. unfold siftup.
  destruct (heap !! 0%nat) as [item|] eqn:Hpos.
  2:{ destruct heap; [|done]. intros i j a b _ Hi. done. }
  pose proof (lookup_lt_Some _ _ _ Hpos) as Hlen.
  assert (Hoki : ok item).
  { rewrite Forall_forall in Hok. apply Hok. by eapply list_elem_of_lookup_2. }
  destruct (siftup_loop lt (length heap) heap (length heap) 0)
    as [heap1 pos1] eqn:Hrun.
  pose proof (siftup_loop_perm _ _ _ _ _ _ Hlen Hrun) as (Hp1 & Hl1 & _).
  apply siftup_loop_heap in Hrun as (Hok1 & Hbut1 & Hbr1 & Hleaf);
    [|lia|done|done|done|].
  2:{ intros p c a y Hp. apply child_parent in Hp. lia. }
  unfold siftdown. rewrite list_lookup_insert_eq by done.
  apply siftdown_loop_heap.
  - done.
  - by rewrite length_insert.
  - by apply Forall_insert.
  - done.
  - intros i j a b Hc Hi Hj Ha Hb.
    rewrite list_lookup_insert_ne in Ha by done.
    rewrite list_lookup_insert_ne in Hb by done. by eapply Hbut1.
  - intros c y Hc Hy. pose proof (child_parent _ _ Hc) as [_ ?].
    rewrite list_lookup_insert_ne in Hy by lia.
    by rewrite (Hleaf c Hc) in Hy.
  - intros p c a y Hp Hc Ha Hy. pose proof (child_parent _ _ Hc) as [_ ?].
    rewrite list_lookup_insert_ne in Hy by lia.
    by rewrite (Hleaf c Hc) in Hy.
Qed.

Lemma heappush_heap (heap : list E) item :
  Forall ok heap -> ok item -> is_heap lt heap ->
  is_heap lt (heappush lt heap item).
Proof.
  intros Hok Hi Hh. unfold heappush, siftdown.
  rewrite lookup_app_r by done. rewrite Nat.sub_diag. cbn [lookup list_lookup].
  apply siftdown_loop_heap.
  - done.
  - rewrite length_app. cbn. lia.
  - apply Forall_app. split; [done|]. by apply Forall_singleton.
  - done.
  - intros i j a b Hc Hin Hjn Ha Hb.
    pose proof (lookup_lt_Some _ _ _ Ha) as Hla.
    pose proof (lookup_lt_Some _ _ _ Hb) as Hlb.
    rewrite length_app in Hla, Hlb. cbn in Hla, Hlb.
    rewrite lookup_app_l in Ha by lia. rewrite lookup_app_l in Hb by lia.
    by eapply Hh.
  - intros c y Hc Hy. pose proof (child_parent _ _ Hc) as [_ ?].
    apply lookup_lt_Some in Hy. rewrite length_app in Hy. cbn in Hy. lia.
  - intros p c a y Hp Hc Ha Hy. pose proof (child_parent _ _ Hc) as [_ ?].
    apply lookup_lt_Some in Hy. rewrite length_app in Hy. cbn in Hy. lia.
Qed.

Lemma heappop_heap (heap : list E) x q :
  Forall ok heap -> is_heap lt heap ->
  heappop lt heap = Some (x, q) -> is_heap lt q.
Proof.
  intros Hok Hh. unfold heappop.
  destruct (last heap) as [lastelt|] eqn:Hl; [|done].
  destruct heap as [|a heap] using rev_ind; [done|]. clear IHheap.
  rewrite last_snoc in Hl. simplify_eq. rewrite removelast_last.
  destruct heap as [|r rest]; intros; simplify_eq.
  { intros i j a b _ Hi. done. }
  apply Forall_app in Hok as [Hok1 Hok2].
  apply Forall_cons in Hok1 as [_ Hok1]. apply Forall_cons in Hok2 as [Hok2 _].
  apply siftup_heap; [by constructor|].
  intros i j a b Hc Hi Hj Ha Hb.
  pose proof (child_parent _ _ Hc) as [_ Hij].
  pose proof (lookup_lt_Some _ _ _ Hb) as Hlb. cbn in Hlb.
  destruct i as [|i]; [done|]. destruct j as [|j]; [done|].
  cbn in Ha, Hb.
  apply (Hh (S i) (S j)); [done|..].
  - by apply (lookup_app_l_Some (x :: rest) [lastelt] (S i)).
  - by apply (lookup_app_l_Some (x :: rest) [lastelt] (S j)).
Qed.

Lemma heap_root_least (heap : list E) r :
  Forall ok heap -> is_heap lt heap -> heap !! 0%nat = Some r ->
  forall y, y ∈ heap -> lt y r = false.
Proof.
  intros Hok Hh Hr y Hy.
  assert (Hokl : forall i z, heap !! i = Some z -> ok z).
  { intros i z Hz. rewrite Forall_forall in Hok. apply Hok.
    by eapply list_elem_of_lookup_2. }
  apply list_elem_of_lookup in Hy as [j Hj]. revert y Hj.
  induction j as [j IH] using lt_wf_ind. intros y Hj.
  destruct (decide (j = 0%nat)) as [->|Hne].
  { simplify_eq. apply lt_irrefl. by eapply Hokl. }
  destruct (parent_child j) as [Hp Hc]; [lia|].
  destruct (lookup_lt_is_Some_2 heap ((j - 1) / 2)%nat) as [a Ha].
  { apply lookup_lt_Some in Hj. lia. }
  apply (le_trans r a y); [by eapply Hokl|by eapply Hokl|by eapply Hokl|..].
  - by apply (IH _ Hp).
  - by eapply Hh.
Qed.

Lemma heappop_least (heap : list E) x q :
  Forall ok heap -> is_heap lt heap -> heappop lt heap = Some (x, q) ->
  forall y, y ∈ heap -> lt y x = false.
Proof.
  intros Hok Hh Hpop. apply heap_root_least; [done|done|].
  by eapply heappop_root.
Qed.
End HeapItems.


Lemma xq_compare_antisym a b : xq_compare b a = CompOpp (xq_compare a b).
Proof. destruct a, b; try done. cbn. by rewrite <- Qcompare_antisym. Qed.

Lemma xq_compare_refl a : xq_compare a a = Eq.
Proof. destruct a; try done. cbn. by apply Qeq_alt. Qed.

Lemma xq_ge_trans a b c :
  xq_compare a b ≠ Lt -> xq_compare b c ≠ Lt -> xq_compare a c ≠ Lt.
Proof.
  destruct a as [|p|], b as [|q|], c as [|r|]; cbn; try done.
  rewrite <- !Qge_alt. intros H1 H2. by eapply Qle_trans.
Qed.

Lemma xq_eq_trans a b c :
  xq_compare a b = Eq -> xq_compare b c = Eq -> xq_compare a c = Eq.
Proof.
  destruct a as [|p|], b as [|q|], c as [|r|]; cbn; try done.
  rewrite <- !Qeq_alt. intros H1 H2. by rewrite H1.
Qed.

Lemma xq_squeeze a b c :
  xq_compare a b ≠ Lt -> xq_compare b c ≠ Lt -> xq_compare a c = Eq ->
  xq_compare a b = Eq ∧ xq_compare b c = Eq.
Proof.
  destruct a as [|p|], b as [|q|], c as [|r|]; cbn; try done.
  rewrite <- !Qge_alt, <- !Qeq_alt. intros H1 H2 H3.
  rewrite H3 in H1. split.
  - rewrite H3. symmetry. by apply Qle_antisym.
  - by apply Qle_antisym.
Qed.

Lemma exact_Int z : exact (Int z) = Some (Finite (inject_Z z)).
Proof. done. Qed.

Lemma exact_inf : exact inf = Some PosInf.
Proof. reflexivity. Qed.

Lemma Qcompare_inject_Z a b : Qcompare (inject_Z a) (inject_Z b) = (a ?= b).
Proof. unfold Qcompare. cbn. by rewrite !Z.mul_1_r. Qed.

Lemma num_compare_Int a b : num_compare (Int a) (Int b) = Some (a ?= b).
Proof.
  unfold num_compare. rewrite !exact_Int. cbn [xq_compare].
  by rewrite Qcompare_inject_Z.
Qed.

Lemma num_ltb_Int a b : num_ltb (Int a) (Int b) = (a <? b).
Proof. unfold num_ltb. by rewrite num_compare_Int. Qed.

Lemma num_eqb_Int a b : num_eqb (Int a) (Int b) = (a =? b).
Proof.
  unfold num_eqb. rewrite num_compare_Int.
  destruct (Z.compare_spec a b); symmetry;
    [by apply Z.eqb_eq|apply Z.eqb_neq; lia..].
Qed.

Lemma num_ltb_Int_inf a : num_ltb (Int a) inf = true.
Proof. unfold num_ltb, num_compare. by rewrite exact_inf. Qed.

Lemma num_ltb_inf_r a : num_ltb inf a = false.
Proof.
  unfold num_ltb, num_compare. rewrite exact_inf.
  destruct (exact a) as [[]|]; done.
Qed.

Lemma num_eqb_Int_inf a : num_eqb (Int a) inf = false.
Proof. unfold num_eqb, num_compare. by rewrite exact_inf. Qed.

Lemma num_eqb_inf_inf : num_eqb inf inf = true.
Proof. reflexivity. Qed.

Lemma num_ltb_ordered a b : num_ltb a b = true -> ordered a ∧ ordered b.
Proof.
  unfold num_ltb, num_compare, ordered.
  destruct (exact a), (exact b); done.
Qed.

Lemma num_ltb_lt_inf a b : num_ltb a b = true -> num_eqb a inf = false.
Proof.
  unfold num_ltb, num_eqb, num_compare. rewrite exact_inf.
  destruct (exact a) as [[]|], (exact b) as [[]|]; done.
Qed.

Lemma Int_ordered z : ordered (Int z).
Proof. by eexists. Qed.

(** *** The order of the frontier entries *)

Lemma string_ltb_irrefl s : String.ltb s s = false.
Proof.
  unfold String.ltb.
  assert (String.compare s s = Eq) as -> by by apply String_as_OT.cmp_eq.
  done.
Qed.

Lemma string_ltb_trans a b c :
  String.ltb a b = true -> String.ltb b c = true -> String.ltb a c = true.
Proof.
  unfold String.ltb. intros Hab Hbc.
  destruct (String.compare a b) eqn:Eab; try done.
  destruct (String.compare b c) eqn:Ebc; try done.
  apply String_as_OT.cmp_lt in Eab, Ebc.
  pose proof (String_as_OT.lt_trans _ _ _ Eab Ebc) as Hac.
  apply String_as_OT.cmp_lt in Hac. unfold String_as_OT.cmp in Hac. by rewrite Hac.
Qed.

Lemma string_ltb_total a b :
  String.ltb a b = false -> String.ltb b a = false -> a = b.
Proof.
  unfold String.ltb. rewrite (String.compare_antisym a b).
  destruct (String.compare b a) eqn:E; simpl; try done.
  intros _ _. symmetry. by apply String.compare_eq_iff.
Qed.

Lemma string_ltb_asym a b : String.ltb a b = true -> String.ltb b a = false.
Proof.
  intros H. destruct (String.ltb b a) eqn:E; [|done].
  pose proof (string_ltb_trans _ _ _ H E) as Hc. by rewrite string_ltb_irrefl in Hc.
Qed.

Lemma string_le_trans a b c :
  String.ltb b a = false -> String.ltb c b = false -> String.ltb c a = false.
Proof.
  intros S1 S2. destruct (String.ltb c a) eqn:E; [|done].
  destruct (String.ltb a b) eqn:E'.
  - pose proof (string_ltb_trans _ _ _ E E'). congruence.
  - pose proof (string_ltb_total _ _ E' S1) as Heq. rewrite Heq in E. congruence.
Qed.

(** [a < b] on entries with ordered keys, by the comparison of the exact
    keys. *)
Lemma entry_ltb_spec (a b : num * string) x y :
  exact a.1 = Some x -> exact b.1 = Some y ->
  entry_ltb a b =
  match xq_compare x y with
  | Lt => true
  | Eq => String.ltb a.2 b.2
  | Gt => false
  end.
Proof.
  intros Hx Hy. unfold entry_ltb, num_eqb, num_ltb, num_compare.
  rewrite Hx, Hy. by destruct (xq_compare x y).
Qed.

Lemma entry_ltb_asym a b :
  ordered_entry a -> ordered_entry b ->
  entry_ltb a b = true -> entry_ltb b a = false.
Proof.
  intros [x Hx] [y Hy]. rewrite (entry_ltb_spec a b x y), (entry_ltb_spec b a y x) by done.
  rewrite (xq_compare_antisym x y). destruct (xq_compare x y); cbn; try done.
  apply string_ltb_asym.
Qed.

(** [a <= b] and [b <= c] give [a <= c], with [x <= y] read as
    [not (y < x)]. *)
Lemma entry_le_trans a b c :
  ordered_entry a -> ordered_entry b -> ordered_entry c ->
  entry_ltb b a = false -> entry_ltb c b = false -> entry_ltb c a = false.
Proof.
  intros [x Hx] [y Hy] [z Hz].
  rewrite (entry_ltb_spec b a y x), (entry_ltb_spec c b z y),
    (entry_ltb_spec c a z x) by done.
  intros H1 H2.
  assert (G1 : xq_compare y x ≠ Lt) by (by destruct (xq_compare y x)).
  assert (G2 : xq_compare z y ≠ Lt) by (by destruct (xq_compare z y)).
  pose proof (xq_ge_trans _ _ _ G2 G1) as G3.
  destruct (xq_compare z x) eqn:E; [|done|done].
  destruct (xq_squeeze _ _ _ G2 G1 E) as [E2 E1].
  rewrite E1 in H1. rewrite E2 in H2. by eapply string_le_trans.
Qed.

(** The two facts a client of the frontier needs. *)
Lemma frontier_pop_least (h : list (num * string)) x q :
  Forall ordered_entry h -> is_heap entry_ltb h ->
  heappop entry_ltb h = Some (x, q) ->
  forall y, y ∈ h -> entry_ltb y x = false.
Proof.
  intros Hok Hh Hpop.
  by apply (heappop_least entry_ltb ordered_entry entry_ltb_asym entry_le_trans h x q).
Qed.

Lemma frontier_pop_heap (h : list (num * string)) x q :
  Forall ordered_entry h -> is_heap entry_ltb h ->
  heappop entry_ltb h = Some (x, q) ->
  Forall ordered_entry q ∧ is_heap entry_ltb q.
Proof.
  intros Hok Hh Hpop. split.
  - pose proof (heappop_perm _ _ _ _ Hpop) as HP. rewrite HP in Hok.
    by apply Forall_cons in Hok as [_ ?].
  - by apply (heappop_heap entry_ltb ordered_entry entry_ltb_asym entry_le_trans h x q).
Qed.

Lemma frontier_push_heap (h : list (num * string)) e :
  Forall ordered_entry h -> is_heap entry_ltb h -> ordered_entry e ->
  Forall ordered_entry (heappush entry_ltb h e) ∧
  is_heap entry_ltb (heappush entry_ltb h e).
Proof.
  intros Hok Hh He. split.
  - rewrite heappush_perm. by constructor.
  - by apply (heappush_heap entry_ltb ordered_entry entry_ltb_asym entry_le_trans).
Qed.

Lemma is_heap_singleton {E} (lt : E -> E -> bool) (x : E) : is_heap lt [x].
Proof.
  intros i j a b Hc Hi Hj. apply child_parent in Hc as [_ Hc].
  apply lookup_lt_Some in Hj. cbn in Hj. lia.
Qed.

Lemma is_heap_nil {E} (lt : E -> E -> bool) : is_heap lt [].
Proof. intros i j a b _ Hi. done. Qed.

(** Among integer keys the frontier order is the integer order. *)
Lemma entry_ltb_Int_false k' x k n :
  entry_ltb (Int k', x) (Int k, n) = false -> k <= k'.
Proof.
  unfold entry_ltb. cbn [fst snd]. rewrite num_eqb_Int, num_ltb_Int.
  destruct (Z.eqb_spec k' k) as [->|Hne]; [lia|]. intros H%Z.ltb_ge. lia.
Qed.


Lemma get_neighbors_ensure_node g n m :
  get_neighbors (ensure_node g n) m = get_neighbors g m.
Proof.
  unfold get_neighbors, ensure_node, add_node.
  destruct (adjacency_list g !! n) eqn:E; simpl; [done|].
  destruct (decide (n = m)) as [->|Hne].
  - by rewrite lookup_insert_eq, E.
  - by rewrite lookup_insert_ne.
Qed.

Lemma ensure_node_present g n : is_Some (adjacency_list (ensure_node g n) !! n).
Proof.
  unfold ensure_node, add_node.
  destruct (adjacency_list g !! n) eqn:E; simpl; [by rewrite E|].
  rewrite lookup_insert_eq. eauto.
Qed.

Lemma ensure_node_keeps g n m :
  is_Some (adjacency_list g !! m) -> is_Some (adjacency_list (ensure_node g n) !! m).
Proof.
  unfold ensure_node, add_node.
  destruct (adjacency_list g !! n) eqn:E; simpl; [done|].
  intros Hm. destruct (decide (n = m)) as [->|Hne].
  - rewrite lookup_insert_eq. eauto.
  - by rewrite lookup_insert_ne.
Qed.

Lemma get_neighbors_append_arc g n arc m :
  is_Some (adjacency_list g !! n) ->
  get_neighbors (append_arc g n arc) m =
  get_neighbors g m ++ (if decide (m = n) then [arc] else []).
Proof.
  intros [l Hl]. unfold get_neighbors, append_arc; simpl.
  destruct (decide (m = n)) as [->|Hne].
  - by rewrite lookup_alter_eq, Hl.
  - rewrite lookup_alter_ne by done. by rewrite app_nil_r.
Qed.

Lemma append_arc_keeps g n arc m :
  is_Some (adjacency_list g !! m) -> is_Some (adjacency_list (append_arc g n arc) !! m).
Proof.
  intros [l Hl]. unfold append_arc; simpl.
  destruct (decide (n = m)) as [->|Hne].
  - rewrite lookup_alter_eq, Hl. simpl. eauto.
  - rewrite lookup_alter_ne by done. eauto.
Qed.

Lemma get_neighbors_add_edge g a b w bd n :
  get_neighbors (add_edge g a b w bd) n =
  get_neighbors g n ++ (if decide (n = a) then [(b, w)] else [])
                    ++ (if bd then if decide (n = b) then [(a, w)] else [] else []).
Proof.
  unfold add_edge.
  assert (Ha : is_Some (adjacency_list (ensure_node (ensure_node g a) b) !! a))
    by apply ensure_node_keeps, ensure_node_present.
  assert (Hb : is_Some (adjacency_list (ensure_node (ensure_node g a) b) !! b))
    by apply ensure_node_present.
  destruct bd.
  - rewrite get_neighbors_append_arc by by apply append_arc_keeps.
    rewrite get_neighbors_append_arc by done.
    rewrite !get_neighbors_ensure_node. by rewrite <- app_assoc.
  - rewrite get_neighbors_append_arc by done.
    rewrite !get_neighbors_ensure_node. by rewrite app_nil_r.
Qed.

(** C8: after [add_edge g a b w] with [bidirectional] true the arc
    [(b, w)] is among the neighbours of [a] and [(a, w)] among those of
    [b]; the same call once more appends the same arcs again, so that
    parallel arcs are stored and nothing is deduplicated. *)
Theorem add_edge_bidirectional_parallel (g : Graph) (a b : string) (w : num) :
  let g1 := add_edge g a b w true in
  let g2 := add_edge g1 a b w true in
  (b, w) ∈ get_neighbors g1 a ∧ (a, w) ∈ get_neighbors g1 b ∧
  get_neighbors g2 a =
    get_neighbors g1 a ++ [(b, w)] ++ (if decide (a = b) then [(a, w)] else []) ∧
  get_neighbors g2 b =
    get_neighbors g1 b ++ (if decide (b = a) then [(b, w)] else []) ++ [(a, w)].
Proof.
  cbv zeta. repeat split.
  - rewrite get_neighbors_add_edge. rewrite decide_True by done. set_solver.
  - rewrite get_neighbors_add_edge. rewrite (decide_True (P := b = b)) by done.
    set_solver.
  - rewrite (get_neighbors_add_edge (add_edge g a b w true)).
    by rewrite decide_True by done.
  - rewrite (get_neighbors_add_edge (add_edge g a b w true)).
    by rewrite (decide_True (P := b = b)) by done.
Qed.


Lemma closed_init : closed Graph_init.
Proof. intros u v w Ha. unfold arc, get_neighbors in Ha. simpl in Ha.
  rewrite lookup_empty in Ha. simpl in Ha. set_solver. Qed.

Lemma arc_is_key g u v w : arc g u v w -> is_Some (adjacency_list g !! u).
Proof.
  unfold arc, get_neighbors. destruct (adjacency_list g !! u); simpl; [eauto|].
  set_solver.
Qed.

Lemma get_neighbors_add_node g n x y m :
  get_neighbors (add_node g n x y) m = get_neighbors g m.
Proof.
  unfold get_neighbors, add_node; simpl.
  destruct (adjacency_list g !! n) eqn:E; [done|].
  destruct (decide (n = m)) as [->|Hne].
  - by rewrite lookup_insert_eq, E.
  - by rewrite lookup_insert_ne.
Qed.

Lemma add_node_keeps g n x y m :
  is_Some (adjacency_list g !! m) -> is_Some (adjacency_list (add_node g n x y) !! m).
Proof.
  unfold add_node; simpl. destruct (adjacency_list g !! n) eqn:E; [done|].
  intros Hm. destruct (decide (n = m)) as [->|Hne].
  - rewrite lookup_insert_eq. eauto.
  - by rewrite lookup_insert_ne.
Qed.

Lemma closed_add_node g n x y : closed g -> closed (add_node g n x y).
Proof.
  intros Hc u v w Ha. unfold arc in Ha. rewrite get_neighbors_add_node in Ha.
  destruct (Hc u v w Ha). split; by apply add_node_keeps.
Qed.

Lemma add_edge_keeps g a b w bd m :
  is_Some (adjacency_list g !! m) -> is_Some (adjacency_list (add_edge g a b w bd) !! m).
Proof.
  intros Hm. unfold add_edge.
  assert (is_Some (adjacency_list (append_arc (ensure_node (ensure_node g a) b) a (b, w)) !! m))
    by by apply append_arc_keeps, ensure_node_keeps, ensure_node_keeps.
  destruct bd; [by apply append_arc_keeps|done].
Qed.

Lemma add_edge_endpoints g a b w bd :
  is_Some (adjacency_list (add_edge g a b w bd) !! a) ∧
  is_Some (adjacency_list (add_edge g a b w bd) !! b).
Proof.
  unfold add_edge.
  assert (Ha : is_Some (adjacency_list (ensure_node (ensure_node g a) b) !! a))
    by apply ensure_node_keeps, ensure_node_present.
  assert (Hb : is_Some (adjacency_list (ensure_node (ensure_node g a) b) !! b))
    by apply ensure_node_present.
  destruct bd; split; repeat apply append_arc_keeps; done.
Qed.

Lemma closed_add_edge g a b w bd : closed g -> closed (add_edge g a b w bd).
Proof.
  intros Hc u v w' Ha. unfold arc in Ha. rewrite get_neighbors_add_edge in Ha.
  destruct (add_edge_endpoints g a b w bd) as [Ea Eb].
  rewrite !elem_of_app in Ha. destruct Ha as [Ha|[Ha|Ha]].
  - destruct (Hc u v w' Ha). split; by apply add_edge_keeps.
  - destruct (decide (u = a)) as [->|]; [|set_solver].
    apply list_elem_of_singleton in Ha. by simplify_eq.
  - destruct bd; [|set_solver].
    destruct (decide (u = b)) as [->|]; [|set_solver].
    apply list_elem_of_singleton in Ha. by simplify_eq.
Qed.

Lemma built_closed g : built g -> closed g.
Proof.
  induction 1; auto using closed_init, closed_add_node, closed_add_edge.
Qed.

Lemma for_each_nodes_built ns : forall g g',
  built g -> for_each from_dict_node ns g = Ok g' -> built g'.
Proof.
  induction ns as [|n ns IH]; intros g g' Hb; simpl.
  - intros [= <-]. done.
  - destruct n as [[i|] x y|s]; simpl; try done; apply IH; by constructor.
Qed.

Lemma for_each_edges_built es : forall g g',
  built g -> for_each from_dict_edge es g = Ok g' -> built g'.
Proof.
  induction es as [|e es IH]; intros g g' Hb; simpl.
  - intros [= <-]. done.
  - unfold from_dict_edge. destruct (e_from e), (e_to e); simpl; try done.
    apply IH; by constructor.
Qed.

Lemma from_dict_built data g : from_dict data = Ok g -> built g.
Proof.
  unfold from_dict.
  destruct (for_each from_dict_node _ Graph_init) as [g0| | | |] eqn:E; simpl; try done.
  apply for_each_edges_built. eapply for_each_nodes_built; [|exact E]. constructor.
Qed.

Lemma ensure_node_position g n e :
  adjacency_list g !! e = None ->
  is_Some (adjacency_list (ensure_node g n) !! e) ->
  node_positions (ensure_node g n) !! e = Some (Int 0, Int 0).
Proof.
  unfold ensure_node, add_node. destruct (adjacency_list g !! n) eqn:E; simpl.
  - intros -> [? ?]; done.
  - intros He. destruct (decide (n = e)) as [->|Hne].
    + intros _. by rewrite lookup_insert_eq.
    + rewrite lookup_insert_ne, He by done. by intros [? ?].
Qed.

Lemma ensure_node_position_keeps g n e p :
  is_Some (adjacency_list g !! e) ->
  node_positions g !! e = Some p ->
  node_positions (ensure_node g n) !! e = Some p.
Proof.
  unfold ensure_node, add_node. destruct (adjacency_list g !! n) eqn:E; simpl; [done|].
  intros [l Hl] Hp. destruct (decide (n = e)) as [->|Hne]; [congruence|].
  by rewrite lookup_insert_ne.
Qed.

Lemma node_positions_add_edge g a b w bd :
  node_positions (add_edge g a b w bd) = node_positions (ensure_node (ensure_node g a) b).
Proof. unfold add_edge. by destruct bd. Qed.

Lemma add_edge_auto_creates g a b w bd e :
  e = a ∨ e = b -> adjacency_list g !! e = None ->
  node_positions (add_edge g a b w bd) !! e = Some (Int 0, Int 0).
Proof.
  intros He Hn. rewrite node_positions_add_edge.
  destruct (decide (e = a)) as [->|Hne].
  - apply ensure_node_position_keeps; [apply ensure_node_present|].
    apply ensure_node_position; [done|apply ensure_node_present].
  - destruct He as [->| ->]; [done|].
    apply ensure_node_position; [|apply ensure_node_present].
    unfold ensure_node, add_node. destruct (adjacency_list g !! a); simpl; [done|].
    by rewrite lookup_insert_ne.
Qed.

(** C9: in every graph built from the empty one by [add_node] and
    [add_edge] (and [from_dict] only produces such graphs), both endpoints
    of every stored arc are keys of the adjacency mapping; an endpoint of
    a new edge that is no key yet becomes one, at position (0, 0). *)
Theorem arc_endpoints_are_nodes (g : Graph) (Hb : built g) :
  closed g ∧
  (forall data g', from_dict data = Ok g' -> built g') ∧
  (forall a b w bd e, (e = a ∨ e = b) -> adjacency_list g !! e = None ->
     is_Some (adjacency_list (add_edge g a b w bd) !! e) ∧
     node_positions (add_edge g a b w bd) !! e = Some (Int 0, Int 0)).
Proof.
  split; [by apply built_closed|]. split; [apply from_dict_built|].
  intros a b w bd e He Hn. split; [|by apply add_edge_auto_creates].
  destruct (add_edge_endpoints g a b w bd). by destruct He as [->| ->].
Qed.

Lemma for_each_nodes_resolve ns : forall g,
  for_each from_dict_node ns g =
  match mapM resolve_node ns with
  | Some rs => Ok (foldl (fun g n => add_node g (s_id n) (s_x n) (s_y n)) g rs)
  | None => KeyError
  end.
Proof.
  induction ns as [|n ns IH]; intros g; [done|].
  cbn [for_each mapM]. destruct n as [[i|] x y|s]; simpl; try done.
  - rewrite IH. by destruct (mapM resolve_node ns).
  - rewrite IH. by destruct (mapM resolve_node ns).
Qed.

Lemma for_each_edges_resolve es : forall g,
  for_each from_dict_edge es g =
  match mapM resolve_edge es with
  | Some rs => Ok (foldl (fun g e => add_edge g (s_from e) (s_to e) (s_weight e)
                                       (s_bidirectional e)) g rs)
  | None => KeyError
  end.
Proof.
  induction es as [|e es IH]; intros g; [done|].
  cbn [for_each mapM]. destruct e as [[f|] [t|] w bd]; try done.
  cbn. rewrite IH. by destruct (mapM resolve_edge es).
Qed.

Lemma resolve_node_None n : resolve_node n = None <-> lacks_id n.
Proof.
  unfold lacks_id. destruct n as [[i|] x y|s]; simpl; split; try done.
  - intros (? & ? & ?). done.
  - eauto.
  - intros (? & ? & ?). done.
Qed.

Lemma resolve_edge_None e : resolve_edge e = None <-> lacks_endpoint e.
Proof.
  unfold lacks_endpoint, resolve_edge.
  destruct (e_from e), (e_to e); split; try done; try tauto; intros [|]; done.
Qed.

Lemma from_dict_resolve data :
  from_dict data =
  match mapM resolve_node (default [] (data_nodes data)),
        mapM resolve_edge (default [] (data_edges data)) with
  | Some ns, Some es => Ok (build_graph ns es)
  | _, _ => KeyError
  end.
Proof.
  unfold from_dict. rewrite for_each_nodes_resolve.
  destruct (mapM resolve_node _) as [ns|]; simpl; [|done].
  by rewrite for_each_edges_resolve.
Qed.

(** C4: [Graph.from_dict] raises (the [KeyError] that the specification
    calls MalformedInput) exactly when some node object lacks ['id'] or
    some edge object lacks ['from'] or ['to']; otherwise it returns the
    graph described by the items with their optional fields resolved:
    [x] and [y] to 0, [weight] to the float 1.0, [bidirectional] to true. *)
Theorem from_dict_required_keys_and_defaults (data : graph_data) :
  let nodes := default [] (data_nodes data) in
  let edges := default [] (data_edges data) in
  from_dict data =
    match mapM resolve_node nodes, mapM resolve_edge edges with
    | Some ns, Some es => Ok (build_graph ns es)
    | _, _ => KeyError
    end ∧
  (from_dict data = KeyError <->
     (exists n, n ∈ nodes ∧ lacks_id n) ∨ (exists e, e ∈ edges ∧ lacks_endpoint e)).
Proof.
  cbv zeta. split; [apply from_dict_resolve|]. rewrite from_dict_resolve.
  destruct (mapM resolve_node _) as [ns|] eqn:En;
    [destruct (mapM resolve_edge _) as [es|] eqn:Ee|].
  - split; [done|]. intros [(n & Hn & Hl)|(e & He & Hl)].
    + assert (mapM resolve_node (default [] (data_nodes data)) = None); [|congruence].
      apply mapM_None, Exists_exists. exists n. by rewrite resolve_node_None.
    + assert (mapM resolve_edge (default [] (data_edges data)) = None); [|congruence].
      apply mapM_None, Exists_exists. exists e. by rewrite resolve_edge_None.
  - split; [intros _|done]. right.
    apply mapM_None, Exists_exists in Ee as (e & He & Hr).
    exists e. by rewrite <- resolve_edge_None.
  - split; [intros _|done]. left.
    apply mapM_None, Exists_exists in En as (n & Hn & Hr).
    exists n. by rewrite <- resolve_node_None.
Qed.

Lemma arc_init u v w : ~ arc Graph_init u v w.
Proof.
  unfold arc, get_neighbors. simpl. rewrite lookup_empty. simpl. set_solver.
Qed.


(** A loop whose body keeps an invariant and decreases a measure ends
    within the fuel the measure allows: with a value, or with the
    [OverflowError] its body raised. *)
Lemma while_loop_rule {S R} (body : S -> outcome (ctl S R))
    (I : S -> Prop) (mu : S -> nat) (Q : R -> Prop) (E : Prop) :
  (forall s, I s ->
     (exists s', body s = Ok (Next s') ∧ I s' ∧ (mu s' < mu s)%nat) ∨
     (exists r, body s = Ok (Stop r) ∧ Q r) ∨
     (body s = OverflowError ∧ E)) ->
  forall fuel s, I s -> (mu s < fuel)%nat ->
    (exists r, while_loop body fuel s = Ok r ∧ Q r) ∨
    (while_loop body fuel s = OverflowError ∧ E).
Proof.
  intros Hbody. induction fuel as [|fuel IH]; intros s Hs Hmu; [lia|].
  simpl. destruct (Hbody s Hs) as [(s' & -> & Hs' & Hlt)|[(r & -> & Hr)|[-> He]]]; simpl.
  - apply IH; [done|lia].
  - eauto.
  - by right.
Qed.

Lemma while_loop_preserves {S R} (body : S -> outcome (ctl S R))
    (I : S -> Prop) (Q : R -> Prop) :
  (forall s s', I s -> body s = Ok (Next s') -> I s') ->
  (forall s r, I s -> body s = Ok (Stop r) -> Q r) ->
  forall fuel s r, I s -> while_loop body fuel s = Ok r -> Q r.
Proof.
  intros Hnext Hstop. induction fuel as [|fuel IH]; intros s r Hs; [done|].
  cbn [while_loop]. destruct (body s) as [[s'|r']| | | |] eqn:E; cbn [bind]; try done.
  - apply IH. eauto.
  - intros [= <-]. eauto.
Qed.

Lemma get_neighbors_lookup g n l :
  adjacency_list g !! n = Some l -> get_neighbors g n = l.
Proof. unfold get_neighbors. by intros ->. Qed.

Lemma budget_empty g : budget g ∅ = arc_count g.
Proof.
  unfold budget, arc_count. f_equal.
Qed.

Lemma budget_list_absent (V : gset string) (n : string)
    (l : list (string * list (string * num))) :
  n ∉ l.*1 ->
  sum_list ((fun p => if decide (p.1 ∈ {[n]} ∪ V) then O else length p.2) <$> l)
  = sum_list ((fun p => if decide (p.1 ∈ V) then O else length p.2) <$> l).
Proof.
  induction l as [|[m lm] l IH]; [done|]. intros Hn. rewrite !fmap_cons in *.
  apply not_elem_of_cons in Hn as [Hne Hn]. cbn [sum_list_with]. rewrite (IH Hn).
  change (Datatypes.id ?a) with a.
  cbn [fst snd]. f_equal.
  destruct (decide (m ∈ V)).
  - by rewrite decide_True by set_solver.
  - by rewrite decide_False by set_solver.
Qed.

Lemma budget_list_visit (V : gset string) (n : string) (L : list (string * num))
    (l : list (string * list (string * num))) :
  NoDup l.*1 -> n ∉ V -> (n, L) ∈ l ->
  (sum_list ((fun p => if decide (p.1 ∈ {[n]} ∪ V) then O else length p.2) <$> l)
   + length L
   = sum_list ((fun p => if decide (p.1 ∈ V) then O else length p.2) <$> l))%nat.
Proof.
  intros Hnd Hn. induction l as [|[m lm] l IH]; [set_solver|].
  rewrite !fmap_cons in *. cbn [sum_list_with fst snd] in *.
  change (Datatypes.id ?a) with a.
  apply NoDup_cons in Hnd as [Hm Hnd]. intros Hin.
  apply elem_of_cons in Hin as [[= <- <-]|Hin].
  - rewrite (budget_list_absent V n l Hm).
    rewrite decide_True by set_solver. rewrite decide_False by done. lia.
  - rewrite <- (IH Hnd Hin).
    assert (m ≠ n).
    { intros ->. apply Hm. apply list_elem_of_fmap. by exists (n, L). }
    destruct (decide (m ∈ V)).
    + rewrite decide_True by set_solver. lia.
    + rewrite decide_False by set_solver. lia.
Qed.

Lemma budget_visit g V n L :
  adjacency_list g !! n = Some L -> n ∉ V ->
  (budget g ({[n]} ∪ V) + length L = budget g V)%nat.
Proof.
  intros HL Hn. unfold budget. apply budget_list_visit; [|done|].
  - apply NoDup_fst_map_to_list.
  - by apply elem_of_map_to_list.
Qed.

Lemma path_from_reachable g s v p d : path_from g s v p d -> reachable g s v.
Proof. induction 1; [constructor|by econstructor]. Qed.

Lemma whole_Int z : whole (Int z) = Some z.
Proof. done. Qed.

Lemma reachable_path g s v :
  int_weights g -> reachable g s v -> exists p d, path_from g s v p d.
Proof.
  intros Hint. induction 1 as [|u v w Hr (p & d & Hp) Ha].
  - exists [s], 0. constructor.
  - destruct (Hint _ _ _ Ha) as [z ->]. exists (p ++ [v]), (d + z).
    by econstructor.
Qed.

Lemma path_from_ends g s v p d :
  path_from g s v p d -> head p = Some s ∧ last p = Some v.
Proof.
  induction 1 as [|u v w z p d Hp [Hh Hl] Ha Hw]; [done|]. split.
  - destruct p; [done|]. done.
  - by rewrite last_snoc.
Qed.

Lemma num_add_Int a b : num_add (Int a) (Int b) = Ok (Int (a + b)).
Proof. done. Qed.

Lemma float_of_int_cases z :
  (exists f, float_of_int z = Ok f) ∨ float_of_int z = OverflowError.
Proof. unfold float_of_int. cbv zeta. destruct (is_infinity _); eauto. Qed.

Lemma num_add_cases a b :
  (exists c, num_add a b = Ok c) ∨
  (num_add a b = OverflowError ∧ ~ exists x y, a = Int x ∧ b = Int y).
Proof.
  destruct a as [x|x], b as [y|y]; cbn [num_add]; eauto.
  - destruct (float_of_int_cases x) as [[f ->]| ->]; cbn [bind]; eauto.
    right. split; [done|]. by intros (? & ? & ? & ?).
  - destruct (float_of_int_cases y) as [[f ->]| ->]; cbn [bind]; eauto.
    right. split; [done|]. by intros (? & ? & ? & ?).
Qed.

(** What [relax] computes once the sum and the neighbour's distance are
    known. *)
Lemma relax_eq cur k st v w distance dv :
  num_add k w = Ok distance -> distances st !! v = Some dv ->
  relax cur k st (v, w) =
  Ok (if num_ltb distance dv then
        MkD (<[v := distance]> (distances st)) (<[v := Some cur]> (previous st))
            (heappush entry_ltb (priority_queue st) (distance, v))
            (visited st) (d_explored st)
      else st).
Proof.
  intros Hadd Hv. unfold relax, subscript. rewrite Hadd, Hv. cbn [bind].
  by destruct (num_ltb distance dv).
Qed.

Lemma relax_overflow cur k st v w :
  num_add k w = OverflowError -> relax cur k st (v, w) = OverflowError.
Proof. intros Hadd. unfold relax. by rewrite Hadd. Qed.

Lemma length_heappush {E} (lt : E -> E -> bool) h x :
  length (heappush lt h x) = S (length h).
Proof. by rewrite heappush_perm. Qed.

Lemma elem_of_heappush {E} (lt : E -> E -> bool) h x y :
  y ∈ heappush lt h x <-> y = x ∨ y ∈ h.
Proof. rewrite heappush_perm. apply elem_of_cons. Qed.

Section DijkstraWeak.
Variable g : Graph.
Variable start : string.
Hypothesis Hclosed : closed g.

Lemma dinv_relax cur k st v w :
  dinv g start st -> cur ∈ visited st -> arc g cur v w ->
  (int_weights g -> exists z, k = Int z) ->
  (exists st', relax cur k st (v, w) = Ok st' ∧ dinv g start st' ∧
     visited st' = visited st ∧ d_explored st' = d_explored st ∧
     (length (priority_queue st') <= S (length (priority_queue st)))%nat) ∨
  (relax cur k st (v, w) = OverflowError ∧ ~ int_weights g).
Proof.
  intros Hinv Hcur Harc Hk.
  destruct (Hclosed _ _ _ Harc) as [_ Hv].
  assert (Hr : reachable g start v).
  { eapply reach_step; [|exact Harc]. by apply (dinv_vis _ _ _ Hinv). }
  destruct (proj2 (dinv_dom _ _ _ Hinv v) Hv) as [dv Hdv].
  destruct (num_add_cases k w) as [[distance Hadd]|[Hadd Hno]].
  2:{ right. split; [by apply relax_overflow|]. intros Hint. apply Hno.
      destruct (Hk Hint) as [x ->]. destruct (Hint _ _ _ Harc) as [y ->]. eauto. }
  left. rewrite (relax_eq _ _ _ _ _ _ _ Hadd Hdv).
  destruct (num_ltb distance dv) eqn:Hlt;
    [|exists st; split; [done|]; split; [done|]; repeat split; lia].
  eexists; split; [done|]. split; [|simpl; rewrite length_heappush; repeat split; lia].
  destruct (dinv_heap _ _ _ Hinv) as [Hheap Hok].
  assert (Hoe : ordered_entry (distance, v)).
  { by apply num_ltb_ordered in Hlt as [? _]. }
  destruct (frontier_push_heap _ (distance, v) Hok Hheap Hoe) as [Hok' Hheap'].
  constructor; simpl.
  - intros n. rewrite lookup_insert. case_decide as E; [subst|apply Hinv].
    split; eauto.
  - intros n. rewrite lookup_insert. case_decide as E; [subst|apply Hinv].
    split; eauto.
  - intros k' n [[= -> ->]|H]%elem_of_heappush; [done|]. eapply Hinv; eauto.
  - apply Hinv.
  - intros n d. rewrite lookup_insert. case_decide as E; [subst; by right|].
    apply Hinv.
  - done.
  - intros Hint. destruct (dinv_int _ _ _ Hinv Hint) as [Hd Hq].
    destruct (Hk Hint) as [x ->]. destruct (Hint _ _ _ Harc) as [y ->].
    rewrite num_add_Int in Hadd. injection Hadd as <-. split.
    + intros n d. rewrite lookup_insert. case_decide as E; [|apply Hd].
      intros [= <-]. right. eauto.
    + intros k' n [[= -> ->]|H]%elem_of_heappush; [eauto|]. by eapply Hq.
Qed.
End DijkstraWeak.


Lemma sf_signed_number s x : sf_signed s x -> sf_number x.
Proof. by destruct x. Qed.

Lemma sf_signed_nonneg x : sf_signed false x -> sf_nonneg x.
Proof. by destruct x. Qed.



Lemma shr_1_nonneg mrs : 0 <= shr_m mrs -> 0 <= shr_m (shr_1 mrs).
Proof. destruct mrs as [[|[p|p|]|p] r s]; simpl; lia. Qed.

Lemma iter_shr_1_nonneg p : forall mrs,
  0 <= shr_m mrs -> 0 <= shr_m (SpecFloat.iter_pos shr_1 p mrs).
Proof. induction p; intros mrs H; simpl; auto using shr_1_nonneg. Qed.

Lemma shr_fexp_nonneg pr em m e l :
  0 <= m -> 0 <= shr_m (fst (shr_fexp pr em m e l)).
Proof.
  intros Hm. unfold shr_fexp, shr.
  assert (0 <= shr_m (shr_record_of_loc m l)) by (by destruct l as [|[]]).
  destruct (fexp pr em (Zdigits2 m + e) - e); simpl; auto using iter_shr_1_nonneg.
Qed.

Lemma round_nearest_even_nonneg m l : 0 <= m -> 0 <= round_nearest_even m l.
Proof.
  intros Hm. destruct l as [|[]]; simpl; try lia. destruct (Z.even m); lia.
Qed.

Lemma binary_round_aux_signed pr em sx mx ex lx :
  0 <= mx -> sf_signed sx (binary_round_aux pr em sx mx ex lx).
Proof.
  intros Hm. unfold binary_round_aux.
  pose proof (shr_fexp_nonneg pr em mx ex lx Hm) as H1.
  destruct (shr_fexp pr em mx ex lx) as [mrs' e']. simpl in H1.
  pose proof (shr_fexp_nonneg pr em _ e' loc_Exact
                (round_nearest_even_nonneg _ (loc_of_shr_record mrs') H1)) as H2.
  destruct (shr_fexp pr em _ e' loc_Exact) as [mrs'' e'']. simpl in H2.
  destruct (shr_m mrs''); [done| |lia]. by destruct (e'' <=? em - pr).
Qed.

Lemma binary_round_signed pr em sx mx ex :
  sf_signed sx (binary_round pr em sx mx ex).
Proof.
  unfold binary_round. destruct (shl_align _ _ _) as [mz ez].
  by apply binary_round_aux_signed.
Qed.

Lemma binary_normalize_number pr em z e : sf_number (binary_normalize pr em z e false).
Proof.
  destruct z; simpl; [done|..]; eapply sf_signed_number, binary_round_signed.
Qed.

Lemma binary_normalize_finite pr em z e :
  match binary_normalize pr em z e false with
  | S754_infinity _ => True
  | x => sf_finite x
  end.
Proof.
  pose proof (binary_normalize_number pr em z e) as H.
  by destruct (binary_normalize pr em z e false).
Qed.

Lemma binary_normalize_nonneg pr em z e :
  0 <= z -> sf_nonneg (binary_normalize pr em z e false).
Proof.
  destruct z; simpl; [done| |lia]. intros _. apply sf_signed_nonneg, binary_round_signed.
Qed.

Lemma SFldexp_signed s x e : sf_signed s x -> sf_signed s (SFldexp prec emax x e).
Proof. destruct x; simpl; try done. intros ->. apply binary_round_signed. Qed.

Lemma SFldexp_nonneg x e : sf_nonneg x -> sf_nonneg (SFldexp prec emax x e).
Proof.
  destruct x; simpl; try done. intros ->. apply sf_signed_nonneg, binary_round_signed.
Qed.

Lemma of_uint63_nonneg n : sf_nonneg (Prim2SF (of_uint63 n)).
Proof.
  rewrite of_uint63_spec. apply binary_normalize_nonneg.
  apply Uint63.to_Z_bounded.
Qed.



Lemma SF2Prim_nonneg x : sf_nonneg x -> sf_nonneg (Prim2SF (SF2Prim x)).
Proof.
  destruct x as [[]|[]| |s m e]; try done. intros ->. unfold SF2Prim.
  rewrite Z_ldexp_spec. apply SFldexp_nonneg, of_uint63_nonneg.
Qed.


Lemma SFcompare_refl x : sf_number x -> SFcompare x x = Some Eq.
Proof.
  destruct x as [s|[]| |[] m e]; try done; intros _; simpl;
    rewrite Z.compare_refl, Pcompare_refl; done.
Qed.

Lemma is_nan_false f : is_nan f = false <-> sf_number (Prim2SF f).
Proof.
  unfold is_nan. rewrite FloatAxioms.eqb_spec. unfold SFeqb, sf_number. split.
  - intros H E. rewrite E in H. done.
  - intros H. by rewrite SFcompare_refl.
Qed.

Lemma leb_zero f : (0 <=? f)%float = true <-> sf_nonneg (Prim2SF f).
Proof.
  rewrite FloatAxioms.leb_spec. change (Prim2SF 0) with (S754_zero false).
  unfold SFleb. destruct (Prim2SF f) as [s|[]| |[] m e]; simpl; split; done.
Qed.


Lemma float_of_int_nonneg z f :
  0 <= z -> float_of_int z = Ok f -> sf_nonneg (Prim2SF f).
Proof.
  unfold float_of_int. cbv zeta. intros Hz.
  destruct (is_infinity _); [done|]. intros [= <-].
  by apply SF2Prim_nonneg, binary_normalize_nonneg.
Qed.


Lemma SFadd_number_l x y :
  sf_finite x -> sf_number y -> sf_number (SFadd prec emax x y).
Proof.
  destruct x as [[]| | |sx mx ex], y as [[]|[]| |sy my ey]; try done.
  intros _ _. apply binary_normalize_number.
Qed.

Lemma SFadd_nonneg x y :
  sf_nonneg x -> sf_nonneg y -> sf_nonneg (SFadd prec emax x y).
Proof.
  destruct x as [[]|[]| |sx mx ex], y as [[]|[]| |sy my ey]; try done.
  intros -> ->. cbn [SFadd cond_Zopp]. apply binary_normalize_nonneg. lia.
Qed.





Lemma dyadic_pos m e : Qcompare (inject_Z 0) (dyadic (Z.pos m) e) = Lt.
Proof.
  unfold dyadic. destruct e as [|p|p].
  - rewrite Qcompare_inject_Z. apply Z.compare_lt_iff. lia.
  - rewrite Qcompare_inject_Z. apply Z.compare_lt_iff.
    pose proof (Z.pow_pos_nonneg 2 (Z.pos p)). lia.
  - unfold Qcompare. simpl. done.
Qed.

Lemma dyadic_neg m e : Qcompare (inject_Z 0) (dyadic (Z.neg m) e) = Gt.
Proof.
  unfold dyadic. destruct e as [|p|p].
  - rewrite Qcompare_inject_Z. apply Z.compare_gt_iff. lia.
  - rewrite Qcompare_inject_Z. apply Z.compare_gt_iff.
    pose proof (Z.pow_pos_nonneg 2 (Z.pos p)). lia.
  - unfold Qcompare. simpl. done.
Qed.

Lemma nonneg_Flt f : nonneg_num (Flt f) <-> sf_nonneg (Prim2SF f).
Proof.
  unfold nonneg_num, num_leb, num_compare. rewrite exact_Int. unfold exact.
  destruct (Prim2SF f) as [s|[]| |[] m e]; cbn [xq_compare sf_nonneg]; split; try done.
  - by rewrite dyadic_neg.
  - by rewrite dyadic_pos.
Qed.

Lemma nonneg_num_Int z : nonneg_num (Int z) <-> 0 <= z.
Proof.
  unfold nonneg_num, num_leb. rewrite num_compare_Int.
  destruct (Z.compare_spec 0 z); split; try done; lia.
Qed.

Lemma nonneg_num_ordered a : nonneg_num a -> ordered a.
Proof.
  unfold nonneg_num, num_leb, num_compare, ordered. rewrite exact_Int.
  by destruct (exact a).
Qed.


(** A sum of two numbers that are not negative is not negative. *)
Lemma num_add_nonneg a b c :
  nonneg_num a -> nonneg_num b -> num_add a b = Ok c -> nonneg_num c.
Proof.
  destruct a as [x|x], b as [y|y]; cbn [num_add].
  - intros Hx%nonneg_num_Int Hy%nonneg_num_Int [= <-]. apply nonneg_num_Int. lia.
  - intros Hx%nonneg_num_Int Hy%nonneg_Flt.
    destruct (float_of_int x) as [fx| | | |] eqn:E; cbn [bind]; try done.
    intros [= <-]. apply nonneg_Flt. rewrite FloatAxioms.add_spec.
    apply SFadd_nonneg; [|done]. by eapply float_of_int_nonneg.
  - intros Hx%nonneg_Flt Hy%nonneg_num_Int.
    destruct (float_of_int y) as [fy| | | |] eqn:E; cbn [bind]; try done.
    intros [= <-]. apply nonneg_Flt. rewrite FloatAxioms.add_spec.
    apply SFadd_nonneg; [done|]. by eapply float_of_int_nonneg.
  - intros Hx%nonneg_Flt Hy%nonneg_Flt [= <-]. apply nonneg_Flt.
    rewrite FloatAxioms.add_spec. by apply SFadd_nonneg.
Qed.

Lemma nonneg_num_not_below a : nonneg_num a -> num_ltb a (Int 0) = false.
Proof.
  unfold nonneg_num, num_leb, num_ltb, num_compare. rewrite exact_Int.
  destruct (exact a) as [x|]; [|done].
  rewrite (xq_compare_antisym (Finite (inject_Z 0)) x).
  by destruct (xq_compare _ x).
Qed.

Lemma is_nan_view f :
  is_nan f = match Prim2SF f with S754_nan => true | _ => false end.
Proof.
  unfold is_nan. rewrite FloatAxioms.eqb_spec. unfold SFeqb.
  destruct (Prim2SF f) as [s|[]| |[] m e] eqn:E; try done;
    rewrite SFcompare_refl; done.
Qed.

Lemma is_infinity_view f :
  is_infinity f = match Prim2SF f with S754_infinity _ => true | _ => false end.
Proof.
  unfold is_infinity. rewrite FloatAxioms.eqb_spec, FloatAxioms.abs_spec.
  change (Prim2SF infinity) with (S754_infinity false).
  by destruct (Prim2SF f) as [s|[]| |[] m e].
Qed.

Lemma is_zero_view f :
  (f =? 0)%float = match Prim2SF f with S754_zero _ => true | _ => false end.
Proof.
  rewrite FloatAxioms.eqb_spec. change (Prim2SF 0) with (S754_zero false).
  by destruct (Prim2SF f) as [s|[]| |[] m e].
Qed.

Lemma ltb_zero_view f :
  (f <? 0)%float =
  match Prim2SF f with
  | S754_infinity true | S754_finite true _ _ => true
  | _ => false
  end.
Proof.
  rewrite FloatAxioms.ltb_spec. change (Prim2SF 0) with (S754_zero false).
  by destruct (Prim2SF f) as [s|[]| |[] m e].
Qed.

Lemma zero_ltb_view f :
  (0 <? f)%float =
  match Prim2SF f with
  | S754_infinity false | S754_finite false _ _ => true
  | _ => false
  end.
Proof.
  rewrite FloatAxioms.ltb_spec. change (Prim2SF 0) with (S754_zero false).
  by destruct (Prim2SF f) as [s|[]| |[] m e].
Qed.

Lemma sf_nonneg_not_neg x : sf_nonneg x -> sf_not_neg x.
Proof. by destruct x. Qed.

Lemma sf_null_not_neg x : sf_null x -> sf_not_neg x.
Proof. by destruct x. Qed.

Lemma not_neg_Flt f : not_neg (Flt f) <-> sf_not_neg (Prim2SF f).
Proof.
  unfold not_neg, num_ltb, num_compare. rewrite exact_Int. unfold exact.
  destruct (Prim2SF f) as [s|[]| |[] m e]; cbn [xq_compare sf_not_neg]; split;
    try done.
  - rewrite <- Qcompare_antisym, dyadic_neg. done.
  - rewrite <- Qcompare_antisym, dyadic_pos. done.
Qed.

Lemma not_neg_Int z : not_neg (Int z) <-> 0 <= z.
Proof.
  unfold not_neg, num_ltb. rewrite num_compare_Int.
  destruct (Z.compare_spec z 0); split; try done; lia.
Qed.

Lemma null_not_neg a : null a -> not_neg a.
Proof.
  destruct a as [z|f]; cbn [null].
  - intros ->. by apply not_neg_Int.
  - intros H. by apply not_neg_Flt, sf_null_not_neg.
Qed.

Lemma float_of_int_0 : float_of_int 0 = Ok 0%float.
Proof. reflexivity. Qed.

Lemma SFadd_not_neg x y :
  sf_not_neg x -> sf_not_neg y -> sf_not_neg (SFadd prec emax x y).
Proof.
  destruct x as [[]|[]| |sx mx ex], y as [[]|[]| |sy my ey]; try done.
  intros -> ->. cbn [SFadd cond_Zopp]. apply sf_nonneg_not_neg, binary_normalize_nonneg.
  lia.
Qed.

Lemma SFadd_null x y : sf_null x -> sf_null y -> sf_null (SFadd prec emax x y).
Proof. destruct x as [[]|[]| |sx mx ex], y as [[]|[]| |sy my ey]; done. Qed.

Lemma SFsub_diag x : sf_null (SFsub prec emax x x).
Proof.
  destruct x as [[]|[]| |[] m e]; try done; cbn [SFsub cond_Zopp];
    rewrite Z.sub_diag; done.
Qed.

Lemma SFabs_null x : sf_null x -> sf_null (SFabs x).
Proof. by destruct x. Qed.

(** Sums, differences of equal numbers and absolute values of numbers
    that are zero or NaN. *)
Lemma num_sub_diag x : exists d, num_sub x x = Ok d ∧ null d.
Proof.
  destruct x as [z|f]; cbn [num_sub].
  - exists (Int (z - z)). split; [done|]. cbn. lia.
  - eexists. split; [done|]. cbn. rewrite FloatAxioms.sub_spec. apply SFsub_diag.
Qed.

Lemma num_add_null a b : null a -> null b -> exists c, num_add a b = Ok c ∧ null c.
Proof.
  destruct a as [x|x], b as [y|y]; cbn [null num_add].
  - intros -> ->. by eexists.
  - intros -> Hy. rewrite float_of_int_0. cbn [bind]. eexists. split; [done|].
    cbn. rewrite FloatAxioms.add_spec. by apply SFadd_null.
  - intros Hx ->. rewrite float_of_int_0. cbn [bind]. eexists. split; [done|].
    cbn. rewrite FloatAxioms.add_spec. by apply SFadd_null.
  - intros Hx Hy. eexists. split; [done|]. cbn. rewrite FloatAxioms.add_spec.
    by apply SFadd_null.
Qed.

Lemma num_abs_null a : null a -> null (num_abs a).
Proof.
  destruct a as [z|f]; cbn [null num_abs].
  - by intros ->.
  - rewrite FloatAxioms.abs_spec. apply SFabs_null.
Qed.

Lemma float_square_null libm_pow f :
  sf_null (Prim2SF f) ->
  exists r, float_square libm_pow f = Ok r ∧ sf_null (Prim2SF r).
Proof.
  intros H. unfold float_square.
  rewrite is_nan_view, is_infinity_view, is_zero_view.
  destruct (Prim2SF f) eqn:E; try done.
  - exists 0%float. done.
  - exists f. by rewrite E.
Qed.

Lemma float_pow_half_null libm_pow f :
  sf_null (Prim2SF f) ->
  exists r, float_pow_half libm_pow f = Ok r ∧ sf_null (Prim2SF r).
Proof.
  intros H. unfold float_pow_half.
  rewrite is_nan_view, is_infinity_view, is_zero_view.
  destruct (Prim2SF f) eqn:E; try done.
  - exists 0%float. done.
  - exists f. by rewrite E.
Qed.

Lemma num_square_null libm_pow a :
  null a -> exists c, num_square libm_pow a = Ok c ∧ null c.
Proof.
  destruct a as [z|f]; cbn [null num_square].
  - intros ->. by eexists.
  - intros H. destruct (float_square_null libm_pow f H) as (r & -> & Hr).
    cbn [bind]. by eexists.
Qed.

Lemma num_pow_half_null libm_pow a :
  null a -> exists r, num_pow_half libm_pow a = Ok r ∧ sf_null (Prim2SF r).
Proof.
  destruct a as [z|f]; cbn [null num_pow_half].
  - intros ->. rewrite float_of_int_0. cbn [bind]. by apply float_pow_half_null.
  - apply float_pow_half_null.
Qed.

Lemma num_sub_cases a b :
  (exists c, num_sub a b = Ok c) ∨ num_sub a b = OverflowError.
Proof.
  destruct a as [x|x], b as [y|y]; cbn [num_sub]; eauto.
  - destruct (float_of_int_cases x) as [[f ->]| ->]; cbn [bind]; eauto.
  - destruct (float_of_int_cases y) as [[f ->]| ->]; cbn [bind]; eauto.
Qed.

Lemma num_add_not_neg a b c :
  not_neg a -> not_neg b -> num_add a b = Ok c -> not_neg c.
Proof.
  destruct a as [x|x], b as [y|y]; cbn [num_add].
  - intros Hx%not_neg_Int Hy%not_neg_Int [= <-]. apply not_neg_Int. lia.
  - intros Hx%not_neg_Int Hy%not_neg_Flt.
    destruct (float_of_int x) as [fx| | | |] eqn:E; cbn [bind]; try done.
    intros [= <-]. apply not_neg_Flt. rewrite FloatAxioms.add_spec.
    apply SFadd_not_neg; [|done]. by eapply sf_nonneg_not_neg, float_of_int_nonneg.
  - intros Hx%not_neg_Flt Hy%not_neg_Int.
    destruct (float_of_int y) as [fy| | | |] eqn:E; cbn [bind]; try done.
    intros [= <-]. apply not_neg_Flt. rewrite FloatAxioms.add_spec.
    apply SFadd_not_neg; [done|]. by eapply sf_nonneg_not_neg, float_of_int_nonneg.
  - intros Hx%not_neg_Flt Hy%not_neg_Flt [= <-]. apply not_neg_Flt.
    rewrite FloatAxioms.add_spec. by apply SFadd_not_neg.
Qed.

(** What the C library's [pow] returns for the absolute value of a
    finite float that is no zero. *)
Lemma pow_sane_abs libm_pow f s m e y :
  pow_sane libm_pow -> Prim2SF f = S754_finite s m e ->
  sf_nonneg (Prim2SF (libm_pow (abs f) y)).
Proof.
  intros Hpow E. apply leb_zero, Hpow.
  rewrite zero_ltb_view, FloatAxioms.abs_spec, E. done.
Qed.


Lemma float_square_cases libm_pow f :
  pow_sane libm_pow ->
  (exists r, float_square libm_pow f = Ok r ∧ sf_not_neg (Prim2SF r)) ∨
  float_square libm_pow f = OverflowError.
Proof.
  intros Hpow. unfold float_square.
  rewrite is_nan_view, is_infinity_view, is_zero_view.
  destruct (Prim2SF f) as [s|s| |s m e] eqn:E.
  - left. by exists 0%float.
  - left. by exists infinity.
  - left. exists f. by rewrite E.
  - cbv zeta. destruct (abs f =? 1)%float; [left; by exists 1%float|].
    destruct (is_infinity _); [by right|]. left. eexists. split; [done|].
    eapply sf_nonneg_not_neg, pow_sane_abs; eauto.
Qed.

Lemma float_pow_half_cases libm_pow f :
  sf_not_neg (Prim2SF f) ->
  (exists r, float_pow_half libm_pow f = Ok r) ∨
  float_pow_half libm_pow f = OverflowError.
Proof.
  intros H. unfold float_pow_half.
  rewrite is_nan_view, is_infinity_view, is_zero_view, ltb_zero_view.
  destruct (Prim2SF f) as [s|s| |s m e] eqn:E; eauto.
  cbn in H. subst s. destruct (f =? 1)%float; [eauto|].
  cbv zeta. destruct (is_infinity _); eauto.
Qed.

Lemma num_square_cases libm_pow a :
  pow_sane libm_pow ->
  (exists c, num_square libm_pow a = Ok c ∧ not_neg c) ∨
  num_square libm_pow a = OverflowError.
Proof.
  intros Hpow. destruct a as [z|f]; cbn [num_square].
  - left. eexists. split; [done|]. apply not_neg_Int. nia.
  - destruct (float_square_cases libm_pow f Hpow) as [(r & -> & Hr)| ->];
      cbn [bind]; [left|by right].
    eexists. split; [done|]. by apply not_neg_Flt.
Qed.

Lemma num_pow_half_cases libm_pow a :
  not_neg a ->
  (exists r, num_pow_half libm_pow a = Ok r) ∨
  num_pow_half libm_pow a = OverflowError.
Proof.
  destruct a as [z|f]; cbn [num_pow_half].
  - intros Hz%not_neg_Int.
    destruct (float_of_int z) as [v| | | |] eqn:E; cbn [bind];
      try (by pose proof (float_of_int_cases z) as [[? ?]|?]; congruence);
      [|by right].
    apply float_pow_half_cases. eapply sf_nonneg_not_neg, float_of_int_nonneg; eauto.
  - intros Hf%not_neg_Flt. by apply float_pow_half_cases.
Qed.


Lemma SFabs_round_aux pr em s s' m e l :
  SFabs (binary_round_aux pr em s m e l) = SFabs (binary_round_aux pr em s' m e l).
Proof.
  unfold binary_round_aux. destruct (shr_fexp pr em m e l) as [mrs' e'].
  destruct (shr_fexp pr em _ e' loc_Exact) as [mrs'' e''].
  destruct (shr_m mrs''); [done| |done]. by destruct (e'' <=? em - pr).
Qed.

Lemma SFabs_normalize_opp pr em z e :
  SFabs (binary_normalize pr em (- z) e false) =
  SFabs (binary_normalize pr em z e false).
Proof.
  destruct z as [|m|m]; [done|..]; change (- Z.pos m) with (Z.neg m);
    change (- Z.neg m) with (Z.pos m); cbn [binary_normalize]; unfold binary_round;
    destruct (shl_align _ _ _) as [mz ez]; apply SFabs_round_aux.
Qed.

(** [|x - y|] is [|y - x|]. *)
Lemma SFabs_sub_comm x y :
  SFabs (SFsub prec emax x y) = SFabs (SFsub prec emax y x).
Proof.
  destruct x as [[]|[]| |sx mx ex], y as [[]|[]| |sy my ey]; try done.
  cbn [SFsub]. rewrite (Z.min_comm ey ex).
  rewrite <- SFabs_normalize_opp. f_equal. f_equal. lia.
Qed.

Lemma float_abs_sub_comm (x y : float) : abs (x - y) = abs (y - x).
Proof.
  apply Prim2SF_inj.
  rewrite !FloatAxioms.abs_spec, !FloatAxioms.sub_spec. apply SFabs_sub_comm.
Qed.

Lemma SFabs_abs x : SFabs (SFabs x) = SFabs x.
Proof. by destruct x. Qed.

Lemma float_abs_abs (x : float) : abs (abs x) = abs x.
Proof. apply Prim2SF_inj. rewrite !FloatAxioms.abs_spec. apply SFabs_abs. Qed.

(** A square depends on the absolute value only. *)
Lemma float_square_abs libm_pow f :
  float_square libm_pow f =
  match Prim2SF f with
  | S754_nan => Ok f
  | _ => float_square libm_pow (abs f)
  end.
Proof.
  unfold float_square.
  rewrite !is_nan_view, !is_infinity_view, !is_zero_view, !FloatAxioms.abs_spec.
  rewrite float_abs_abs. by destruct (Prim2SF f).
Qed.

Lemma is_nan_eq f : Prim2SF f = S754_nan -> f = nan.
Proof. intros H. apply Prim2SF_inj. by rewrite H. Qed.

Lemma SFsub_nan_comm x y :
  SFsub prec emax x y = S754_nan -> SFsub prec emax y x = S754_nan.
Proof.
  intros H. pose proof (SFabs_sub_comm x y) as E. rewrite H in E.
  by destruct (SFsub prec emax y x).
Qed.

Lemma float_sub_nan_comm (x y : float) :
  Prim2SF (x - y) = S754_nan -> Prim2SF (y - x) = S754_nan.
Proof. rewrite !FloatAxioms.sub_spec. apply SFsub_nan_comm. Qed.

Lemma float_square_sub_comm libm_pow (x y : float) :
  float_square libm_pow (x - y) = float_square libm_pow (y - x).
Proof.
  rewrite (float_square_abs _ (x - y)), (float_square_abs _ (y - x)).
  rewrite float_abs_sub_comm.
  destruct (Prim2SF (x - y)) eqn:E1, (Prim2SF (y - x)) eqn:E2; try done;
    try (apply float_sub_nan_comm in E1; congruence);
    try (apply float_sub_nan_comm in E2; congruence).
  by rewrite (is_nan_eq _ E1), (is_nan_eq _ E2).
Qed.

(** [(a - b) ** 2] is [(b - a) ** 2], and [abs(a - b)] is [abs(b - a)],
    also in whether they raise. *)
Lemma num_square_sub_comm libm_pow a b :
  (d <- num_sub a b ;; num_square libm_pow d) =
  (d <- num_sub b a ;; num_square libm_pow d).
Proof.
  destruct a as [x|x], b as [y|y]; cbn [num_sub bind num_square].
  - do 2 f_equal. lia.
  - destruct (float_of_int x); cbn [bind num_square]; try done.
    by rewrite float_square_sub_comm.
  - destruct (float_of_int y); cbn [bind num_square]; try done.
    by rewrite float_square_sub_comm.
  - by rewrite float_square_sub_comm.
Qed.

Lemma num_abs_sub_comm a b :
  (d <- num_sub a b ;; Ok (num_abs d)) = (d <- num_sub b a ;; Ok (num_abs d)).
Proof.
  destruct a as [x|x], b as [y|y]; cbn [num_sub bind num_abs].
  - do 2 f_equal. lia.
  - destruct (float_of_int x); cbn [bind num_abs]; try done.
    by rewrite float_abs_sub_comm.
  - destruct (float_of_int y); cbn [bind num_abs]; try done.
    by rewrite float_abs_sub_comm.
  - by rewrite float_abs_sub_comm.
Qed.

Lemma SFmul_pos x : 
  match x with S754_infinity false | S754_finite false _ _ => True | _ => False end ->
  sf_nonneg (SFmul prec emax x x).
Proof.
  destruct x as [s|[]| |[] m e]; try done. intros _. cbn [SFmul xorb].
  eapply sf_signed_nonneg, binary_round_aux_signed. lia.
Qed.

Lemma SFsqrt_nonneg x : sf_nonneg x -> sf_nonneg (SFsqrt prec emax x).
Proof.
  destruct x as [s|[]| |[] m e]; try done. intros _. unfold SFsqrt.
  destruct (SFsqrt_core_binary prec emax (Z.pos m) e) as [[mz ez] lz] eqn:E.
  eapply sf_signed_nonneg, binary_round_aux_signed.
  unfold SFsqrt_core_binary in E. cbv zeta in E.
  match type of E with
  | (let (q, r) := Z.sqrtrem ?m' in _) = _ =>
      assert (Hm : 0 <= m');
      [|pose proof (Z.sqrtrem_spec m' Hm) as Hs; destruct (Z.sqrtrem m') as [q r0];
        injection E as <- _ _; lia]
  end.
  destruct (e - 2 * _); [lia| |lia]. apply Z.shiftl_nonneg. lia.
Qed.

(** The correctly rounded [pow] is sane. *)
Lemma rounded_pow_sane : pow_sane rounded_pow.
Proof.
  intros x y Hx. apply leb_zero. unfold rounded_pow.
  rewrite zero_ltb_view in Hx. destruct (y =? 2)%float.
  - rewrite FloatAxioms.mul_spec. apply SFmul_pos.
    by destruct (Prim2SF x) as [s|[]| |[] m e].
  - rewrite FloatAxioms.sqrt_spec. apply SFsqrt_nonneg.
    by destruct (Prim2SF x) as [s|[]| |[] m e].
Qed.


Lemma dom_add_node g n x y :
  dom (adjacency_list (add_node g n x y)) = {[n]} ∪ dom (adjacency_list g).
Proof.
  unfold add_node. simpl. destruct (adjacency_list g !! n) eqn:E.
  - apply elem_of_dom_2 in E. set_solver.
  - by rewrite dom_insert_L.
Qed.

Lemma dom_ensure_node g n :
  dom (adjacency_list (ensure_node g n)) = {[n]} ∪ dom (adjacency_list g).
Proof.
  unfold ensure_node. destruct (adjacency_list g !! n) eqn:E.
  - apply elem_of_dom_2 in E. set_solver.
  - apply dom_add_node.
Qed.

Lemma dom_append_arc g n a :
  dom (adjacency_list (append_arc g n a)) = dom (adjacency_list g).
Proof. unfold append_arc. simpl. apply dom_alter_L. Qed.

Lemma dom_add_edge g a b w bd :
  dom (adjacency_list (add_edge g a b w bd)) = {[a; b]} ∪ dom (adjacency_list g).
Proof.
  unfold add_edge. destruct bd; rewrite ?dom_append_arc, !dom_ensure_node; set_solver.
Qed.

Lemma ensure_node_position_old g m n :
  is_Some (adjacency_list g !! n) ->
  node_positions (ensure_node g m) !! n = node_positions g !! n.
Proof.
  intros Hn. unfold ensure_node, add_node.
  destruct (adjacency_list g !! m) eqn:E; [done|]. simpl.
  apply lookup_insert_ne. intros ->. rewrite E in Hn. by destruct Hn.
Qed.

Lemma add_edge_position_old g a b w bd n :
  is_Some (adjacency_list g !! n) ->
  node_positions (add_edge g a b w bd) !! n = node_positions g !! n.
Proof.
  intros Hn. rewrite node_positions_add_edge.
  rewrite ensure_node_position_old by by apply ensure_node_keeps.
  by apply ensure_node_position_old.
Qed.

Lemma positioned_init : positioned Graph_init.
Proof. intros n. simpl. by rewrite !lookup_empty. Qed.

Lemma positioned_add_node g n x y : positioned g -> positioned (add_node g n x y).
Proof.
  intros Hg m.
  assert (Hkey : is_Some (adjacency_list (add_node g n x y) !! m) <->
                 m = n ∨ is_Some (adjacency_list g !! m)).
  { split.
    - intros H%elem_of_dom. rewrite dom_add_node in H.
      apply elem_of_union in H as [->%elem_of_singleton|H%elem_of_dom]; auto.
    - intros [->|H%elem_of_dom]; apply elem_of_dom; rewrite dom_add_node; set_solver. }
  etrans; [|symmetry; exact Hkey]. simpl. rewrite lookup_insert. case_decide as E.
  - subst. split; eauto.
  - etrans; [apply Hg|]. split; [auto|]. by intros [->|?].
Qed.

Lemma positioned_ensure_node g n : positioned g -> positioned (ensure_node g n).
Proof.
  intros Hg. unfold ensure_node. destruct (adjacency_list g !! n); [done|].
  by apply positioned_add_node.
Qed.

Lemma positioned_add_edge g a b w bd : positioned g -> positioned (add_edge g a b w bd).
Proof.
  intros Hg n. rewrite node_positions_add_edge.
  etrans; [apply (positioned_ensure_node _ b (positioned_ensure_node _ a Hg) n)|].
  assert (Hd : dom (adjacency_list (ensure_node (ensure_node g a) b))
               = dom (adjacency_list (add_edge g a b w bd))).
  { rewrite dom_add_edge, !dom_ensure_node. set_solver. }
  split; intros H%elem_of_dom; apply elem_of_dom; congruence.
Qed.

Lemma built_positioned g : built g -> positioned g.
Proof.
  induction 1; auto using positioned_init, positioned_add_node, positioned_add_edge.
Qed.

(** X1: [add_edge] appends the arc [(to, weight)] to the list of [from]
    and, only when bidirectional, [(from, weight)] to the list of [to];
    every neighbour list keeps its old entries in order, no other list
    changes, and the node set grows by the two endpoints. *)
Theorem add_edge_effect (g : Graph) (a b : string) (w : num) (bd : bool) :
  (forall n,
     get_neighbors (add_edge g a b w bd) n =
     get_neighbors g n ++ (if decide (n = a) then [(b, w)] else [])
                       ++ (if bd then if decide (n = b) then [(a, w)] else []
                           else [])) ∧
  dom (adjacency_list (add_edge g a b w bd)) = {[a; b]} ∪ dom (adjacency_list g).
Proof. split; [intros n; apply get_neighbors_add_edge|apply dom_add_edge]. Qed.

(** X2: [add_node] leaves every neighbour list as it is (adding a node
    again does not drop its arcs), makes the id a node, records the given
    position for it and changes no other position. *)
Theorem add_node_effect (g : Graph) (n : string) (x y : num) :
  (forall m, get_neighbors (add_node g n x y) m = get_neighbors g m) ∧
  dom (adjacency_list (add_node g n x y)) = {[n]} ∪ dom (adjacency_list g) ∧
  node_positions (add_node g n x y) !! n = Some (x, y) ∧
  (forall m, m ≠ n ->
     node_positions (add_node g n x y) !! m = node_positions g !! m).
Proof.
  split; [intros m; apply get_neighbors_add_node|]. split; [apply dom_add_node|].
  simpl. split; [apply lookup_insert_eq|]. intros m Hm. by apply lookup_insert_ne.
Qed.

(** X3: in every graph built by [add_node] and [add_edge] the nodes with a
    recorded position are exactly the keys of the adjacency mapping, so
    the heuristics' fallback for a missing position is never taken for
    two nodes of the graph. *)
Theorem built_nodes_have_positions (g : Graph) :
  built g ->
  forall n, is_Some (node_positions g !! n) <-> is_Some (adjacency_list g !! n).
Proof. apply built_positioned. Qed.

(** X4: [add_edge] never moves a node that is already in the graph. *)
Theorem add_edge_keeps_position (g : Graph) (a b : string) (w : num) (bd : bool)
    (n : string) :
  is_Some (adjacency_list g !! n) ->
  node_positions (add_edge g a b w bd) !! n = node_positions g !! n.
Proof. apply add_edge_position_old. Qed.

Lemma arc_add_edge_iff g a b w bd u v w' :
  arc (add_edge g a b w bd) u v w' <->
  arc g u v w' ∨ (w' = w ∧ ((u = a ∧ v = b) ∨ (bd = true ∧ u = b ∧ v = a))).
Proof.
  unfold arc. rewrite get_neighbors_add_edge, !elem_of_app. split.
  - intros [?|[Hin|Hin]]; [by left|..]; right.
    + destruct (decide (u = a)); [|set_solver].
      apply list_elem_of_singleton in Hin. simplify_eq. auto.
    + destruct bd; [|set_solver]. destruct (decide (u = b)); [|set_solver].
      apply list_elem_of_singleton in Hin. simplify_eq. auto.
  - intros [?|[-> [[-> ->]|(-> & -> & ->)]]]; [by left|..].
    + right. left. rewrite decide_True by done. set_solver.
    + right. right. rewrite decide_True by done. set_solver.
Qed.

Lemma for_each_nodes_effect ns : forall g g',
  for_each from_dict_node ns g = Ok g' ->
  (forall m, get_neighbors g' m = get_neighbors g m) ∧
  (forall n, n ∈ dom (adjacency_list g') <->
     n ∈ dom (adjacency_list g) ∨ exists it, it ∈ ns ∧ item_id it = Some n).
Proof.
  induction ns as [|it ns IH]; intros g g'; cbn [for_each].
  - intros [= <-]. split; [done|]. intros n. split; [auto|]. intros [?|(? & ? & _)]; set_solver.
  - destruct (from_dict_node g it) as [g1| | | |] eqn:E; try done. cbn [bind]. intros Hrest.
    destruct (IH _ _ Hrest) as [Hnb Hdom].
    assert (exists i x y, item_id it = Some i ∧ g1 = add_node g i x y) as (i & x & y & Hi & ->).
    { destruct it as [[i|] x y|s]; simpl in E; simplify_eq; eauto. }
    split.
    + intros m. by rewrite Hnb, get_neighbors_add_node.
    + intros n. rewrite Hdom, dom_add_node, elem_of_union, elem_of_singleton. split.
      * intros [[->|?]|(it' & ? & ?)]; [right; exists it|by left|right; exists it']; set_solver.
      * intros [?|(it' & [->|?]%elem_of_cons & Hid)]; [auto|left; left; congruence|eauto].
Qed.

Lemma for_each_edges_effect es : forall g g',
  for_each from_dict_edge es g = Ok g' ->
  (forall u v w, arc g' u v w <->
     arc g u v w ∨ exists e, e ∈ es ∧ edge_gives e u v w) ∧
  (forall n, n ∈ dom (adjacency_list g') <->
     n ∈ dom (adjacency_list g) ∨
     exists e, e ∈ es ∧ (e_from e = Some n ∨ e_to e = Some n)).
Proof.
  induction es as [|e es IH]; intros g g'; cbn [for_each].
  - intros [= <-]. split; [intros u v w|intros n]; (split; [auto|]);
      intros [?|(? & ? & _)]; set_solver.
  - unfold from_dict_edge at 1.
    destruct (e_from e) as [a|] eqn:Ea; [|done]. destruct (e_to e) as [b|] eqn:Eb; [|done].
    cbn [required bind]. intros Hrest. destruct (IH _ _ Hrest) as [Harc Hdom]. split.
    + intros u v w. rewrite Harc, arc_add_edge_iff. unfold edge_gives. split.
      * intros [[?|(-> & Hor)]|(e' & ? & ?)]; [by left| |right; exists e'; set_solver].
        right. exists e. split; [set_solver|]. rewrite Ea, Eb. split; [done|].
        destruct Hor as [[-> ->]|(Hbd & -> & ->)]; [by left|right]. by rewrite Hbd.
      * intros [?|(e' & [->|?]%elem_of_cons & Hg)]; [auto| |eauto].
        left. right. destruct Hg as [-> Hor]. split; [done|].
        rewrite Ea, Eb in Hor.
        destruct Hor as [[[= ->] [= ->]]|(Hbd & [= ->] & [= ->])]; [by left|right].
        by rewrite Hbd.
    + intros n. rewrite Hdom, dom_add_edge. split.
      * intros [[Hab|?]%elem_of_union|(e' & ? & ?)]; [|by left|right; exists e'; set_solver].
        right. exists e. split; [set_solver|]. rewrite Ea, Eb.
        apply elem_of_union in Hab as [->%elem_of_singleton| ->%elem_of_singleton]; auto.
      * intros [?|(e' & [->|?]%elem_of_cons & Hg)]; [set_solver| |eauto].
        left. rewrite Ea, Eb in Hg. destruct Hg as [[= ->]|[= ->]]; set_solver.
Qed.

Lemma add_edge_position g a b w bd n :
  positioned g ->
  node_positions (add_edge g a b w bd) !! n =
  match node_positions g !! n with
  | Some p => Some p
  | None => if decide (n = a ∨ n = b) then Some (Int 0, Int 0) else None
  end.
Proof.
  intros Hg. destruct (node_positions g !! n) as [p|] eqn:E.
  - rewrite add_edge_position_old; [done|]. apply Hg. by rewrite E.
  - assert (Hno : adjacency_list g !! n = None).
    { apply eq_None_not_Some. intros H%Hg. rewrite E in H. by destruct H. }
    case_decide as Hn; [by apply add_edge_auto_creates|].
    apply eq_None_not_Some. intros H%(positioned_add_edge g a b w bd Hg).
    apply elem_of_dom in H. rewrite dom_add_edge in H.
    apply elem_of_union in H as [H|H%elem_of_dom]; [set_solver|].
    rewrite Hno in H. by destruct H.
Qed.

Lemma for_each_edges_positions es : forall g g',
  positioned g -> for_each from_dict_edge es g = Ok g' ->
  forall n, node_positions g' !! n =
    match node_positions g !! n with
    | Some p => Some p
    | None => if decide (n ∈ dom (adjacency_list g')) then Some (Int 0, Int 0) else None
    end.
Proof.
  induction es as [|e es IH]; intros g g' Hg; cbn [for_each].
  - intros [= <-] n. destruct (node_positions g !! n) eqn:E; [done|].
    rewrite decide_False; [done|]. intros H%elem_of_dom%Hg. rewrite E in H. by destruct H.
  - unfold from_dict_edge at 1.
    destruct (e_from e) as [a|] eqn:Ea; [|done]. destruct (e_to e) as [b|] eqn:Eb; [|done].
    cbn [required bind]. intros Hrest n.
    pose proof (positioned_add_edge g a b (default (Flt 1) (e_weight e))
                  (default true (e_bidirectional e)) Hg) as Hg1.
    rewrite (IH _ _ Hg1 Hrest n), (add_edge_position _ _ _ _ _ _ Hg).
    destruct (node_positions g !! n); [done|].
    case_decide as Hab; [|done].
    rewrite decide_True; [done|].
    apply (for_each_edges_effect _ _ _ Hrest). left. rewrite dom_add_edge. set_solver.
Qed.

(** X5: the nodes of the graph [from_dict] returns are exactly the ids
    named by the node items and the endpoints named by the edge items. *)
Theorem from_dict_node_set (data : graph_data) (g : Graph) :
  from_dict data = Ok g ->
  forall n, is_Some (adjacency_list g !! n) <->
    (exists it, it ∈ default [] (data_nodes data) ∧ item_id it = Some n) ∨
    (exists e, e ∈ default [] (data_edges data) ∧
               (e_from e = Some n ∨ e_to e = Some n)).
Proof.
  unfold from_dict. intros H n.
  destruct (for_each from_dict_node _ Graph_init) as [g0| | | |] eqn:E0; try done.
  cbn [bind] in H.
  destruct (for_each_nodes_effect _ _ _ E0) as [_ Hd0].
  destruct (for_each_edges_effect _ _ _ H) as [_ Hd].
  etrans; [symmetry; apply elem_of_dom|]. etrans; [apply Hd|]. split.
  - intros [[?|?]%Hd0|?]; [set_solver|auto..].
  - intros [?|?]; [left; apply Hd0|]; auto.
Qed.

(** X6: the arcs of the graph [from_dict] returns are exactly those the
    edge items give: [from -> to] with the item's weight (1 by default),
    and [to -> from] as well unless the item says [bidirectional] false. *)
Theorem from_dict_arcs (data : graph_data) (g : Graph) :
  from_dict data = Ok g ->
  forall u v w, arc g u v w <->
    exists e, e ∈ default [] (data_edges data) ∧ edge_gives e u v w.
Proof.
  unfold from_dict. intros H u v w.
  destruct (for_each from_dict_node _ Graph_init) as [g0| | | |] eqn:E0; try done.
  cbn [bind] in H.
  destruct (for_each_nodes_effect _ _ _ E0) as [Hnb _].
  destruct (for_each_edges_effect _ _ _ H) as [Ha _].
  etrans; [apply Ha|]. split; [|auto]. intros [H0|?]; [|done].
  unfold arc in H0. rewrite Hnb in H0. by apply arc_init in H0.
Qed.

(** X7: processing the edges moves no node: a position recorded by the
    node list of the input is the position in the graph [from_dict]
    returns, and a node that only occurs as an edge endpoint is at
    (0, 0). *)
Theorem from_dict_positions (data : graph_data) (g : Graph) :
  from_dict data = Ok g ->
  exists g0,
    from_dict (MkData (data_nodes data) None) = Ok g0 ∧
    forall n, node_positions g !! n =
      match node_positions g0 !! n with
      | Some p => Some p
      | None => if decide (is_Some (adjacency_list g !! n)) then Some (Int 0, Int 0)
                else None
      end.
Proof.
  unfold from_dict. intros H. cbn [data_nodes data_edges default for_each].
  destruct (for_each from_dict_node _ Graph_init) as [g0| | | |] eqn:E0; try done.
  cbn [bind] in H. exists g0. split; [done|]. intros n.
  assert (Hp : positioned g0).
  { apply built_positioned. eapply for_each_nodes_built; [constructor|exact E0]. }
  rewrite (for_each_edges_positions _ _ _ Hp H n).
  destruct (node_positions g0 !! n); [done|].
  destruct (decide (n ∈ dom (adjacency_list g))) as [Hd|Hd].
  - rewrite decide_True; [done|]. by apply elem_of_dom.
  - rewrite decide_False; [done|]. by rewrite <- elem_of_dom.
Qed.


Lemma chain_insert P n l v x :
  chain P n l -> v ∉ l -> chain (<[v := x]> P) n l.
Proof.
  induction 1 as [n Hn|n u l Hn Hc IH]; intros Hv.
  - apply chain_root. rewrite lookup_insert_ne; [done|set_solver].
  - apply chain_step with u; [rewrite lookup_insert_ne; [done|set_solver]|].
    apply IH. set_solver.
Qed.

Lemma chain_head P n l : chain P n l -> exists l', l = n :: l'.
Proof. destruct 1; eauto. Qed.

Lemma settled_mono g start st st' n :
  distances st' !! n = distances st !! n ->
  (forall l, chain (previous st) n l -> Forall (fun x => x ∈ visited st) l ->
             chain (previous st') n l) ->
  visited st ⊆ visited st' ->
  settled g start st n -> settled g start st' n.
Proof.
  intros HD HP HV (d & l & Hd & Hc & Hall & Hlen & Hpath & Hlb).
  exists d, l. repeat split; auto.
  - congruence.
  - eapply Forall_impl; [exact Hall|]. set_solver.
  - etrans; [exact Hlen|]. by apply subseteq_size.
Qed.

Lemma nonneg_Int g u v w : nonneg g -> arc g u v (Int w) -> 0 <= w.
Proof.
  intros Hnn Ha. specialize (Hnn _ _ _ Ha). unfold num_leb in Hnn.
  rewrite num_compare_Int in Hnn. destruct (Z.compare_spec 0 w); try done; lia.
Qed.

Lemma arc_whole g u v w z :
  int_weights g -> arc g u v w -> whole w = Some z -> w = Int z.
Proof. intros Hint Ha Hw. destruct (Hint _ _ _ Ha) as [z' ->]. by injection Hw as ->. Qed.

Section DijkstraStrong.
Variable g : Graph.
Variable start : string.
Hypothesis Hnonneg : nonneg g.
Hypothesis Hint : int_weights g.

(** A path to a visited node weighs at least its distance; a path to any
    other node weighs at least some key of the frontier. *)
Lemma frontier_bound k0 cur st v p d :
  core g start k0 st -> relaxed_except g st cur [] ->
  path_from g start v p d ->
  (v ∈ visited st -> dist_le st v d) ∧
  (v ∉ visited st -> exists k x, (Int k, x) ∈ priority_queue st ∧ k <= d).
Proof.
  intros Hcore Hrel Hpath.
  assert (Hvis : forall v p d, path_from g start v p d -> v ∈ visited st -> dist_le st v d).
  { intros v' p' d' Hp' Hv'.
    destruct (core_vis _ _ _ _ Hcore _ Hv') as (dv & l & Hd & _ & _ & _ & _ & Hlb).
    exists dv. split; [done|]. by eapply Hlb. }
  split; [by eapply Hvis|].
  induction Hpath as [|u v w z p d Hpath IH Harc Hw]; intros Hv.
  - destruct (core_start _ _ _ _ Hcore) as (d0 & Hd0 & Hle).
    destruct (core_unvis _ _ _ _ Hcore _ _ Hv Hd0) as [Hq _]. eauto.
  - rewrite (arc_whole _ _ _ _ _ Hint Harc Hw) in Harc.
    destruct (decide (u ∈ visited st)) as [Hu|Hu].
    + destruct (Hvis _ _ _ Hpath Hu) as (du & Hdu & Hle).
      destruct (Hrel _ _ _ _ Hu Harc Hdu) as [(dv & Hdv & Hle')|[_ Hin]];
        [|set_solver].
      destruct (core_unvis _ _ _ _ Hcore _ _ Hv Hdv) as [Hq _].
      exists dv, v. split; [done|lia].
    + destruct (IH Hu) as (k & x & Hq & Hle). exists k, x. split; [done|].
      pose proof (nonneg_Int _ _ _ _ Hnonneg Harc). lia.
Qed.

Lemma core_skip k0 st k n q :
  core g start k0 st -> heappop entry_ltb (priority_queue st) = Some ((k, n), q) ->
  n ∈ visited st ->
  core g start k0 (MkD (distances st) (previous st) q (visited st) (d_explored st)).
Proof.
  intros Hcore Hpop Hn. pose proof (heappop_perm _ _ _ _ Hpop) as HP.
  assert (Hsub : forall e, e ∈ q -> e ∈ priority_queue st)
    by (intros e He; rewrite HP; set_solver).
  constructor; simpl.
  - apply Hcore.
  - intros m Hm. eapply settled_mono; [..|by apply (core_vis _ _ _ _ Hcore)]; done.
  - apply Hcore.
  - intros m d Hm Hd. destruct (core_unvis _ _ _ _ Hcore _ _ Hm Hd) as [Hq Hor].
    split; [|done]. rewrite HP in Hq. apply elem_of_cons in Hq as [[= -> ->]|Hq]; done.
  - intros k' x Hx. apply (core_pq _ _ _ _ Hcore). auto.
  - apply Hcore.
  - intros k' x Hx. apply (core_mark_pq _ _ _ _ Hcore _ x). auto.
Qed.

Lemma core_visit k0 cur st k n q :
  core g start k0 st -> relaxed_except g st cur [] ->
  is_heap entry_ltb (priority_queue st) ->
  Forall ordered_entry (priority_queue st) ->
  heappop entry_ltb (priority_queue st) = Some ((Int k, n), q) -> n ∉ visited st ->
  let st1 := MkD (distances st) (previous st) q ({[n]} ∪ visited st)
                 (S (d_explored st)) in
  distances st !! n = Some (Int k) ∧ core g start k st1 ∧
  relaxed_except g st1 n (get_neighbors g n).
Proof.
  intros Hcore Hrel Hheap Hok Hpop Hn st1.
  pose proof (heappop_perm _ _ _ _ Hpop) as HP.
  assert (Hsub : forall e, e ∈ q -> e ∈ priority_queue st)
    by (intros e He; rewrite HP; set_solver).
  assert (Hin : (Int k, n) ∈ priority_queue st) by (rewrite HP; set_solver).
  assert (Hmin : forall k' x, (Int k', x) ∈ priority_queue st -> k <= k').
  { intros k' x Hx. eapply entry_ltb_Int_false.
    by eapply (frontier_pop_least _ _ _ Hok Hheap Hpop). }
  destruct (core_pq _ _ _ _ Hcore _ _ Hin) as (z & [= <-] & dn & Hdn & Hle).
  destruct (core_unvis _ _ _ _ Hcore _ _ Hn Hdn) as [Hq Hor].
  assert (dn = k) as -> by (pose proof (Hmin _ _ Hq); lia).
  assert (Hlb : forall p' d', path_from g start n p' d' -> k <= d').
  { intros p' d' Hp'.
    destruct (frontier_bound _ _ _ _ _ _ Hcore Hrel Hp') as [_ Hf].
    destruct (Hf Hn) as (k' & x & Hx & Hle'). pose proof (Hmin _ _ Hx). lia. }
  assert (Hsize : size ({[n]} ∪ visited st) = S (size (visited st))).
  { rewrite size_union by set_solver. by rewrite size_singleton. }
  split; [done|]. split.
  - constructor; simpl.
    + apply Hcore.
    + intros m [->%elem_of_singleton|Hm]%elem_of_union.
      * destruct Hor as [(-> & HP0 & ->)|(u & w & du & Hu & Harc & Hdu & -> & HPu)].
        -- exists 0, [start]. simpl. repeat split; auto.
           ++ by apply chain_root.
           ++ apply Forall_singleton. set_solver.
           ++ lia.
           ++ constructor.
        -- destruct (core_vis _ _ _ _ Hcore _ Hu)
             as (du' & l & Hdu' & Hc & Hall & Hlen & Hpath & _).
           rewrite Hdu in Hdu'. simplify_eq.
           exists (du' + w), (n :: l). simpl. repeat split; auto.
           ++ by apply chain_step with u.
           ++ apply Forall_cons. split; [set_solver|].
              eapply Forall_impl; [exact Hall|]. set_solver.
           ++ lia.
           ++ by apply path_step with u (Int w).
      * eapply settled_mono; [..|by apply (core_vis _ _ _ _ Hcore)];
          simpl; [done|done|set_solver].
    + apply Hcore.
    + intros m d Hm Hd. apply not_elem_of_union in Hm as [Hmn%not_elem_of_singleton Hm].
      destruct (core_unvis _ _ _ _ Hcore _ _ Hm Hd) as [Hqm Horm]. split.
      * rewrite HP in Hqm. apply elem_of_cons in Hqm as [[= -> ->]|Hqm]; done.
      * destruct Horm as [?|(u & w & du & Hu & ?)]; [by left|right].
        exists u, w, du. split; [set_solver|done].
    + intros k' x Hx. apply (core_pq _ _ _ _ Hcore). auto.
    + intros u du [->%elem_of_singleton|Hu]%elem_of_union Hdu.
      * rewrite Hdn in Hdu. simplify_eq. lia.
      * pose proof (core_mark_vis _ _ _ _ Hcore _ _ Hu Hdu).
        pose proof (core_mark_pq _ _ _ _ Hcore _ _ Hin). lia.
    + intros k' x Hx. eapply Hmin; eauto.
  - intros u v w du [->%elem_of_singleton|Hu]%elem_of_union Harc Hdu; simpl in *.
    + right. done.
    + destruct (Hrel _ _ _ _ Hu Harc Hdu) as [?|[_ ?]]; [by left|set_solver].
Qed.

Lemma mid_relax_skip cur k0 v w pend st dv :
  loop_mid g start cur k0 ((v, Int w) :: pend) st ->
  distances st !! v = Some dv -> num_ltb (Int (k0 + w)) dv = false ->
  loop_mid g start cur k0 pend st.
Proof.
  intros (Hcore & Hcur & Hk & Hpend & Hrel) Hdv Hlt.
  split; [done|]. split; [done|]. split; [done|]. split.
  - intros x Hx. apply Hpend. set_solver.
  - intros u v' w' du Hu Harc Hdu.
    destruct (Hrel _ _ _ _ Hu Harc Hdu) as [?|[-> Hin]]; [by left|].
    apply elem_of_cons in Hin as [[= -> ->]|Hin]; [left|by right].
    rewrite Hk in Hdu. simplify_eq.
    destruct (core_int _ _ _ _ Hcore _ _ Hdv) as [->|[z ->]].
    { by rewrite num_ltb_Int_inf in Hlt. }
    exists z. split; [done|]. rewrite num_ltb_Int in Hlt.
    apply Z.ltb_ge in Hlt. lia.
Qed.

Lemma mid_relax_update cur k0 v w pend st dv :
  loop_mid g start cur k0 ((v, Int w) :: pend) st ->
  distances st !! v = Some dv -> num_ltb (Int (k0 + w)) dv = true ->
  loop_mid g start cur k0 pend
    (MkD (<[v := Int (k0 + w)]> (distances st)) (<[v := Some cur]> (previous st))
         (heappush entry_ltb (priority_queue st) (Int (k0 + w), v))
         (visited st) (d_explored st)).
Proof.
  intros (Hcore & Hcur & Hk & Hpend & Hrel) Hdv Hlt.
  assert (Harc : arc g cur v (Int w)) by (apply Hpend; set_solver).
  pose proof (nonneg_Int _ _ _ _ Hnonneg Harc) as Hw.
  assert (Hold : forall z, dv = Int z -> k0 + w < z).
  { intros z ->. rewrite num_ltb_Int in Hlt. by apply Z.ltb_lt. }
  assert (Hv : v ∉ visited st).
  { intros Hv. destruct (core_vis _ _ _ _ Hcore _ Hv) as (d & _ & Hd & _).
    rewrite Hdv in Hd. simplify_eq.
    pose proof (core_mark_vis _ _ _ _ Hcore _ _ Hv Hdv).
    pose proof (Hold _ eq_refl). lia. }
  assert (Hne : cur ≠ v) by (intros ->; done).
  assert (Hkeep : forall u, u ∈ visited st ->
            <[v := Int (k0 + w)]> (distances st) !! u = distances st !! u).
  { intros u Hu. apply lookup_insert_ne. intros ->. done. }
  assert (Hdown : forall x b, dist_le st x b ->
            dist_le (MkD (<[v := Int (k0 + w)]> (distances st))
                         (<[v := Some cur]> (previous st))
                         (heappush entry_ltb (priority_queue st) (Int (k0 + w), v))
                         (visited st) (d_explored st)) x b).
  { intros x b (d & Hd & Hle). unfold dist_le. simpl.
    destruct (decide (v = x)) as [->|Hvx].
    - rewrite lookup_insert_eq. exists (k0 + w). split; [done|].
      rewrite Hdv in Hd. simplify_eq. pose proof (Hold _ eq_refl). lia.
    - rewrite lookup_insert_ne by done. eauto. }
  split; [|split; [done|]; split; [|split]]; simpl.
  - constructor; simpl.
    + apply Hdown, Hcore.
    + intros m Hm. eapply settled_mono; [..|by apply (core_vis _ _ _ _ Hcore)]; simpl.
      * by apply Hkeep.
      * intros l Hc Hall. apply chain_insert; [done|].
        intros Hin. rewrite Forall_forall in Hall. by apply Hall in Hin.
      * done.
    + intros m d. rewrite lookup_insert. case_decide as E.
      * intros [= <-]. right. eauto.
      * apply Hcore.
    + intros m d Hm. destruct (decide (v = m)) as [->|Hvm].
      * rewrite lookup_insert_eq. intros [= <-].
        split; [apply elem_of_heappush; by left|]. right.
        exists cur, w, k0. rewrite Hkeep by done. rewrite lookup_insert_eq. done.
      * rewrite !lookup_insert_ne by done. intros Hd.
        destruct (core_unvis _ _ _ _ Hcore _ _ Hm Hd) as [Hq Hor].
        split; [apply elem_of_heappush; by right|].
        destruct Hor as [?|(u & w' & du & Hu & ? & ? & ? & ?)]; [by left|right].
        exists u, w', du. rewrite Hkeep by done. done.
    + intros k' x [[= -> ->]|Hx]%elem_of_heappush.
      * exists (k0 + w). split; [done|]. exists (k0 + w). simpl.
        by rewrite lookup_insert_eq.
      * destruct (core_pq _ _ _ _ Hcore _ _ Hx) as (z & -> & Hz).
        exists z. split; [done|]. by apply Hdown.
    + intros u du Hu. rewrite Hkeep by done. by apply (core_mark_vis _ _ _ _ Hcore).
    + intros k' x [[= -> ->]|Hx]%elem_of_heappush; [lia|].
      by apply (core_mark_pq _ _ _ _ Hcore _ x).
  - by rewrite lookup_insert_ne.
  - intros x Hx. apply Hpend. set_solver.
  - intros u v' w' du Hu Harc'. rewrite Hkeep by done. intros Hdu.
    destruct (Hrel _ _ _ _ Hu Harc' Hdu) as [Hl|[-> Hin]]; [left; by apply Hdown|].
    apply elem_of_cons in Hin as [[= -> ->]|Hin]; [left|by right].
    rewrite Hk in Hdu. simplify_eq. exists (du + w).
    simpl. by rewrite lookup_insert_eq.
Qed.
End DijkstraStrong.

Section DijkstraLoop.
Variable g : Graph.
Variable start : string.
Hypothesis Hclosed : closed g.

Lemma relax_step cur k st v w pend :
  dinv g start st -> cur ∈ visited st -> arc g cur v w ->
  (int_weights g -> exists z, k = Int z) ->
  (exists st', relax cur k st (v, w) = Ok st' ∧ dinv g start st' ∧
     visited st' = visited st ∧
     (length (priority_queue st') <= S (length (priority_queue st)))%nat ∧
     (forall k0, k = Int k0 -> nonneg g -> int_weights g ->
        loop_mid g start cur k0 ((v, w) :: pend) st ->
        loop_mid g start cur k0 pend st')) ∨
  (relax cur k st (v, w) = OverflowError ∧ ~ int_weights g).
Proof.
  intros Hinv Hcur Harc Hk.
  destruct (dinv_relax g start Hclosed cur k st v w Hinv Hcur Harc Hk)
    as [(st' & Heq & Hinv' & Hvis & _ & Hlen)|?]; [left|by right].
  exists st'. repeat (split; [done|]). intros k0 -> Hnn Hint Hmid.
  destruct (Hint _ _ _ Harc) as [w0 ->].
  destruct (Hclosed _ _ _ Harc) as [_ Hv].
  destruct (proj2 (dinv_dom _ _ _ Hinv v) Hv) as [dv Hdv].
  rewrite (relax_eq _ _ _ _ _ _ _ (num_add_Int k0 w0) Hdv) in Heq.
  destruct (num_ltb (Int (k0 + w0)) dv) eqn:E; injection Heq as <-.
  - by eapply mid_relax_update.
  - by eapply mid_relax_skip.
Qed.

Lemma for_each_relax cur k pend : forall st,
  dinv g start st -> cur ∈ visited st ->
  (forall x, x ∈ pend -> x ∈ get_neighbors g cur) ->
  (int_weights g -> exists z, k = Int z) ->
  (exists st', for_each (relax cur k) pend st = Ok st' ∧ dinv g start st' ∧
     visited st' = visited st ∧
     (length (priority_queue st') <= length (priority_queue st) + length pend)%nat ∧
     (forall k0, k = Int k0 -> nonneg g -> int_weights g ->
        loop_mid g start cur k0 pend st -> loop_mid g start cur k0 [] st')) ∨
  (for_each (relax cur k) pend st = OverflowError ∧ ~ int_weights g).
Proof.
  induction pend as [|[v w] pend IH]; intros st Hinv Hcur Hpend Hk; cbn [for_each].
  - left. exists st. repeat (split; [done|]). split; [simpl; lia|done].
  - assert (Harc : arc g cur v w) by (apply Hpend; set_solver).
    destruct (relax_step cur k st v w pend Hinv Hcur Harc Hk)
      as [(st1 & -> & Hinv1 & Hvis1 & Hlen1 & Hmid1)|[-> Hno]]; [|by right].
    cbn [bind].
    destruct (IH st1) as [(st2 & -> & Hinv2 & Hvis2 & Hlen2 & Hmid2)|[-> Hno]];
      [done|by rewrite Hvis1|intros x Hx; apply Hpend; set_solver|done| |by right].
    left. exists st2. split; [done|]. split; [done|]. split; [congruence|].
    split; [simpl; lia|]. eauto.
Qed.

Lemma dijkstra_body_step end_ st :
  dinv g start st ->
  (exists st', dijkstra_body g end_ st = Ok (Next st') ∧ dinv g start st' ∧
     (dijkstra_measure g st' < dijkstra_measure g st)%nat ∧
     (nonneg g -> int_weights g -> loop_head g start st -> loop_head g start st')) ∨
  (exists st', dijkstra_body g end_ st = Ok (Stop st') ∧ dinv g start st' ∧
     (nonneg g -> int_weights g -> loop_head g start st -> reachable g start end_ ->
      settled g start st' end_)) ∨
  (dijkstra_body g end_ st = OverflowError ∧ ~ int_weights g).
Proof.
  intros Hinv. unfold dijkstra_body.
  destruct (heappop entry_ltb (priority_queue st)) as [[[k n] q]|] eqn:Hpop.
  2:{ right. left. exists st. split; [done|]. split; [done|].
      intros Hnn Hint (k0 & cur & Hcore & Hrel) Hreach.
      destruct (reachable_path _ _ _ Hint Hreach) as (p & d & Hp).
      apply heappop_None in Hpop.
      destruct (frontier_bound g start Hnn Hint _ _ _ _ _ _ Hcore Hrel Hp) as [_ Hf].
      destruct (decide (end_ ∈ visited st)) as [He|He];
        [by apply (core_vis _ _ _ _ Hcore)|].
      destruct (Hf He) as (k & x & Hx & _). rewrite Hpop in Hx. set_solver. }
  pose proof (heappop_perm _ _ _ _ Hpop) as HP.
  destruct (dinv_heap _ _ _ Hinv) as [Hheap Hok].
  destruct (frontier_pop_heap _ _ _ Hok Hheap Hpop) as [Hokq Hheapq].
  assert (Hsub : forall e, e ∈ q -> e ∈ priority_queue st)
    by (intros e He; rewrite HP; set_solver).
  assert (Hin : (k, n) ∈ priority_queue st) by (rewrite HP; set_solver).
  assert (Hlen : length (priority_queue st) = S (length q))
    by by rewrite HP.
  assert (Hintq : int_weights g ->
            (forall n d, distances st !! n = Some d -> int_or_inf d) ∧
            (forall k n, (k, n) ∈ q -> exists z, k = Int z)).
  { intros Hint. destruct (dinv_int _ _ _ Hinv Hint) as [Hd Hq]. split; [done|].
    intros k' x Hx. eapply Hq; eauto. }
  assert (Hkint : int_weights g -> exists z, k = Int z).
  { intros Hint. destruct (dinv_int _ _ _ Hinv Hint) as [_ Hq]. by eapply Hq. }
  destruct (dinv_pq _ _ _ Hinv _ _ Hin) as [[L HL] Hreach].
  destruct (decide (n ∈ visited st)) as [Hn|Hn].
  { left. eexists. split; [done|]. split; [|split].
    - constructor; simpl; try apply Hinv; [|done|done].
      intros k' x Hx. apply (dinv_pq _ _ _ Hinv k'). auto.
    - unfold dijkstra_measure. simpl. lia.
    - intros Hnn Hint (k0 & cur & Hcore & Hrel). exists k0, cur. split; [|done].
      by eapply core_skip. }
  set (st1 := MkD (distances st) (previous st) q ({[n]} ∪ visited st)
                  (S (d_explored st))).
  assert (Hinv1 : dinv g start st1).
  { constructor; simpl; try apply Hinv; [| |done|done].
    - intros k' x Hx. apply (dinv_pq _ _ _ Hinv k'). auto.
    - intros m [->%elem_of_singleton|Hm]%elem_of_union; [eauto|].
      by apply (dinv_vis _ _ _ Hinv). }
  assert (Hstrong : nonneg g -> int_weights g -> loop_head g start st ->
            exists k0, k = Int k0 ∧
            distances st !! n = Some (Int k0) ∧ core g start k0 st1 ∧
            relaxed_except g st1 n (get_neighbors g n)).
  { intros Hnn Hint (k0 & cur & Hcore & Hrel).
    destruct (Hkint Hint) as [z ->]. exists z. split; [done|].
    by eapply core_visit. }
  pose proof (budget_visit g _ _ _ HL Hn) as Hbud.
  destruct (String.eqb_spec n end_) as [->|Hne].
  { right. left. exists st1. split; [done|]. split; [done|].
    intros Hnn Hint Hhead _.
    destruct (Hstrong Hnn Hint Hhead) as (k0 & _ & _ & Hcore1 & _).
    apply (core_vis _ _ _ _ Hcore1). simpl. set_solver. }
  destruct (proj2 (dinv_dom _ _ _ Hinv1 n)) as [dc Hdc]; [eauto|].
  unfold subscript. rewrite Hdc. cbn [bind].
  destruct (num_ltb dc k) eqn:Hlt.
  { left. exists st1. split; [done|]. split; [done|]. split.
    - unfold dijkstra_measure. simpl. lia.
    - intros Hnn Hint Hhead. destruct (Hstrong Hnn Hint Hhead) as (k0 & -> & Hk & _).
      simpl in Hdc. rewrite Hk in Hdc. simplify_eq. rewrite num_ltb_Int in Hlt.
      apply Z.ltb_lt in Hlt. lia. }
  destruct (for_each_relax n k (get_neighbors g n) st1 Hinv1)
    as [(st2 & -> & Hinv2 & Hvis2 & Hlen2 & Hmid2)|[-> Hno]];
    [simpl; set_solver|done|done| |by right; right].
  cbn [bind]. left.
  exists st2. split; [done|]. split; [done|]. split.
  - unfold dijkstra_measure. rewrite Hvis2. simpl in *.
    rewrite (get_neighbors_lookup _ _ _ HL) in Hlen2. lia.
  - intros Hnn Hint Hhead.
    destruct (Hstrong Hnn Hint Hhead) as (k0 & -> & Hk & Hcore1 & Hrel1).
    destruct (Hmid2 k0 eq_refl Hnn Hint) as (Hcore2 & _ & _ & _ & Hrel2);
      [|by exists k0, n].
    split; [done|]. split; [simpl; set_solver|]. by split.
Qed.
End DijkstraLoop.

Lemma dinv_init g start :
  is_Some (adjacency_list g !! start) -> dinv g start (dijkstra_init g start).
Proof.
  intros Hs. constructor; simpl.
  - intros n. rewrite lookup_insert. case_decide as E; [subst; split; eauto|].
    by rewrite lookup_fmap, fmap_is_Some.
  - intros n. by rewrite lookup_fmap, fmap_is_Some.
  - intros k n [= -> ->]%list_elem_of_singleton. split; [done|constructor].
  - set_solver.
  - intros n d. rewrite lookup_insert.
    case_decide as E; [intros _; subst; right; constructor|].
    rewrite lookup_fmap. destruct (adjacency_list g !! n); [|done].
    intros [= <-]. by left.
  - split; [apply is_heap_singleton|]. apply Forall_singleton. apply Int_ordered.
  - intros _. split.
    + intros n d. rewrite lookup_insert. case_decide as E.
      * intros [= <-]. right. eauto.
      * rewrite lookup_fmap. destruct (adjacency_list g !! n); [|done].
        intros [= <-]. by left.
    + intros k n [= -> ->]%list_elem_of_singleton. eauto.
Qed.

Lemma head_init g start :
  is_Some (adjacency_list g !! start) -> loop_head g start (dijkstra_init g start).
Proof.
  intros [L HL]. exists 0, start. split; [|intros u v w du Hu; set_solver].
  assert (Hfin : forall n d, distances (dijkstra_init g start) !! n = Some (Int d) ->
                             n = start ∧ d = 0).
  { intros n d. simpl. rewrite lookup_insert. case_decide as E; [by intros [= <-]|].
    rewrite lookup_fmap. by destruct (adjacency_list g !! n). }
  constructor; simpl.
  - exists 0. simpl. by rewrite lookup_insert_eq.
  - set_solver.
  - intros n d. rewrite lookup_insert. case_decide as E.
    + intros [= <-]. right. eauto.
    + rewrite lookup_fmap. destruct (adjacency_list g !! n); [|done].
      intros [= <-]. by left.
  - intros n d _ Hd. destruct (Hfin _ _ Hd) as [-> ->]. split; [set_solver|left].
    by rewrite lookup_fmap, HL.
  - intros k n [= -> ->]%list_elem_of_singleton. exists 0. split; [done|].
    exists 0. simpl. by rewrite lookup_insert_eq.
  - set_solver.
  - intros k n [= -> ->]%list_elem_of_singleton. done.
Qed.

Lemma dijkstra_loop_spec g start end_ :
  closed g -> is_Some (adjacency_list g !! start) ->
  (exists st,
     while_loop (dijkstra_body g end_) (2 + arc_count g) (dijkstra_init g start) = Ok st ∧
     dinv g start st ∧
     (nonneg g -> int_weights g -> reachable g start end_ ->
      settled g start st end_)) ∨
  (while_loop (dijkstra_body g end_) (2 + arc_count g) (dijkstra_init g start)
     = OverflowError ∧ ~ int_weights g).
Proof.
  intros Hclosed Hs.
  apply (while_loop_rule (dijkstra_body g end_)
           (fun st => dinv g start st ∧
              (nonneg g -> int_weights g -> loop_head g start st))
           (dijkstra_measure g)
           (fun st => dinv g start st ∧
              (nonneg g -> int_weights g -> reachable g start end_ ->
               settled g start st end_))
           (~ int_weights g)).
  - intros st [Hinv Hhead].
    destruct (dijkstra_body_step g start Hclosed end_ st Hinv)
      as [(st' & Hb & Hinv' & Hmu & Hh)|[(st' & Hb & Hinv' & Hpost)|[Hb Hno]]].
    + left. exists st'. split; [done|]. split; [|done]. split; [done|]. auto.
    + right. left. exists st'. split; [done|]. split; [done|]. auto.
    + right. by right.
  - split; [by apply dinv_init|]. intros _ _. by apply head_init.
  - unfold dijkstra_measure. simpl. rewrite budget_empty. lia.
Qed.

Lemma walk_back_chain P n l : forall fuel acc,
  chain P n l -> (length l <= fuel)%nat ->
  walk_back P fuel (Some n) acc = Ok (acc ++ l).
Proof.
  intros fuel acc Hc. revert fuel acc.
  induction Hc as [n Hn|n u l Hn Hc IH]; intros fuel acc Hlen; simpl in Hlen.
  - destruct fuel as [|fuel]; [lia|]. simpl. unfold subscript. rewrite Hn. simpl.
    by destruct fuel.
  - destruct fuel as [|fuel]; [lia|]. simpl. unfold subscript. rewrite Hn. simpl.
    rewrite IH by lia. by rewrite <- app_assoc.
Qed.

Lemma dinv_visited_size g start st :
  dinv g start st -> (size (visited st) <= size (adjacency_list g))%nat.
Proof.
  intros Hinv. rewrite <- size_dom. apply subseteq_size.
  intros n Hn. apply elem_of_dom. by apply (dinv_vis _ _ _ Hinv).
Qed.

(** On int weights the loop of [dijkstra] does not raise. *)
Lemma dijkstra_loop_int g start end_ :
  closed g -> int_weights g -> is_Some (adjacency_list g !! start) ->
  exists st,
    while_loop (dijkstra_body g end_) (2 + arc_count g) (dijkstra_init g start) = Ok st ∧
    dinv g start st ∧
    (nonneg g -> reachable g start end_ -> settled g start st end_).
Proof.
  intros Hclosed Hint Hs.
  destruct (dijkstra_loop_spec g start end_ Hclosed Hs)
    as [(st & Hrun & Hinv & Hpost)|[_ Hno]]; [|done].
  exists st. split; [done|]. split; [done|]. auto.
Qed.

Lemma dijkstra_shortest g start end_ :
  built g -> nonneg g -> int_weights g ->
  is_Some (adjacency_list g !! start) -> is_Some (adjacency_list g !! end_) ->
  reachable g start end_ ->
  exists r d,
    dijkstra g start end_ = Ok (Some r) ∧
    distance r = Int d ∧
    path_from g start end_ (path r) d ∧
    forall p' d', path_from g start end_ p' d' -> d <= d'.
Proof.
  intros Hb Hnn Hint Hs He Hreach. pose proof (built_closed _ Hb) as Hclosed.
  destruct (dijkstra_loop_int g start end_ Hclosed Hint Hs) as (st & Hrun & Hinv & Hpost).
  destruct (Hpost Hnn Hreach) as (d & l & Hd & Hc & _ & Hlen & Hpath & Hlb).
  unfold dijkstra. destruct Hs as [? ->], He as [? ->].
  rewrite Hrun. cbn [bind].
  unfold subscript. rewrite Hd. cbn [bind]. rewrite num_eqb_Int_inf.
  rewrite (walk_back_chain _ _ _ _ _ Hc)
    by (pose proof (dinv_visited_size _ _ _ Hinv); lia).
  simpl. eexists _, d. split; [done|]. simpl. auto.
Qed.

(** Uniform-cost search answers [None] for a missing endpoint. *)
Lemma dijkstra_absent g start end_ :
  adjacency_list g !! start = None ∨ adjacency_list g !! end_ = None ->
  dijkstra g start end_ = Ok None.
Proof.
  unfold dijkstra. intros [-> | ->]; [done|]. by destruct (adjacency_list g !! start).
Qed.



(** With a sane [pow] the Euclidean estimate returns a number or
    raises [OverflowError]: the sum of the two squares is not negative,
    so its root is no complex number. *)
Lemma euclidean_estimate libm_pow :
  pow_sane libm_pow -> estimate (euclidean_heuristic libm_pow).
Proof.
  intros Hpow g a b. unfold euclidean_heuristic.
  destruct (node_positions g !! a) as [[x1 y1]|]; [|eauto].
  destruct (node_positions g !! b) as [[x2 y2]|]; [|eauto].
  destruct (num_sub_cases x2 x1) as [[dx ->]| ->]; cbn [bind]; [|by right].
  destruct (num_square_cases libm_pow dx Hpow) as [(sx & -> & Hsx)| ->];
    cbn [bind]; [|by right].
  destruct (num_sub_cases y2 y1) as [[dy ->]| ->]; cbn [bind]; [|by right].
  destruct (num_square_cases libm_pow dy Hpow) as [(sy & -> & Hsy)| ->];
    cbn [bind]; [|by right].
  destruct (num_add_cases sx sy) as [[t Ht]|[-> _]]; [|by right].
  rewrite Ht. cbn [bind].
  destruct (num_pow_half_cases libm_pow t) as [[r ->]| ->]; cbn [bind]; eauto.
  exact (num_add_not_neg sx sy t Hsx Hsy Ht).
Qed.

Lemma manhattan_estimate : estimate manhattan_heuristic.
Proof.
  intros g a b. unfold manhattan_heuristic.
  destruct (node_positions g !! a) as [[x1 y1]|]; [|eauto].
  destruct (node_positions g !! b) as [[x2 y2]|]; [|eauto].
  destruct (num_sub_cases x2 x1) as [[dx ->]| ->]; cbn [bind]; [|by right].
  destruct (num_sub_cases y2 y1) as [[dy ->]| ->]; cbn [bind]; [|by right].
  destruct (num_add_cases (num_abs dx) (num_abs dy)) as [[t ->]|[-> _]]; eauto.
Qed.

(** On int coordinates the Manhattan estimate is an int. *)
Lemma manhattan_int_estimate g :
  int_positions g -> int_estimate g manhattan_heuristic.
Proof.
  intros Hpos a b. unfold manhattan_heuristic.
  destruct (node_positions g !! a) as [[x1 y1]|] eqn:Ea; [|eauto].
  destruct (node_positions g !! b) as [[x2 y2]|] eqn:Eb; [|eauto].
  destruct (Hpos _ _ _ Ea) as (? & ? & -> & ->).
  destruct (Hpos _ _ _ Eb) as (? & ? & -> & ->). cbn. eauto.
Qed.

Lemma select_heuristic_estimate libm_pow heuristic :
  pow_sane libm_pow -> estimate (select_heuristic libm_pow heuristic).
Proof.
  intros Hpow. unfold select_heuristic. destruct (String.eqb heuristic "manhattan").
  - apply manhattan_estimate.
  - by apply euclidean_estimate.
Qed.

Lemma select_heuristic_manhattan libm_pow :
  select_heuristic libm_pow "manhattan" = manhattan_heuristic.
Proof. done. Qed.

Section AstarWeak.
Variable g : Graph.
Variable heuristic_fn : Graph -> string -> string -> outcome num.
Variable start end_ : string.
Variable heuristic : string.
Hypothesis Hclosed : closed g.
Hypothesis Hest : estimate heuristic_fn.

Lemma astar_relax_step cur st v w :
  ainv g start st -> cur ∈ closed_set st -> arc g cur v w ->
  (int_weights g -> forall d, g_score st !! cur = Some d -> exists z, d = Int z) ->
  (exists st', astar_relax g heuristic_fn end_ cur st (v, w) = Ok st' ∧
     ainv g start st' ∧ closed_set st' = closed_set st ∧
     (astar_measure g st' <= astar_measure g st)%nat) ∨
  (astar_relax g heuristic_fn end_ cur st (v, w) = OverflowError ∧
   ~ exact_search g heuristic_fn).
Proof.
  intros Hinv Hcur Harc Hgint. unfold astar_relax.
  destruct (decide (v ∈ closed_set st)) as [Hv|Hv]; [left; by exists st|].
  destruct (Hclosed _ _ _ Harc) as [Hc Hvk].
  assert (Hr : reachable g start v).
  { eapply reach_step; [|exact Harc]. by apply (ainv_closed _ _ _ Hinv). }
  destruct (proj2 (ainv_dom _ _ _ Hinv cur) Hc) as [gc Hgc].
  destruct (proj2 (ainv_dom _ _ _ Hinv v) Hvk) as [gn Hgn].
  unfold subscript. rewrite Hgc. cbn [bind].
  destruct (num_add_cases gc w) as [[t Ht]|[Ht Hno]]; rewrite Ht; cbn [bind].
  2:{ right. split; [done|]. intros [Hint _]. apply Hno.
      destruct (Hgint Hint _ Hgc) as [x ->]. destruct (Hint _ _ _ Harc) as [y ->].
      eauto. }
  rewrite Hgn. cbn [bind].
  destruct (num_ltb t gn); [|left; by exists st].
  destruct (Hest g v end_) as [[h Hh]|Hh]; rewrite Hh; cbn [bind].
  2:{ right. split; [done|]. intros [_ Hie]. destruct (Hie v end_) as [z Hz].
      congruence. }
  destruct (num_add_cases t h) as [[f Hf]|[Hf Hno]]; rewrite Hf; cbn [bind].
  2:{ right. split; [done|]. intros [Hint Hie]. apply Hno.
      destruct (Hgint Hint _ Hgc) as [x ->]. destruct (Hint _ _ _ Harc) as [y ->].
      rewrite num_add_Int in Ht. injection Ht as <-.
      destruct (Hie v end_) as [z Hz]. rewrite Hz in Hh. injection Hh as <-.
      eauto. }
  left.
  assert (Hdom : forall n, is_Some (<[v := t]> (g_score st) !! n) <->
                           is_Some (adjacency_list g !! n)).
  { intros n. rewrite lookup_insert. case_decide as E; [subst|apply Hinv].
    split; eauto. }
  cbn [open_set_hash].
  destruct (decide (v ∈ open_set_hash st)) as [Ho|Ho].
  - eexists. split; [done|]. split; [|done]. constructor; simpl; [done|apply Hinv..].
  - eexists. split; [done|]. split; [|split; [done|]].
    + constructor; simpl; [done| |apply Hinv].
      intros k n [[= -> ->]|H]%elem_of_heappush; [done|]. by eapply Hinv.
    + unfold astar_measure. simpl. rewrite length_heappush.
      assert (Hsplit : dom (adjacency_list g) ∖ (closed_set st ∪ open_set_hash st)
                = {[v]} ∪ dom (adjacency_list g) ∖ (closed_set st ∪ ({[v]} ∪ open_set_hash st))).
      { apply set_eq. intros x. rewrite !elem_of_union, !elem_of_difference,
          !elem_of_union, elem_of_singleton, elem_of_dom.
        destruct (decide (x = v)) as [->|]; naive_solver. }
      rewrite Hsplit.
      rewrite (size_union (C := gset string) {[v]}) by set_solver.
      rewrite size_singleton. lia.
Qed.
End AstarWeak.

Lemma ainv_init g start h0 :
  is_Some (adjacency_list g !! start) -> ainv g start (astar_init g start h0).
Proof.
  intros Hs. constructor; simpl.
  - intros n. rewrite lookup_insert. case_decide as E; [subst; split; eauto|].
    by rewrite lookup_fmap, fmap_is_Some.
  - intros k n [= -> ->]%list_elem_of_singleton. split; [done|constructor].
  - set_solver.
Qed.

Lemma astar_measure_init g start h0 :
  is_Some (adjacency_list g !! start) ->
  (astar_measure g (astar_init g start h0) < 2 * size (adjacency_list g))%nat.
Proof.
  intros Hs. unfold astar_measure. simpl.
  assert (Hsplit : dom (adjacency_list g)
            = {[start]} ∪ dom (adjacency_list g) ∖ (∅ ∪ {[start]})).
  { apply set_eq. intros x. rewrite elem_of_union, elem_of_difference,
      elem_of_union, elem_of_singleton, elem_of_dom.
    destruct (decide (x = start)) as [->|]; set_solver. }
  pose proof (f_equal size Hsplit) as Hsz.
  rewrite (size_union (C := gset string) {[start]}) in Hsz by set_solver.
  rewrite size_singleton, size_dom in Hsz. lia.
Qed.

(** Guided search answers [None] for a missing endpoint. *)
Lemma astar_absent libm_pow g start end_ heuristic :
  adjacency_list g !! start = None ∨ adjacency_list g !! end_ = None ->
  astar libm_pow g start end_ heuristic = Ok None.
Proof.
  unfold astar. intros [-> | ->]; [done|]. by destruct (adjacency_list g !! start).
Qed.

Lemma size_pos_lookup {V} (m : gmap string V) s :
  is_Some (m !! s) -> exists n, size m = S n.
Proof.
  intros [v Hv]. destruct (size m) eqn:E; [|eauto].
  apply map_size_empty_iff in E. subst. by rewrite lookup_empty in Hv.
Qed.

(** An estimate from a node to itself does not raise: it is a zero, or
    a NaN when a coordinate is infinite or a NaN. *)
Lemma euclidean_self libm_pow g s :
  exists h0, euclidean_heuristic libm_pow g s s = Ok h0 ∧ null h0.
Proof.
  unfold euclidean_heuristic.
  destruct (node_positions g !! s) as [[x y]|]; [|by exists (Int 0)].
  destruct (num_sub_diag x) as (dx & -> & Hdx). cbn [bind].
  destruct (num_square_null libm_pow dx Hdx) as (sx & -> & Hsx). cbn [bind].
  destruct (num_sub_diag y) as (dy & -> & Hdy). cbn [bind].
  destruct (num_square_null libm_pow dy Hdy) as (sy & -> & Hsy). cbn [bind].
  destruct (num_add_null sx sy Hsx Hsy) as (t & -> & Ht). cbn [bind].
  destruct (num_pow_half_null libm_pow t Ht) as (r & -> & Hr). cbn [bind].
  by exists (Flt r).
Qed.

Lemma manhattan_self g s :
  exists h0, manhattan_heuristic g s s = Ok h0 ∧ null h0.
Proof.
  unfold manhattan_heuristic.
  destruct (node_positions g !! s) as [[x y]|]; [|by exists (Int 0)].
  destruct (num_sub_diag x) as (dx & -> & Hdx). cbn [bind].
  destruct (num_sub_diag y) as (dy & -> & Hdy). cbn [bind].
  apply num_add_null; by apply num_abs_null.
Qed.

Lemma select_heuristic_self libm_pow heuristic g s :
  exists h0, select_heuristic libm_pow heuristic g s s = Ok h0.
Proof.
  unfold select_heuristic. destruct (String.eqb heuristic "manhattan").
  - destruct (manhattan_self g s) as (h0 & ? & _). eauto.
  - destruct (euclidean_self libm_pow g s) as (h0 & ? & _). eauto.
Qed.

Lemma heappop_singleton {E} (lt : E -> E -> bool) x :
  heappop lt [x] = Some (x, []).
Proof. done. Qed.

Lemma search_same g s :
  is_Some (adjacency_list g !! s) ->
  dijkstra g s s =
    Ok (Some {| path := [s]; distance := Int 0; nodes_explored := 1;
                algorithm := "dijkstra" |}) ∧
  forall libm_pow heuristic,
    astar libm_pow g s s heuristic =
    Ok (Some {| path := [s]; distance := Int 0; nodes_explored := 1;
                algorithm := String.append "astar_" heuristic |}).
Proof.
  intros Hs. destruct (size_pos_lookup _ _ Hs) as [n Hn]. destruct Hs as [L HL].
  split.
  - unfold dijkstra. rewrite HL. cbn [while_loop Nat.add bind].
    unfold dijkstra_body, dijkstra_init. cbn [priority_queue visited].
    rewrite heappop_singleton.
    rewrite decide_False by set_solver. rewrite String.eqb_refl. cbn [bind].
    unfold subscript. cbn [distances previous d_explored].
    rewrite lookup_insert_eq. cbn [bind]. rewrite num_eqb_Int_inf.
    rewrite Hn. cbn [walk_back].
    unfold subscript. rewrite lookup_fmap, HL. simpl. by destruct n.
  - intros libm_pow heuristic. unfold astar. rewrite HL, Hn.
    destruct (select_heuristic_self libm_pow heuristic g s) as [h0 ->].
    cbn [while_loop Nat.mul Nat.add bind].
    unfold astar_body, astar_init. cbn [open_set open_set_hash].
    rewrite heappop_singleton.
    rewrite decide_True by set_solver. rewrite String.eqb_refl.
    cbn [a_previous g_score a_explored walk_back]. unfold subscript.
    rewrite lookup_fmap, HL. simpl. rewrite lookup_insert_eq. by destruct n.
Qed.

(** C10: for a node [s] of the graph, [dijkstra g s s] and
    [astar g s s h] for every tag [h] (and whatever the C library's
    [pow] is) return the path [[s]], the int distance 0 and one explored
    node. *)
Theorem search_same_node (g : Graph) (s : string) :
  is_Some (adjacency_list g !! s) ->
  dijkstra g s s =
    Ok (Some {| path := [s]; distance := Int 0; nodes_explored := 1;
                algorithm := "dijkstra" |}) ∧
  forall libm_pow heuristic,
    astar libm_pow g s s heuristic =
    Ok (Some {| path := [s]; distance := Int 0; nodes_explored := 1;
                algorithm := String.append "astar_" heuristic |}).
Proof. apply search_same. Qed.


Lemma trail_reachable g s v p : trail g s v p -> reachable g s v.
Proof. induction 1; [constructor|by econstructor]. Qed.

Lemma path_from_trail g s v p d : path_from g s v p d -> trail g s v p.
Proof. induction 1; [constructor|by econstructor]. Qed.

Lemma trail_ends g s v p : trail g s v p -> head p = Some s ∧ last p = Some v.
Proof.
  induction 1 as [|u v w p Hp [Hh Hl] Ha]; [done|]. split.
  - destruct p; [done|]. done.
  - by rewrite last_snoc.
Qed.

Lemma chain_functional P n l1 : chain P n l1 -> forall l2, chain P n l2 -> l1 = l2.
Proof.
  induction 1 as [n Hn|n u l Hn Hc IH]; intros l2 H2; inversion H2; subst;
    try congruence.
  f_equal. apply IH. congruence.
Qed.

Lemma chain_from_member P n l x :
  chain P n l -> x ∈ l -> exists l', chain P x l' ∧ (length l' <= length l)%nat.
Proof.
  induction 1 as [n Hn|n u l Hn Hc IH]; intros Hx.
  - apply list_elem_of_singleton in Hx as ->. exists [n]. split; [by constructor|done].
  - apply elem_of_cons in Hx as [->|Hx].
    + exists (n :: l). split; [by econstructor|done].
    + destruct (IH Hx) as (l' & ? & ?). exists l'. split; [done|simpl; lia].
Qed.

Lemma chain_NoDup P n l : chain P n l -> NoDup l.
Proof.
  induction 1 as [n Hn|n u l Hn Hc IH].
  - apply NoDup_singleton.
  - apply NoDup_cons. split; [|done]. intros Hin.
    destruct (chain_from_member _ _ _ _ Hc Hin) as (l' & Hc' & Hlen).
    assert (l' = n :: l) as -> by (eapply chain_functional; [exact Hc'|by econstructor]).
    simpl in Hlen. lia.
Qed.

Lemma NoDup_length_size (l : list string) (X : gset string) :
  NoDup l -> (forall x, x ∈ l -> x ∈ X) -> (length l <= size X)%nat.
Proof.
  intros Hnd Hsub. rewrite <- (size_list_to_set (C := gset string) l Hnd).
  apply subseteq_size. intros x Hx. apply Hsub. by apply elem_of_list_to_set in Hx.
Qed.

Lemma a_tracked_mono g start st st' n :
  g_score st' !! n = g_score st !! n ->
  (forall l, chain (a_previous st) n (n :: l) ->
             Forall (fun x => x ∈ closed_set st) l ->
             chain (a_previous st') n (n :: l)) ->
  closed_set st ⊆ closed_set st' ->
  a_tracked g start st n -> a_tracked g start st' n.
Proof.
  intros HG HP HC (d & l & Hd & Hc & Hall & Hpath & Hint).
  exists d, l. split; [congruence|]. split; [auto|]. split; [|done].
  eapply Forall_impl; [exact Hall|]. set_solver.
Qed.

Section AstarFull.
Variable g : Graph.
Variable heuristic_fn : Graph -> string -> string -> outcome num.
Variable start end_ : string.
Variable heuristic : string.
Hypothesis Hclosed : closed g.
Hypothesis Hest : estimate heuristic_fn.

Lemma afull_relax cur v w pend st st' :
  afull g start end_ cur ((v, w) :: pend) st -> cur ∈ closed_set st ->
  arc g cur v w ->
  astar_relax g heuristic_fn end_ cur st (v, w) = Ok st' ->
  ainv g start st' ->
  afull g start end_ cur pend st'.
Proof.
  intros Hf Hcur Harc Heq Hinv'.
  assert (Hskip : (int_weights g -> v ∈ closed_set st ∨ v ∈ open_set_hash st) ->
                  afull g start end_ cur pend st).
  { intros Hv. destruct Hf. constructor; try done.
    intros Hint u v' w' Hu Ha.
    destruct (af_arcs0 Hint _ _ _ Hu Ha) as [?|[-> Hin]]; [by left|].
    apply elem_of_cons in Hin as [[= -> ->]|Hin]; [left; by apply Hv|by right]. }
  unfold astar_relax in Heq.
  destruct (decide (v ∈ closed_set st)) as [Hv|Hv];
    [injection Heq as <-; apply Hskip; by left|].
  destruct (af_tracked _ _ _ _ _ _ Hf cur (or_introl Hcur))
    as (gc & lc & Hgc & Hcc & Hallc & Htc & Hic).
  unfold subscript in Heq. rewrite Hgc in Heq. cbn [bind] in Heq.
  destruct (num_add gc w) as [t| | | |] eqn:Ht; cbn [bind] in Heq; try done.
  destruct (g_score st !! v) as [gn|] eqn:Hgn; [|done]. cbn [bind] in Heq.
  assert (Hti : int_weights g ->
            exists zc w0, gc = Int zc ∧ w = Int w0 ∧ t = Int (zc + w0) ∧
              path_from g start cur (rev (cur :: lc)) zc).
  { intros Hint. destruct (Hic Hint) as (zc & -> & Hp).
    destruct (Hint _ _ _ Harc) as [w0 ->]. rewrite num_add_Int in Ht.
    injection Ht as <-. eauto 10. }
  destruct (num_ltb t gn) eqn:Hlt.
  2:{ injection Heq as <-. apply Hskip. intros Hint.
      destruct (Hti Hint) as (zc & w0 & _ & _ & -> & _).
      destruct (af_finite _ _ _ _ _ _ Hf _ _ Hgn) as [->|?]; [|done].
      by rewrite num_ltb_Int_inf in Hlt. }
  destruct (heuristic_fn g v end_) as [h| | | |]; cbn [bind] in Heq; try done.
  destruct (num_add t h) as [f| | | |]; cbn [bind] in Heq; try done.
  cbn [open_set_hash] in Heq.
  set (G' := <[v := t]> (g_score st)) in *.
  set (P' := <[v := Some cur]> (a_previous st)) in *.
  assert (Hne : cur ≠ v) by (intros ->; done).
  assert (Htr : forall st'',
            g_score st'' = G' -> a_previous st'' = P' ->
            closed_set st'' = closed_set st ->
            forall n, n = v ∨ n ∈ closed_set st ∨ n ∈ open_set_hash st ->
            a_tracked g start st'' n).
  { intros st'' EG EP EC n Hn.
    destruct (decide (n = v)) as [->|Hnv].
    - exists t, (cur :: lc). rewrite EG, EP, EC. unfold G', P'.
      rewrite lookup_insert_eq. split; [done|]. split; [|split; [|split]].
      + apply chain_step with cur; [by rewrite lookup_insert_eq|].
        apply chain_insert; [done|]. intros [->|Hin]%elem_of_cons; [done|].
        rewrite Forall_forall in Hallc. by apply Hallc in Hin.
      + by apply Forall_cons.
      + change (rev (v :: cur :: lc)) with (rev (cur :: lc) ++ [v]).
        by apply trail_step with cur w.
      + intros Hint. destruct (Hti Hint) as (zc & w0 & -> & -> & -> & Hp).
        exists (zc + w0). split; [done|].
        change (rev (v :: cur :: lc)) with (rev (cur :: lc) ++ [v]).
        by apply path_step with cur (Int w0).
    - destruct Hn as [?|Hn]; [done|].
      destruct (af_tracked _ _ _ _ _ _ Hf n Hn) as (d & l & Hd & Hc & Hall & Hp & Hi).
      exists d, l. rewrite EG, EP, EC. unfold G', P'.
      rewrite lookup_insert_ne by done. split; [done|]. split; [|done].
      apply chain_insert; [done|]. intros [->|Hin]%elem_of_cons; [done|].
      rewrite Forall_forall in Hall. by apply Hall in Hin. }
  destruct (decide (v ∈ open_set_hash st)) as [Ho|Ho]; injection Heq as <-.
  - destruct Hf. constructor; cbn.
    + done.
    + done.
    + done.
    + intros n Hn. apply Htr; cbn; auto.
    + intros n d. unfold G'. rewrite lookup_insert. case_decide; [subst; auto|eauto].
    + done.
    + done.
    + done.
    + intros Hint u v' w' Hu Ha.
      destruct (af_arcs0 Hint _ _ _ Hu Ha) as [?|[-> Hin]]; [by left|].
      apply elem_of_cons in Hin as [[= -> ->]|Hin]; [left; by right|by right].
  - destruct Hf. constructor; cbn.
    + done.
    + intros n [->%elem_of_singleton|Hn]%elem_of_union; [done|auto].
    + intros n [->%elem_of_singleton|Hn]%elem_of_union.
      * eexists. apply elem_of_heappush. by left.
      * destruct (af_entry0 _ Hn) as [k Hk]. exists k.
        apply elem_of_heappush. by right.
    + intros n Hn. apply Htr; cbn; auto. set_solver.
    + intros n d. unfold G'. rewrite lookup_insert.
      case_decide; [subst; set_solver|]. intros Hd.
      destruct (af_finite0 _ _ Hd) as [?|[?|?]]; set_solver.
    + set_solver.
    + done.
    + done.
    + intros Hint u v' w' Hu Ha.
      destruct (af_arcs0 Hint _ _ _ Hu Ha) as [[?|?]|[-> Hin]]; [set_solver..|].
      apply elem_of_cons in Hin as [[= -> ->]|Hin]; [set_solver|by right].
Qed.

Lemma afull_for_each cur pend : forall st,
  afull g start end_ cur pend st -> cur ∈ closed_set st ->
  (forall x, x ∈ pend -> x ∈ get_neighbors g cur) ->
  (exists st', for_each (astar_relax g heuristic_fn end_ cur) pend st = Ok st' ∧
     afull g start end_ cur [] st' ∧
     (astar_measure g st' <= astar_measure g st)%nat) ∨
  (for_each (astar_relax g heuristic_fn end_ cur) pend st = OverflowError ∧
   ~ exact_search g heuristic_fn).
Proof.
  induction pend as [|[v w] pend IH]; intros st Hf Hcur Hpend; cbn [for_each].
  - left. by exists st.
  - assert (Harc : arc g cur v w) by (apply Hpend; set_solver).
    assert (Hgint : int_weights g -> forall d,
              g_score st !! cur = Some d -> exists z, d = Int z).
    { intros Hint d Hd.
      destruct (af_tracked _ _ _ _ _ _ Hf cur (or_introl Hcur))
        as (gc & lc & Hgc & _ & _ & _ & Hic).
      destruct (Hic Hint) as (z & -> & _). rewrite Hgc in Hd. injection Hd as <-.
      eauto. }
    destruct (astar_relax_step g heuristic_fn start end_ Hclosed Hest cur st v w
                (af_weak _ _ _ _ _ _ Hf) Hcur Harc Hgint)
      as [(st1 & Heq & Hinv1 & Hc1 & Hmu1)|[-> Hno]]; [|by right].
    pose proof (afull_relax _ _ _ _ _ _ Hf Hcur Harc Heq Hinv1) as Hf1.
    rewrite Heq. cbn [bind].
    destruct (IH st1 Hf1) as [(st2 & -> & Hf2 & Hmu2)|[-> Hno]];
      [by rewrite Hc1|intros x Hx; apply Hpend; set_solver| |by right].
    left. exists st2. split; [done|]. split; [done|lia].
Qed.

Lemma afull_all_closed cur st v :
  int_weights g ->
  afull g start end_ cur [] st -> open_set st = [] ->
  reachable g start v -> v ∈ closed_set st.
Proof.
  intros Hint Hf Hq Hr.
  assert (Hno : forall n, n ∉ open_set_hash st).
  { intros n Hn. destruct (af_entry _ _ _ _ _ _ Hf n Hn) as [k Hk].
    rewrite Hq in Hk. set_solver. }
  induction Hr as [|u v w Hr IH Ha].
  - destruct (af_start _ _ _ _ _ _ Hf) as [?|?]; [done|by apply Hno in H].
  - destruct (af_arcs _ _ _ _ _ _ Hf Hint _ _ _ IH Ha) as [[?|?]|[_ ?]];
      [done|by apply Hno in H|set_solver].
Qed.

Lemma afull_body_step st cur :
  afull g start end_ cur [] st ->
  (exists st' cur',
     astar_body g heuristic_fn end_ heuristic (size (adjacency_list g)) st
       = Ok (Next st') ∧
     afull g start end_ cur' [] st' ∧
     (astar_measure g st' < astar_measure g st)%nat) ∨
  (exists o,
     astar_body g heuristic_fn end_ heuristic (size (adjacency_list g)) st
       = Ok (Stop o) ∧
     astar_post g start end_ heuristic o) ∨
  (astar_body g heuristic_fn end_ heuristic (size (adjacency_list g)) st
     = OverflowError ∧ ~ exact_search g heuristic_fn).
Proof.
  intros Hf. pose proof (af_weak _ _ _ _ _ _ Hf) as Hinv. unfold astar_body.
  destruct (heappop entry_ltb (open_set st)) as [[[k n] q]|] eqn:Hpop.
  2:{ right. left. exists None. split; [done|]. intros Hint Hreach.
      apply heappop_None in Hpop.
      by apply (af_end _ _ _ _ _ _ Hf), (afull_all_closed cur). }
  pose proof (heappop_perm _ _ _ _ Hpop) as HP.
  assert (Hsub : forall e, e ∈ q -> e ∈ open_set st)
    by (intros e He; rewrite HP; set_solver).
  assert (Hin : (k, n) ∈ open_set st) by (rewrite HP; set_solver).
  assert (Hlen : length (open_set st) = S (length q)) by by rewrite HP.
  assert (Hrest : forall m k', m ≠ n -> (k', m) ∈ open_set st -> (k', m) ∈ q).
  { intros m k' Hm Hk. rewrite HP in Hk.
    apply elem_of_cons in Hk as [[= -> ->]|Hk]; done. }
  destruct (ainv_open _ _ _ Hinv _ _ Hin) as [Hkey Hreach].
  destruct (decide (n ∈ open_set_hash st)) as [Hn|Hn].
  2:{ left. eexists _, cur. split; [done|]. split.
      - destruct Hf. constructor; cbn; [|done| |done..].
        + constructor; cbn; try apply Hinv.
          intros k' x Hx. apply (ainv_open _ _ _ Hinv k'). auto.
        + intros m Hm. destruct (af_entry0 _ Hm) as [k' Hk']. exists k'.
          apply Hrest; [|done]. by intros ->.
      - unfold astar_measure. cbn. lia. }
  pose proof (af_disj _ _ _ _ _ _ Hf n Hn) as HnC.
  destruct (af_tracked _ _ _ _ _ _ Hf n (or_intror Hn))
    as (d & l & Hd & Hc & Hall & Hp & Hi).
  assert (Hcdom : forall x, x ∈ closed_set st -> x ∈ dom (adjacency_list g)).
  { intros x Hx. apply elem_of_dom. by apply (ainv_closed _ _ _ Hinv). }
  destruct (String.eqb_spec n end_) as [->|Hne].
  { right. left. cbn [a_previous g_score a_explored].
    pose proof (chain_NoDup _ _ _ Hc) as Hnd.
    assert (Hfuel : (length (end_ :: l) <= size (adjacency_list g))%nat).
    { rewrite <- size_dom. apply NoDup_length_size; [done|].
      intros x [->|Hx]%elem_of_cons; [by apply elem_of_dom|].
      rewrite Forall_forall in Hall. auto. }
    rewrite (walk_back_chain _ _ _ _ _ Hc Hfuel). cbn [bind app].
    unfold subscript. rewrite Hd. cbn [bind]. eexists. split; [done|].
    cbn. split; [done|].
    split; [change (rev l ++ [end_]) with (rev (end_ :: l));
            by apply NoDup_ListNoDup, NoDup_rev, NoDup_ListNoDup|].
    apply NoDup_cons in Hnd as [Hnl Hnd].
    assert (Hl : (length l <= size (closed_set st))%nat).
    { apply NoDup_length_size; [done|]. by apply Forall_forall. }
    rewrite (af_count _ _ _ _ _ _ Hf).
    split; [rewrite length_app, length_rev; simpl; lia|].
    assert (Hsz : (size ({[end_]} ∪ closed_set st) <= size (dom (adjacency_list g)))%nat).
    { apply subseteq_size. intros x [->%elem_of_singleton|Hx]%elem_of_union;
        [by apply elem_of_dom|auto]. }
    rewrite (size_union (C := gset string) {[end_]}) in Hsz by set_solver.
    rewrite size_singleton, size_dom in Hsz.
    split; [lia|]. split; [done|].
    intros Hint. destruct (Hi Hint) as (z & -> & Hpz). eauto. }
  set (st2 := MkA (g_score st) (f_score st) (a_previous st) q
                  (open_set_hash st ∖ {[n]}) ({[n]} ∪ closed_set st)
                  (S (a_explored st))).
  assert (Hf2 : afull g start end_ n (get_neighbors g n) st2).
  { destruct Hf. constructor; cbn.
    - constructor; cbn; try apply Hinv.
      + intros k' x Hx. apply (ainv_open _ _ _ Hinv k'). auto.
      + intros m [->%elem_of_singleton|Hm]%elem_of_union; [done|].
        by apply (ainv_closed _ _ _ Hinv).
    - intros m [Hm Hmn]%elem_of_difference. apply af_disj0 in Hm. set_solver.
    - intros m [Hm Hmn]%elem_of_difference. destruct (af_entry0 _ Hm) as [k' Hk'].
      exists k'. apply Hrest; [set_solver|done].
    - intros m Hm. eapply a_tracked_mono; [..|apply (af_tracked0 m)]; cbn;
        [done|done|set_solver|].
      destruct (decide (m = n)) as [->|]; [by right|]. set_solver.
    - intros m d' Hd'. destruct (af_finite0 _ _ Hd') as [?|[?|?]];
        [by left|set_solver|].
      destruct (decide (m = n)) as [->|]; set_solver.
    - destruct af_start0; [set_solver|].
      destruct (decide (start = n)) as [->|]; set_solver.
    - set_solver.
    - rewrite (size_union (C := gset string) {[n]}) by set_solver.
      rewrite size_singleton. lia.
    - intros Hint u v w [->%elem_of_singleton|Hu]%elem_of_union Ha; [by right|].
      destruct (af_arcs0 Hint _ _ _ Hu Ha) as [[?|?]|[_ ?]]; [set_solver| |set_solver].
      left. destruct (decide (v = n)) as [->|]; set_solver. }
  destruct (afull_for_each n (get_neighbors g n) st2 Hf2)
    as [(st3 & Heq & Hf3 & Hmu3)|[Heq Hno]]; [cbn; set_solver|done| |].
  2:{ right. right.
      cbn [open_set open_set_hash closed_set g_score f_score a_previous a_explored].
      fold st2. rewrite Heq. by cbn [bind]. }
  left.
  cbn [open_set open_set_hash closed_set g_score f_score a_previous a_explored].
  fold st2. rewrite Heq. cbn [bind]. exists st3, n. split; [done|]. split; [done|].
  assert (Hsame : dom (adjacency_list g) ∖ (({[n]} ∪ closed_set st) ∪ open_set_hash st ∖ {[n]})
            = dom (adjacency_list g) ∖ (closed_set st ∪ open_set_hash st)).
  { apply set_eq. intros x. rewrite !elem_of_difference, !elem_of_union,
      !elem_of_difference, elem_of_singleton.
    destruct (decide (x = n)) as [->|]; naive_solver. }
  unfold astar_measure in *. cbn in Hmu3. rewrite Hsame in Hmu3. lia.
Qed.
End AstarFull.

Lemma afull_init g start end_ h0 :
  is_Some (adjacency_list g !! start) ->
  afull g start end_ start [] (astar_init g start h0).
Proof.
  intros Hs. destruct Hs as [L HL].
  constructor; cbn.
  - apply ainv_init. by rewrite HL.
  - set_solver.
  - intros n Hn. apply elem_of_singleton in Hn as ->. exists h0. set_solver.
  - intros n [?| ->%elem_of_singleton]; [set_solver|]. exists (Int 0), []. cbn.
    rewrite lookup_insert_eq. split; [done|]. split; [|split; [done|split]].
    + apply chain_root. by rewrite lookup_fmap, HL.
    + constructor.
    + intros _. exists 0. split; [done|constructor].
  - intros n d. rewrite lookup_insert. case_decide as E; [subst; set_solver|].
    rewrite lookup_fmap. destruct (adjacency_list g !! n); [|done].
    intros [= <-]. by left.
  - set_solver.
  - set_solver.
  - done.
  - set_solver.
Qed.

(** What a run of [astar] on present endpoints amounts to. *)
Lemma astar_run libm_pow g start end_ heuristic :
  pow_sane libm_pow ->
  built g -> is_Some (adjacency_list g !! start) -> is_Some (adjacency_list g !! end_) ->
  (exists o, astar libm_pow g start end_ heuristic = Ok o ∧
     astar_post g start end_ heuristic o) ∨
  (astar libm_pow g start end_ heuristic = OverflowError ∧
   ~ exact_search g (select_heuristic libm_pow heuristic)).
Proof.
  intros Hpow Hb Hs He. unfold astar. destruct Hs as [Ls Hs], He as [Le He].
  rewrite Hs, He. cbv zeta. set (hf := select_heuristic libm_pow heuristic).
  destruct (select_heuristic_estimate libm_pow heuristic Hpow g start end_)
    as [[h0 Hh0]|Hh0]; fold hf in Hh0; rewrite Hh0; cbn [bind].
  2:{ right. split; [done|]. intros [_ Hie]. destruct (Hie start end_) as [z Hz].
      congruence. }
  apply (while_loop_rule
           (astar_body g hf end_ heuristic (size (adjacency_list g)))
           (fun st => exists cur, afull g start end_ cur [] st)
           (astar_measure g) (astar_post g start end_ heuristic)
           (~ exact_search g hf)).
  - intros st [cur Hf].
    destruct (afull_body_step g hf start end_ heuristic (built_closed _ Hb)
                (select_heuristic_estimate libm_pow heuristic Hpow) st cur Hf)
      as [(st' & cur' & ? & ? & ?)|[(o & ? & ?)|[? ?]]];
      [left|right; left|right; right]; eauto.
  - exists start. apply afull_init. by rewrite Hs.
  - apply astar_measure_init. by rewrite Hs.
Qed.

Lemma astar_some_post libm_pow g start end_ heuristic r :
  pow_sane libm_pow ->
  built g -> astar libm_pow g start end_ heuristic = Ok (Some r) ->
  astar_post g start end_ heuristic (Some r).
Proof.
  intros Hpow Hb Hr.
  destruct (adjacency_list g !! start) as [Ls|] eqn:Hs;
    [|by rewrite astar_absent in Hr by auto].
  destruct (adjacency_list g !! end_) as [Le|] eqn:He;
    [|by rewrite astar_absent in Hr by auto].
  destruct (astar_run libm_pow g start end_ heuristic Hpow Hb)
    as [(o & Ho & Hpost)|[Ho _]];
    [by rewrite Hs|by rewrite He| |congruence].
  rewrite Ho in Hr. injection Hr as ->. exact Hpost.
Qed.

(** For an unreachable target guided search answers [None], unless it
    raised [OverflowError] on the way. *)
Lemma astar_unreachable libm_pow g start end_ heuristic :
  pow_sane libm_pow -> built g -> ~ reachable g start end_ ->
  astar libm_pow g start end_ heuristic = Ok None ∨
  (astar libm_pow g start end_ heuristic = OverflowError ∧
   ~ exact_search g (select_heuristic libm_pow heuristic)).
Proof.
  intros Hpow Hb Hun.
  destruct (adjacency_list g !! start) as [Ls|] eqn:Hs;
    [|left; apply astar_absent; auto].
  destruct (adjacency_list g !! end_) as [Le|] eqn:He;
    [|left; apply astar_absent; auto].
  destruct (astar_run libm_pow g start end_ heuristic Hpow Hb) as [(o & Ho & Hpost)|?];
    [by rewrite Hs|by rewrite He| |by right].
  left. destruct o as [r|]; [|done].
  destruct Hpost as (Ht & _). destruct Hun. by eapply trail_reachable.
Qed.

(** With int weights, int coordinates and the Manhattan estimate nothing
    raises. *)
Lemma manhattan_exact libm_pow g :
  int_weights g -> int_positions g ->
  exact_search g (select_heuristic libm_pow "manhattan").
Proof. intros Hint Hpos. split; [done|]. by apply manhattan_int_estimate. Qed.


Lemma astar_body_label g hf end_ tag tag' nodes st :
  astar_body g hf end_ tag nodes st =
  match astar_body g hf end_ tag' nodes st with
  | Ok (Stop r) => c <- relabel (String.append "astar_" tag) (Ok r) ;; Ok (Stop c)
  | other => other
  end.
Proof.
  unfold astar_body.
  destruct (heappop entry_ltb (open_set st)) as [[[k n] q]|]; [|done].
  destruct (decide (n ∈ open_set_hash st)); [|done].
  destruct (String.eqb n end_).
  - destruct (walk_back _ _ _ _); simpl; try done.
    by destruct (subscript _ _).
  - by destruct (for_each _ _ _) as [st3| | | |].
Qed.

Lemma while_loop_label g hf end_ tag tag' nodes fuel : forall st,
  while_loop (astar_body g hf end_ tag nodes) fuel st =
  relabel (String.append "astar_" tag)
    (while_loop (astar_body g hf end_ tag' nodes) fuel st).
Proof.
  induction fuel as [|fuel IH]; intros st; [done|]. cbn [while_loop].
  rewrite (astar_body_label g hf end_ tag tag').
  destruct (astar_body g hf end_ tag' nodes st) as [[st'|r]| | | |]; simpl; try done.
  by destruct r.
Qed.

(** C3, as amended: a tag that is neither ["euclidean"] nor
    ["manhattan"] makes [astar] run with the Euclidean estimate and
    return what the ["euclidean"] run returns, under the label
    [astar_<tag>]; the tag is refused by the request handler
    [find_path_astar], which answers 400 once the graph is built and does
    not call [astar]. *)
Theorem unknown_tag_runs_euclidean (libm_pow : float -> float -> float)
    (g : Graph) (start end_ tag : string) (gd : graph_data) (other : bool) :
  tag ≠ "euclidean" -> tag ≠ "manhattan" ->
  astar libm_pow g start end_ tag =
    relabel (String.append "astar_" tag)
      (astar libm_pow g start end_ "euclidean") ∧
  (from_dict gd = Ok g ->
   find_path_astar libm_pow
     (MkReq (Some gd) (Some start) (Some end_) (Some tag) other) =
   Ok (ErrorBody "Invalid heuristic. Use 'euclidean' or 'manhattan'", 400)).
Proof.
  intros He Hm. apply String.eqb_neq in He, Hm. split.
  - unfold astar.
    destruct (adjacency_list g !! start); [|done].
    destruct (adjacency_list g !! end_); [|done].
    unfold select_heuristic. rewrite Hm. cbn [String.eqb Ascii.eqb Bool.eqb].
    cbv zeta. destruct (euclidean_heuristic libm_pow g start end_); cbn [bind]; try done.
    apply while_loop_label.
  - intros Hg. unfold find_path_astar, check_request, request_empty.
    cbn [req_graph req_start req_end req_heuristic req_other_keys required bind].
    rewrite Hg. cbn [bind required default from_option]. cbv zeta.
    change (Datatypes.id tag) with tag. rewrite He, Hm. done.
Qed.

Lemma astar_random_run libm_pow :
  astar libm_pow triangle "A" "C" "random" =
  Ok (Some {| path := ["A"; "B"; "C"]; distance := Int 3; nodes_explored := 3;
              algorithm := "astar_random" |}).
Proof. vm_compute. reflexivity. Qed.

(** C3, counterexample: [astar] with the tag ["random"] raises nothing
    and returns a result. *)
Lemma astar_random_returns_result :
  astar rounded_pow triangle "A" "C" "random" =
  Ok (Some {| path := ["A"; "B"; "C"]; distance := Int 3; nodes_explored := 3;
              algorithm := "astar_random" |}).
Proof. apply astar_random_run. Qed.

Lemma arc_add_node g n x y u v w : arc (add_node g n x y) u v w -> arc g u v w.
Proof. unfold arc. by rewrite get_neighbors_add_node. Qed.

Lemma arc_add_edge g a b w bd u v w' :
  arc (add_edge g a b w bd) u v w' ->
  arc g u v w' ∨ (u = a ∧ v = b ∧ w' = w) ∨ (u = b ∧ v = a ∧ w' = w).
Proof.
  unfold arc. rewrite get_neighbors_add_edge, !elem_of_app.
  intros [?|[Hin|Hin]]; [by left|..].
  - destruct (decide (u = a)); [|set_solver].
    apply list_elem_of_singleton in Hin. simplify_eq. auto.
  - destruct bd; [|set_solver]. destruct (decide (u = b)); [|set_solver].
    apply list_elem_of_singleton in Hin. simplify_eq. auto.
Qed.

Lemma nonneg_init : nonneg Graph_init.
Proof. intros u v w H. by apply arc_init in H. Qed.

Lemma nonneg_add_node g n x y : nonneg g -> nonneg (add_node g n x y).
Proof. intros Hg u v w H. apply arc_add_node in H. eauto. Qed.

Lemma nonneg_add_edge g a b w bd :
  nonneg g -> num_leb (Int 0) w = true -> nonneg (add_edge g a b w bd).
Proof.
  intros Hg Hw u v w' H.
  apply arc_add_edge in H as [?|[(_ & _ & ->)|(_ & _ & ->)]]; eauto.
Qed.

Lemma int_weights_init : int_weights Graph_init.
Proof. intros u v w H. by apply arc_init in H. Qed.

Lemma int_weights_add_node g n x y : int_weights g -> int_weights (add_node g n x y).
Proof. intros Hg u v w H. apply arc_add_node in H. eauto. Qed.

Lemma int_weights_add_edge g a b z bd :
  int_weights g -> int_weights (add_edge g a b (Int z) bd).
Proof.
  intros Hg u v w' H.
  apply arc_add_edge in H as [?|[(_ & _ & ->)|(_ & _ & ->)]]; eauto.
Qed.

Lemma flat_init : flat Graph_init.
Proof. intros n p. simpl. by rewrite lookup_empty. Qed.

Lemma flat_add_node g n : flat g -> flat (add_node g n (Int 0) (Int 0)).
Proof.
  intros Hg m p. simpl. rewrite lookup_insert. case_decide; [by intros [= <-]|apply Hg].
Qed.

Lemma flat_ensure_node g n : flat g -> flat (ensure_node g n).
Proof.
  intros Hg. unfold ensure_node. destruct (adjacency_list g !! n); [done|].
  by apply flat_add_node.
Qed.

Lemma flat_add_edge g a b w bd : flat g -> flat (add_edge g a b w bd).
Proof.
  intros Hg n p. rewrite node_positions_add_edge. by apply flat_ensure_node, flat_ensure_node.
Qed.

(** Where every position is the default one both estimates are zero: the
    int [0] of the Manhattan sum, and for the Euclidean one the float
    [0.0] of [0 ** 0.5] or the int [0] returned for a node without
    position. *)
Lemma flat_heuristics libm_pow g n m :
  flat g ->
  (euclidean_heuristic libm_pow g n m = Ok (Flt 0) ∨
   euclidean_heuristic libm_pow g n m = Ok (Int 0)) ∧
  manhattan_heuristic g n m = Ok (Int 0).
Proof.
  intros Hg. unfold euclidean_heuristic, manhattan_heuristic.
  destruct (node_positions g !! n) as [[x1 y1]|] eqn:En; [|auto].
  destruct (node_positions g !! m) as [[x2 y2]|] eqn:Em; [|auto].
  apply Hg in En, Em. simplify_eq. split; [left|]; reflexivity.
Qed.

Lemma path_nonneg g s v p d :
  nonneg g -> int_weights g -> path_from g s v p d -> 0 <= d.
Proof.
  intros Hg Hint. induction 1 as [|u v w z p d Hp IH Ha Hw]; [done|].
  rewrite (arc_whole _ _ _ _ _ Hint Ha Hw) in Ha.
  pose proof (nonneg_Int _ _ _ _ Hg Ha). lia.
Qed.

Lemma num_leb_zero_Int d : 0 <= d -> num_leb (Int 0) (Int d) = true.
Proof.
  intros Hd. unfold num_leb. rewrite num_compare_Int.
  destruct (Z.compare_spec 0 d); try done; lia.
Qed.

Lemma num_leb_fzero_Int d : 0 <= d -> num_leb (Flt 0) (Int d) = true.
Proof.
  intros Hd. unfold num_leb, num_compare.
  change (exact (Flt 0)) with (Some (Finite (inject_Z 0))). rewrite exact_Int.
  cbn [xq_compare]. rewrite Qcompare_inject_Z.
  destruct (Z.compare_spec 0 d); try done; lia.
Qed.

Lemma detour_flat : flat detour.
Proof.
  unfold detour, build_graph.
  cbn [foldl s_from s_to s_weight s_bidirectional s_id s_x s_y].
  repeat apply flat_add_edge. repeat apply flat_add_node. apply flat_init.
Qed.

Lemma detour_nonneg : nonneg detour.
Proof.
  unfold detour, build_graph.
  cbn [foldl s_from s_to s_weight s_bidirectional s_id s_x s_y].
  repeat (apply nonneg_add_edge; [|reflexivity]). repeat apply nonneg_add_node.
  apply nonneg_init.
Qed.

Lemma detour_int_weights : int_weights detour.
Proof.
  unfold detour, build_graph.
  cbn [foldl s_from s_to s_weight s_bidirectional s_id s_x s_y].
  repeat apply int_weights_add_edge. repeat apply int_weights_add_node.
  apply int_weights_init.
Qed.

(** C2, at the failing input: all weights are non-negative ints and both
    heuristics are admissible (they are 0 everywhere), uniform-cost
    search finds distance 3, guided search returns distance 5, whatever
    the C library's [pow] is. *)
Theorem astar_returns_longer_path (libm_pow : float -> float -> float) :
  from_dict detour_data = Ok detour ∧ nonneg detour ∧ int_weights detour ∧
  admissible detour (select_heuristic libm_pow "euclidean") "E" ∧
  admissible detour (select_heuristic libm_pow "manhattan") "E" ∧
  dijkstra detour "S" "E" =
    Ok (Some {| path := ["S"; "B"; "A"; "E"]; distance := Int 3;
                nodes_explored := 4; algorithm := "dijkstra" |}) ∧
  astar libm_pow detour "S" "E" "euclidean" =
    Ok (Some {| path := ["S"; "E"]; distance := Int 5;
                nodes_explored := 3; algorithm := "astar_euclidean" |}) ∧
  astar libm_pow detour "S" "E" "manhattan" =
    Ok (Some {| path := ["S"; "E"]; distance := Int 5;
                nodes_explored := 3; algorithm := "astar_manhattan" |}).
Proof.
  assert (Hadm : forall hf,
            (forall n m, hf detour n m = Ok (Flt 0) ∨ hf detour n m = Ok (Int 0)) ->
            admissible detour hf "E").
  { intros hf Hz n p d Hp.
    pose proof (path_nonneg _ _ _ _ _ detour_nonneg detour_int_weights Hp) as Hd.
    destruct (Hz n "E") as [-> | ->]; eexists; (split; [done|]).
    - by apply num_leb_fzero_Int.
    - by apply num_leb_zero_Int. }
  split; [|split; [apply detour_nonneg|split; [apply detour_int_weights|]]].
  - rewrite from_dict_resolve. reflexivity.
  - split; [|split].
    + apply Hadm. intros n m. apply (flat_heuristics libm_pow), detour_flat.
    + apply Hadm. intros n m. right. apply (flat_heuristics libm_pow), detour_flat.
    + repeat split; vm_compute; reflexivity.
Qed.

(** C7, at the failing input: both heuristics evaluate to zero for every
    pair of nodes, yet guided search and uniform-cost search return
    different paths, distances and explored-node counts. *)
Theorem zero_heuristic_differs_from_dijkstra (libm_pow : float -> float -> float) :
  (forall n m,
     (euclidean_heuristic libm_pow detour n m = Ok (Flt 0) ∨
      euclidean_heuristic libm_pow detour n m = Ok (Int 0)) ∧
     manhattan_heuristic detour n m = Ok (Int 0)) ∧
  (exists rd ra,
     dijkstra detour "S" "E" = Ok (Some rd) ∧
     astar libm_pow detour "S" "E" "euclidean" = Ok (Some ra) ∧
     path rd = ["S"; "B"; "A"; "E"] ∧ path ra = ["S"; "E"] ∧
     distance rd = Int 3 ∧ distance ra = Int 5 ∧
     nodes_explored rd = 4%nat ∧ nodes_explored ra = 3%nat).
Proof.
  split; [intros n m; apply flat_heuristics, detour_flat|].
  do 2 eexists. split; [vm_compute; reflexivity|].
  split; [vm_compute; reflexivity|]. done.
Qed.

(** On the diamond the entries [(1, "A")] and [(1, "B")] tie; A is
    expanded first and the route through A is the one returned. *)
Example equal_weight_routes_resolved :
  path <$> dijkstra_result diamond "S" "E" = Some ["S"; "A"; "E"] ∧
  path <$> astar_result rounded_pow diamond "S" "E" "euclidean" = Some ["S"; "A"; "E"] ∧
  path <$> astar_result rounded_pow diamond "S" "E" "manhattan" = Some ["S"; "A"; "E"].
Proof. repeat split; vm_compute; reflexivity. Qed.

Lemma triangle_built : built triangle.
Proof. unfold triangle. repeat constructor. Qed.

Lemma triangle_nonneg : nonneg triangle.
Proof.
  unfold triangle. repeat (apply nonneg_add_edge; [|reflexivity]). apply nonneg_init.
Qed.

Lemma triangle_int_weights : int_weights triangle.
Proof.
  unfold triangle. repeat apply int_weights_add_edge. apply int_weights_init.
Qed.







Lemma rounding_nonneg : nonneg rounding.
Proof.
  unfold rounding, build_graph. cbn [foldl s_from s_to s_weight s_bidirectional].
  repeat (apply nonneg_add_edge; [|vm_compute; reflexivity]). apply nonneg_init.
Qed.




(** With [looping] the rounded sums make A the predecessor of B and B
    the predecessor of A: rebuilding the path from E does not end. *)
Example dijkstra_predecessor_cycle :
  from_dict looping_data = Ok looping ∧ nonneg looping ∧
  dijkstra looping "S" "E" = OutOfFuel.
Proof.
  split; [rewrite from_dict_resolve; reflexivity|]. split; [|vm_compute; reflexivity].
  unfold looping, build_graph. cbn [foldl s_from s_to s_weight s_bidirectional].
  repeat (apply nonneg_add_edge; [|vm_compute; reflexivity]). apply nonneg_init.
Qed.






Lemma while_loop_iterates {S R} (body : S -> outcome (ctl S R)) fuel : forall s0 r,
  while_loop body fuel s0 = Ok r ->
  exists s, iterates body s0 s ∧ body s = Ok (Stop r).
Proof.
  assert (G : forall s0 s r, iterates body s0 s -> while_loop body fuel s = Ok r ->
                exists s', iterates body s0 s' ∧ body s' = Ok (Stop r)).
  { induction fuel as [|fuel IH]; intros s0 s r Hit; [done|]. cbn [while_loop].
    destruct (body s) as [[s'|r']| | | |] eqn:E; cbn [bind]; try done.
    - apply IH. by econstructor.
    - intros [= <-]. eauto. }
  intros s0 r. apply G. constructor.
Qed.





















Lemma dshape_init g start :
  is_Some (adjacency_list g !! start) -> dshape g start (dijkstra_init g start).
Proof.
  intros Hs. constructor; simpl.
  - done.
  - intros n. rewrite lookup_insert. case_decide as E; [by subst|].
    by rewrite lookup_fmap, fmap_is_Some.
  - rewrite lookup_insert_eq, lookup_fmap. destruct Hs as [? ->]. done.
  - intros k n [= -> ->]%list_elem_of_singleton.
    split; [done|]. split; [by apply nonneg_num_Int|by left].
  - set_solver.
  - intros n u. rewrite lookup_fmap. by destruct (adjacency_list g !! n).
  - intros n d. rewrite lookup_insert. case_decide as E.
    + intros _ _. subst. right. exists (Int 0). set_solver.
    + rewrite lookup_fmap. destruct (adjacency_list g !! n); [|done].
      intros [= <-]. by rewrite num_eqb_inf_inf.
Qed.

Lemma dshape_relax g start cur k st a st' :
  nonneg g -> dshape g start st -> cur ∈ visited st -> nonneg_num k ->
  a ∈ get_neighbors g cur ->
  relax cur k st a = Ok st' ->
  dshape g start st' ∧ visited st' = visited st.
Proof.
  intros Hnn Hsh Hcur Hk Ha. destruct a as [v w]. unfold relax.
  destruct (num_add k w) as [d| | | |] eqn:Ed; cbn [bind]; try done.
  destruct (subscript (distances st) v) as [dv| | | |] eqn:Edv; cbn [bind]; try done.
  destruct (num_ltb d dv) eqn:E; [|by intros [= <-]].
  intros [= <-]. split; [|done].
  assert (Hd : nonneg_num d) by (eapply num_add_nonneg; [exact Hk|by eapply Hnn|done]).
  unfold subscript in Edv. destruct (distances st !! v) as [dv'|] eqn:Ev; [|done].
  injection Edv as ->.
  assert (Hv : v <> start).
  { intros ->. destruct (sh_start _ _ _ Hsh) as [H0 _]. rewrite H0 in Ev.
    injection Ev as <-. by rewrite (nonneg_num_not_below d Hd) in E. }
  constructor; cbn.
  - apply (sh_explored _ _ _ Hsh).
  - intros n. rewrite lookup_insert. case_decide as En; [|apply (sh_dom _ _ _ Hsh)].
    intros _. subst. apply (sh_dom _ _ _ Hsh). by rewrite Ev.
  - rewrite !lookup_insert_ne by done. apply (sh_start _ _ _ Hsh).
  - intros k' n. rewrite elem_of_heappush. intros [[= -> ->]|Hin].
    + split; [apply (sh_dom _ _ _ Hsh); by rewrite Ev|]. split; [done|].
      right. exists cur. by rewrite lookup_insert_eq.
    + destruct (sh_pq _ _ _ Hsh _ _ Hin) as (? & ? & Hp). split; [done|]. split; [done|].
      destruct Hp as [?|[u Hu]]; [by left|]. right.
      destruct (decide (v = n)) as [->|]; [exists cur; by rewrite lookup_insert_eq|].
      exists u. by rewrite lookup_insert_ne.
  - intros n Hn. destruct (sh_vis _ _ _ Hsh _ Hn) as [? Hp]. split; [done|].
    destruct Hp as [?|[u Hu]]; [by left|]. right.
    destruct (decide (v = n)) as [->|]; [exists cur; by rewrite lookup_insert_eq|].
    exists u. by rewrite lookup_insert_ne.
  - intros n u. rewrite lookup_insert. case_decide as En.
    + intros [= <-]. by subst.
    + apply (sh_prev _ _ _ Hsh).
  - intros n d'. rewrite lookup_insert. case_decide as En.
    + intros _ _. subst. right. exists d. apply elem_of_heappush. by left.
    + intros Hn Hfin. destruct (sh_dist _ _ _ Hsh _ _ Hn Hfin) as [?|[k' ?]]; [by left|].
      right. exists k'. apply elem_of_heappush. by right.
Qed.

Lemma dshape_for_each g start cur k l : forall st st',
  nonneg g -> dshape g start st -> cur ∈ visited st -> nonneg_num k ->
  (forall a, a ∈ l -> a ∈ get_neighbors g cur) ->
  for_each (relax cur k) l st = Ok st' ->
  dshape g start st' ∧ visited st' = visited st.
Proof.
  induction l as [|a l IH]; intros st st' Hnn Hsh Hcur Hk Hl; cbn [for_each].
  - by intros [= <-].
  - destruct (relax cur k st a) as [st1| | | |] eqn:E; cbn [bind]; try done.
    destruct (dshape_relax g start cur k st a st1) as [Hsh1 Hv1]; try done.
    { apply Hl. set_solver. }
    intros H. destruct (IH st1 st') as [Hsh' Hv']; try done.
    + by rewrite Hv1.
    + intros x Hx. apply Hl. set_solver.
    + split; [done|congruence].
Qed.

Lemma dshape_body g start end_ st c :
  nonneg g -> dshape g start st -> dijkstra_body g end_ st = Ok c ->
  match c with
  | Next st' => dshape g start st'
  | Stop st' => dshape_exit g start end_ st'
  end.
Proof.
  intros Hnn Hsh. unfold dijkstra_body.
  destruct (heappop entry_ltb (priority_queue st)) as [[[k n] q]|] eqn:Hpop.
  2:{ intros [= <-]. split; [done|]. intros d Hd Hfin.
      destruct (sh_dist _ _ _ Hsh _ _ Hd Hfin) as [?|[k' Hin]]; [done|].
      apply heappop_None in Hpop. rewrite Hpop in Hin. set_solver. }
  pose proof (heappop_perm _ _ _ _ Hpop) as HP.
  assert (Hkn : (k, n) ∈ priority_queue st) by (rewrite HP; set_solver).
  destruct (sh_pq _ _ _ Hsh _ _ Hkn) as (Hn & Hk & Hprev).
  assert (Hq : forall k' n', (k', n') ∈ q -> (k', n') ∈ priority_queue st).
  { intros k' n' Hin. rewrite HP. set_solver. }
  assert (Hback : forall k' n', (k', n') ∈ priority_queue st ->
                                n' = n ∨ (k', n') ∈ q).
  { intros k' n'. rewrite HP. intros [[= -> ->]|?]%elem_of_cons; auto. }
  destruct (decide (n ∈ visited st)) as [Hvis|Hvis].
  { intros [= <-]. constructor; cbn; try apply Hsh.
    - intros k' n' Hin. by apply (sh_pq _ _ _ Hsh), Hq.
    - intros m d Hd Hfin. destruct (sh_dist _ _ _ Hsh _ _ Hd Hfin) as [?|[k' Hin]];
        [by left|]. destruct (Hback _ _ Hin) as [->|?]; [by left|]. right. eauto. }
  cbv zeta.
  assert (Hsh1 : dshape g start
            (MkD (distances st) (previous st) q ({[n]} ∪ visited st)
                 (S (d_explored st)))).
  { constructor; cbn; try apply Hsh.
    - rewrite (size_union (C := gset string) {[n]}) by set_solver.
      rewrite size_singleton, (sh_explored _ _ _ Hsh). lia.
    - intros k' n' Hin. by apply (sh_pq _ _ _ Hsh), Hq.
    - intros m [->%elem_of_singleton|Hm]%elem_of_union; [done|].
      by apply (sh_vis _ _ _ Hsh).
    - intros m u Hm. destruct (sh_prev _ _ _ Hsh _ _ Hm). split; [set_solver|done].
    - intros m d Hd Hfin. destruct (sh_dist _ _ _ Hsh _ _ Hd Hfin) as [?|[k' Hin]];
        [left; set_solver|].
      destruct (Hback _ _ Hin) as [->|?]; [left; set_solver|]. right. eauto. }
  destruct (String.eqb n end_) eqn:En.
  { apply String.eqb_eq in En as ->. intros [= <-]. split; [done|].
    intros _ _ _. cbn. set_solver. }
  destruct (subscript _ n) as [dc| | | |]; cbn [bind]; try done.
  destruct (num_ltb dc k); [by intros [= <-]|].
  destruct (for_each _ _ _) as [st2| | | |] eqn:E; cbn [bind]; try done.
  intros [= <-].
  eapply (dshape_for_each g start n k); [done|exact Hsh1|cbn; set_solver|done| |exact E].
  done.
Qed.

Lemma dshape_loop g start end_ fuel st :
  nonneg g -> is_Some (adjacency_list g !! start) ->
  while_loop (dijkstra_body g end_) fuel (dijkstra_init g start) = Ok st ->
  dshape_exit g start end_ st.
Proof.
  intros Hnn Hs.
  apply (while_loop_preserves (dijkstra_body g end_) (dshape g start)
           (dshape_exit g start end_)).
  - intros s s' Hsh Hb. apply (dshape_body g start end_ s (Next s') Hnn Hsh Hb).
  - intros s r Hsh Hb. apply (dshape_body g start end_ s (Stop r) Hnn Hsh Hb).
  - by apply dshape_init.
Qed.

Lemma walk_back_Ok_chain P fuel : forall n acc p,
  walk_back P fuel (Some n) acc = Ok p ->
  exists l, p = acc ++ l ∧ chain P n l.
Proof.
  induction fuel as [|fuel IH]; intros n acc p; [done|]. cbn [walk_back].
  unfold subscript. destruct (P !! n) as [[u|]|] eqn:E; cbn [bind]; try done.
  - intros H. apply IH in H as (l & -> & Hc). exists (n :: l).
    split; [by rewrite <- app_assoc|]. by econstructor.
  - destruct fuel; cbn [walk_back]; intros [= <-]; exists [n];
      (split; [done|by constructor]).
Qed.

Lemma chain_visited g start st n l :
  dshape g start st -> n ∈ visited st -> chain (previous st) n l ->
  Forall (fun x => x ∈ visited st) l ∧ last l = Some start.
Proof.
  intros Hsh Hn Hc. induction Hc as [n Hroot|n u l Hu Hc IH].
  - split; [by constructor|].
    destruct (sh_vis _ _ _ Hsh _ Hn) as [_ [->|[u Hu]]]; [done|congruence].
  - destruct (sh_prev _ _ _ Hsh _ _ Hu) as [Huv _].
    destruct (IH Huv) as [Hall Hlast]. split; [by constructor|].
    destruct (chain_head _ _ _ Hc) as [l' ->]. done.
Qed.

(** The shape of a result of [dijkstra] on weights that are not
    negative. *)
Lemma dijkstra_shape g start end_ r :
  nonneg g -> dijkstra g start end_ = Ok (Some r) ->
  algorithm r = "dijkstra" ∧ NoDup (path r) ∧
  head (path r) = Some start ∧ last (path r) = Some end_ ∧
  (1 <= length (path r) <= nodes_explored r)%nat ∧
  (nodes_explored r <= size (adjacency_list g))%nat.
Proof.
  intros Hnn. unfold dijkstra.
  destruct (adjacency_list g !! start) as [Ls|] eqn:Hs; [|done].
  destruct (adjacency_list g !! end_) as [Le|] eqn:He; [|done].
  destruct (while_loop _ _ _) as [st| | | |] eqn:Hrun; cbn [bind]; try done.
  apply dshape_loop in Hrun as [Hsh Hexit]; [|done|by rewrite Hs].
  unfold subscript. destruct (distances st !! end_) as [de|] eqn:Hde; cbn [bind]; [|done].
  destruct (num_eqb de inf) eqn:Hfin; [done|].
  destruct (walk_back _ _ _ _) as [p| | | |] eqn:Hw; cbn [bind]; try done.
  intros [= <-]. cbn [algorithm path nodes_explored].
  apply walk_back_Ok_chain in Hw as (l & -> & Hc). cbn [app].
  pose proof (Hexit _ eq_refl Hfin) as Hend.
  destruct (chain_visited _ _ _ _ _ Hsh Hend Hc) as [Hall Hlast].
  pose proof (chain_NoDup _ _ _ Hc) as Hnd.
  destruct (chain_head _ _ _ Hc) as [l' ->].
  assert (Hlen : (length (end_ :: l') <= size (visited st))%nat).
  { apply NoDup_length_size; [done|]. by apply Forall_forall. }
  assert (Hrev : rev (end_ :: l') = reverse (end_ :: l')) by apply rev_alt.
  rewrite Hrev.
  split; [done|]. split; [by rewrite reverse_Permutation|].
  split; [by rewrite head_reverse|]. split; [by rewrite last_reverse|].
  rewrite length_reverse, (sh_explored _ _ _ Hsh). split; [simpl in *; lia|].
  rewrite <- size_dom. apply subseteq_size. intros x Hx. apply elem_of_dom.
  by apply (sh_vis _ _ _ Hsh).
Qed.


Lemma bind_assoc {A B C} (m : outcome A) (f : A -> outcome B) (k : B -> outcome C) :
  (y <- (x <- m ;; f x) ;; k y) = (x <- m ;; y <- f x ;; k y).
Proof. by destruct m. Qed.

Lemma heuristics_symmetric_zero libm_pow g a b :
  euclidean_heuristic libm_pow g a b = euclidean_heuristic libm_pow g b a ∧
  manhattan_heuristic g a b = manhattan_heuristic g b a ∧
  (exists h, euclidean_heuristic libm_pow g a a = Ok h ∧ null h) ∧
  (exists h, manhattan_heuristic g a a = Ok h ∧ null h) ∧
  (int_positions g ->
   (euclidean_heuristic libm_pow g a a = Ok (Flt 0) ∨
    euclidean_heuristic libm_pow g a a = Ok (Int 0)) ∧
   manhattan_heuristic g a a = Ok (Int 0)).
Proof.
  split; [|split; [|split; [apply euclidean_self|split; [apply manhattan_self|]]]].
  - unfold euclidean_heuristic.
    destruct (node_positions g !! a) as [[x1 y1]|], (node_positions g !! b) as [[x2 y2]|];
      try done.
    rewrite <- !bind_assoc. rewrite (num_square_sub_comm libm_pow x2 x1).
    destruct (d <- num_sub x1 x2 ;; num_square libm_pow d) as [sx| | | |];
      cbn [bind]; try done.
    rewrite <- !bind_assoc. by rewrite (num_square_sub_comm libm_pow y2 y1).
  - unfold manhattan_heuristic.
    destruct (node_positions g !! a) as [[x1 y1]|], (node_positions g !! b) as [[x2 y2]|];
      try done.
    pose proof (num_abs_sub_comm x2 x1) as Hx. pose proof (num_abs_sub_comm y2 y1) as Hy.
    destruct (num_sub x2 x1), (num_sub x1 x2); cbn [bind] in *; try done;
      destruct (num_sub y2 y1), (num_sub y1 y2); cbn [bind] in *; try done;
      congruence.
  - intros Hpos. unfold euclidean_heuristic, manhattan_heuristic.
    destruct (node_positions g !! a) as [[x y]|] eqn:Ea; [|auto].
    destruct (Hpos _ _ _ Ea) as (? & ? & -> & ->).
    cbn [num_sub bind num_square num_add num_abs]. rewrite !Z.sub_diag.
    split; [left|]; reflexivity.
Qed.

(** X8: both estimates are symmetric in their two nodes, also in whether
    they raise.  From a node to itself they do not raise and are zero, or
    a NaN when a coordinate of the node is infinite or a NaN; on int
    coordinates they are the int [0], or the float [0.0] of [0 ** 0.5]
    for the Euclidean estimate of a node with a position. *)
Theorem heuristics_symmetric (libm_pow : float -> float -> float) (g : Graph)
    (a b : string) :
  euclidean_heuristic libm_pow g a b = euclidean_heuristic libm_pow g b a ∧
  manhattan_heuristic g a b = manhattan_heuristic g b a ∧
  (exists h, euclidean_heuristic libm_pow g a a = Ok h ∧ null h) ∧
  (exists h, manhattan_heuristic g a a = Ok h ∧ null h) ∧
  (int_positions g ->
   (euclidean_heuristic libm_pow g a a = Ok (Flt 0) ∨
    euclidean_heuristic libm_pow g a a = Ok (Int 0)) ∧
   manhattan_heuristic g a a = Ok (Int 0)).
Proof. apply heuristics_symmetric_zero. Qed.

(** On int weights that are not negative [dijkstra] returns [None] for
    no path, and otherwise a shortest path. *)
Lemma dijkstra_cases g start end_ :
  built g -> nonneg g -> int_weights g ->
  (dijkstra g start end_ = Ok None ∧ no_path g start end_) ∨
  (exists r d,
     dijkstra g start end_ = Ok (Some r) ∧ reachable g start end_ ∧
     distance r = Int d ∧ path_from g start end_ (path r) d ∧
     forall p' d', path_from g start end_ p' d' -> d <= d').
Proof.
  intros Hb Hnn Hint. unfold no_path.
  destruct (adjacency_list g !! start) as [Ls|] eqn:Hs;
    [|left; split; [apply dijkstra_absent|]; auto].
  destruct (adjacency_list g !! end_) as [Le|] eqn:He;
    [|left; split; [apply dijkstra_absent|]; auto].
  destruct (dijkstra_loop_int g start end_ (built_closed _ Hb) Hint)
    as (st & Hrun & Hinv & Hpost); [by rewrite Hs|].
  destruct (proj2 (dinv_dom _ _ _ Hinv end_)) as [de Hde]; [by rewrite He|].
  destruct (proj1 (dinv_int _ _ _ Hinv Hint) _ _ Hde) as [->|[z ->]].
  - left. split.
    + unfold dijkstra. rewrite Hs, He, Hrun. cbn [bind]. unfold subscript.
      rewrite Hde. cbn [bind]. by rewrite num_eqb_inf_inf.
    + right. right. intros Hreach.
      destruct (Hpost Hnn Hreach) as (d & l & Hd & _). rewrite Hde in Hd. done.
  - right. destruct (dinv_fin _ _ _ Hinv _ _ Hde) as [?|Hreach]; [done|].
    destruct (dijkstra_shortest g start end_ Hb Hnn Hint) as (r & d & ? & ? & ? & ?);
      [by rewrite Hs|by rewrite He|done|].
    exists r, d. auto.
Qed.

Lemma dijkstra_none_iff g start end_ :
  built g -> nonneg g -> int_weights g ->
  (exists o, dijkstra g start end_ = Ok o) ∧
  (dijkstra g start end_ = Ok None <->
   adjacency_list g !! start = None ∨ adjacency_list g !! end_ = None ∨
   ~ reachable g start end_).
Proof.
  intros Hb Hnn Hint.
  destruct (dijkstra_cases g start end_ Hb Hnn Hint)
    as [[Hd Hno]|(r & d & Hd & Hreach & _)].
  - split; [eauto|]. by split.
  - split; [eauto|]. split; [congruence|].
    intros [Habs|[Habs|Hun]]; [| |done];
      rewrite dijkstra_absent in Hd by auto; done.
Qed.

(** X11: on a graph whose weights are Python ints that are not negative,
    [dijkstra] always returns (it neither raises nor runs forever), and it
    returns [None] exactly when [start] or [end_] is no node of the graph
    or no sequence of arcs leads from [start] to [end_]. *)
Theorem dijkstra_none_iff_no_path (g : Graph) (start end_ : string) :
  built g -> nonneg g -> int_weights g ->
  (exists o, dijkstra g start end_ = Ok o) ∧
  (dijkstra g start end_ = Ok None <->
   adjacency_list g !! start = None ∨ adjacency_list g !! end_ = None ∨
   ~ reachable g start end_).
Proof. apply dijkstra_none_iff. Qed.

(** X12: a result of [dijkstra] on a graph with non-negative weights,
    ints or floats, is labelled ["dijkstra"]; its path starts at [start],
    ends at [end_] and visits no node twice; the path is no longer than
    the count of explored nodes, which is at most the number of nodes. *)
Theorem dijkstra_result_shape (g : Graph) (start end_ : string) (r : PathResult) :
  built g -> nonneg g ->
  dijkstra g start end_ = Ok (Some r) ->
  algorithm r = "dijkstra" ∧ NoDup (path r) ∧
  head (path r) = Some start ∧ last (path r) = Some end_ ∧
  (1 <= length (path r) <= nodes_explored r)%nat ∧
  (nodes_explored r <= size (adjacency_list g))%nat.
Proof. intros _. apply dijkstra_shape. Qed.

(** The three ways a run of [astar] on a built graph ends. *)
Lemma astar_cases libm_pow g start end_ heuristic :
  pow_sane libm_pow -> built g ->
  (astar libm_pow g start end_ heuristic = Ok None ∧
   (int_weights g -> no_path g start end_)) ∨
  (exists r, astar libm_pow g start end_ heuristic = Ok (Some r) ∧
     astar_post g start end_ heuristic (Some r)) ∨
  (astar libm_pow g start end_ heuristic = OverflowError ∧
   ~ exact_search g (select_heuristic libm_pow heuristic)).
Proof.
  intros Hpow Hb. unfold no_path.
  destruct (adjacency_list g !! start) as [Ls|] eqn:Hs;
    [|left; split; [apply astar_absent|]; auto].
  destruct (adjacency_list g !! end_) as [Le|] eqn:He;
    [|left; split; [apply astar_absent|]; auto].
  destruct (astar_run libm_pow g start end_ heuristic Hpow Hb) as [(o & Ho & Hpost)|?];
    [by rewrite Hs|by rewrite He| |by right; right].
  destruct o as [r|]; [right; left; eauto|].
  left. split; [done|]. intros Hint. right. right. by apply Hpost.
Qed.

Lemma astar_none_cases libm_pow g start end_ heuristic :
  pow_sane libm_pow -> built g ->
  (astar libm_pow g start end_ heuristic = Ok None ∨
   (exists r, astar libm_pow g start end_ heuristic = Ok (Some r)) ∨
   (astar libm_pow g start end_ heuristic = OverflowError ∧
    ~ exact_search g (select_heuristic libm_pow heuristic))) ∧
  (no_path g start end_ ->
   astar libm_pow g start end_ heuristic = Ok None ∨
   astar libm_pow g start end_ heuristic = OverflowError) ∧
  (int_weights g ->
   (astar libm_pow g start end_ heuristic = Ok None -> no_path g start end_) ∧
   (int_positions g ->
    (exists o, astar libm_pow g start end_ "manhattan" = Ok o) ∧
    (astar libm_pow g start end_ "manhattan" = Ok None <-> no_path g start end_))).
Proof.
  intros Hpow Hb. split; [|split].
  - destruct (astar_cases libm_pow g start end_ heuristic Hpow Hb)
      as [[? _]|[(r & ? & _)|?]]; eauto.
  - intros [Habs|[Habs|Hun]]; [left; apply astar_absent; auto..|].
    destruct (astar_unreachable libm_pow g start end_ heuristic Hpow Hb Hun)
      as [?|[? _]]; auto.
  - intros Hint. split.
    + intros Hnone.
      destruct (astar_cases libm_pow g start end_ heuristic Hpow Hb)
        as [[_ Hno]|[(r & ? & _)|[? _]]]; [auto|congruence..].
    + intros Hpos.
      destruct (astar_cases libm_pow g start end_ "manhattan" Hpow Hb)
        as [[Hn Hno]|[(r & Hr & Hpost)|[_ Hex]]].
      * split; [eauto|]. split; auto.
      * split; [eauto|]. split; [congruence|]. intros Hno. exfalso.
        destruct Hpost as (Ht & _). apply trail_reachable in Ht.
        destruct Hno as [Habs|[Habs|Hun]]; [| |done];
          rewrite astar_absent in Hr by auto; done.
      * destruct Hex. by apply manhattan_exact.
Qed.

(** X13: with a sane C library, whatever the weights, the coordinates
    and the tag, a result of [astar] lists the nodes of a path from
    [start] to [end_] along stored arcs; it visits no node twice, is no
    longer than the count of explored nodes, which is at most the number
    of nodes, and is labelled [astar_<tag>].  When the weights are Python
    ints the reported distance is an int, the total weight of that
    path. *)
Theorem astar_result_is_path (libm_pow : float -> float -> float) (g : Graph)
    (start end_ heuristic : string) (r : PathResult) :
  pow_sane libm_pow -> built g ->
  astar libm_pow g start end_ heuristic = Ok (Some r) ->
  trail g start end_ (path r) ∧
  NoDup (path r) ∧
  (length (path r) <= nodes_explored r)%nat ∧
  (nodes_explored r <= size (adjacency_list g))%nat ∧
  algorithm r = String.append "astar_" heuristic ∧
  (int_weights g ->
   exists d, distance r = Int d ∧ path_from g start end_ (path r) d).
Proof. apply astar_some_post. Qed.

(** X14: on a built graph, with a sane C library, whatever the weights,
    the coordinates and the tag, [astar] returns [None], returns a
    result, or raises [OverflowError] (which needs a weight or an
    estimate that is no Python int); it raises no [KeyError] and does not
    run forever.  When no path can be reported it returns [None] or
    raises [OverflowError].  On int weights [None] is returned only when
    no path can be reported; on int weights and int coordinates [astar]
    with the Manhattan estimate always returns, [None] exactly when no
    path can be reported. *)
Theorem astar_none_iff_no_path (libm_pow : float -> float -> float) (g : Graph)
    (start end_ heuristic : string) :
  pow_sane libm_pow -> built g ->
  (astar libm_pow g start end_ heuristic = Ok None ∨
   (exists r, astar libm_pow g start end_ heuristic = Ok (Some r)) ∨
   (astar libm_pow g start end_ heuristic = OverflowError ∧
    ~ exact_search g (select_heuristic libm_pow heuristic))) ∧
  (no_path g start end_ ->
   astar libm_pow g start end_ heuristic = Ok None ∨
   astar libm_pow g start end_ heuristic = OverflowError) ∧
  (int_weights g ->
   (astar libm_pow g start end_ heuristic = Ok None -> no_path g start end_) ∧
   (int_positions g ->
    (exists o, astar libm_pow g start end_ "manhattan" = Ok o) ∧
    (astar libm_pow g start end_ "manhattan" = Ok None <-> no_path g start end_))).
Proof. apply astar_none_cases. Qed.

Lemma astar_above_dijkstra libm_pow g start end_ heuristic :
  pow_sane libm_pow -> built g -> nonneg g -> int_weights g ->
  (astar libm_pow g start end_ heuristic = Ok None ->
   dijkstra g start end_ = Ok None) ∧
  (int_positions g ->
   (astar libm_pow g start end_ "manhattan" = Ok None <->
    dijkstra g start end_ = Ok None)) ∧
  (forall ra rd,
     astar libm_pow g start end_ heuristic = Ok (Some ra) ->
     dijkstra g start end_ = Ok (Some rd) ->
     exists da dd, distance ra = Int da ∧ distance rd = Int dd ∧ dd <= da).
Proof.
  intros Hpow Hb Hnn Hint.
  destruct (astar_none_cases libm_pow g start end_ heuristic Hpow Hb)
    as (_ & _ & Hi). destruct (Hi Hint) as (Hnone & Hman).
  pose proof (dijkstra_none_iff g start end_ Hb Hnn Hint) as [_ Hd].
  split; [|split].
  - intros Ha. apply Hd. by apply Hnone.
  - intros Hpos. destruct (Hman Hpos) as [_ Hiff]. rewrite Hiff. symmetry. exact Hd.
  - intros ra rd Ha Hrd.
    destruct (astar_some_post _ _ _ _ _ _ Hpow Hb Ha) as (_ & _ & _ & _ & _ & Hp).
    destruct (Hp Hint) as (da & Hda & Hpa).
    destruct (dijkstra_cases g start end_ Hb Hnn Hint)
      as [[? _]|(r & dd & Hr & _ & Hdd & _ & Hlb)]; [congruence|].
    assert (r = rd) as -> by congruence.
    exists da, dd. split; [done|]. split; [done|]. by eapply Hlb.
Qed.

(** X15: on a built graph whose weights are Python ints that are not
    negative, with a sane C library: [astar] with any tag returns [None]
    only if [dijkstra] does; on int coordinates [astar] with the
    Manhattan estimate returns [None] exactly when [dijkstra] does; and
    the distance a result of [astar] reports is never below the distance
    [dijkstra] reports. *)
Theorem astar_never_beats_dijkstra (libm_pow : float -> float -> float)
    (g : Graph) (start end_ heuristic : string) :
  pow_sane libm_pow -> built g -> nonneg g -> int_weights g ->
  (astar libm_pow g start end_ heuristic = Ok None ->
   dijkstra g start end_ = Ok None) ∧
  (int_positions g ->
   (astar libm_pow g start end_ "manhattan" = Ok None <->
    dijkstra g start end_ = Ok None)) ∧
  (forall ra rd,
     astar libm_pow g start end_ heuristic = Ok (Some ra) ->
     dijkstra g start end_ = Ok (Some rd) ->
     exists da dd, distance ra = Int da ∧ distance rd = Int dd ∧ dd <= da).
Proof. apply astar_above_dijkstra. Qed.

Lemma find_path_astar_cases libm_pow gd start end_ h other :
  pow_sane libm_pow -> accepted_tag h ->
  let req := MkReq (Some gd) (Some start) (Some end_) h other in
  let tag := default "euclidean" h in
  (from_dict gd = KeyError ->
   find_path_astar libm_pow req = Ok (ExceptionBody, 500)) ∧
  (forall g, from_dict gd = Ok g ->
     (find_path_astar libm_pow req = Ok (NoPathBody start end_, 404) ∧
      astar libm_pow g start end_ tag = Ok None ∧
      (int_weights g -> no_path g start end_)) ∨
     (exists r, find_path_astar libm_pow req = Ok (SuccessBody r, 200) ∧
        astar libm_pow g start end_ tag = Ok (Some r) ∧
        reachable g start end_) ∨
     (find_path_astar libm_pow req = Ok (ExceptionBody, 500) ∧
      astar libm_pow g start end_ tag = OverflowError ∧
      ~ exact_search g (select_heuristic libm_pow tag))).
Proof.
  intros Hpow Hh. cbv zeta. unfold find_path_astar, check_request, request_empty.
  cbn [req_graph req_start req_end req_heuristic req_other_keys required bind].
  split.
  - intros ->. by destruct h.
  - intros g Hg. rewrite Hg. cbn [bind required]. cbv zeta.
    assert (Hok : negb (String.eqb (default "euclidean" h) "euclidean"
                        || String.eqb (default "euclidean" h) "manhattan") = false).
    { by destruct Hh as [->|[->| ->]]. }
    rewrite Hok.
    destruct (astar_cases libm_pow g start end_ (default "euclidean" h) Hpow
                (from_dict_built _ _ Hg))
      as [[Hr Hno]|[(r & Hr & Hpost)|[Hr Hex]]]; rewrite Hr; cbn [bind catch].
    + left. by split.
    + right. left. exists r. split; [done|]. split; [done|].
      destruct Hpost as (Ht & _). by apply trail_reachable in Ht.
    + right. right. by split.
Qed.

(** X16: for a request with graph, start and end and an accepted
    heuristic field, and a sane C library, [find_path_astar] answers 500
    when the graph input lacks a required key.  When the graph is built
    it answers 404 if [astar] returns [None] (on int weights: there is no
    path), 200 with the result of [astar] if there is one, and 500 if
    [astar] raises [OverflowError]. *)
Theorem find_path_astar_answers (libm_pow : float -> float -> float)
    (gd : graph_data) (start end_ : string) (h : option string) (other : bool) :
  pow_sane libm_pow -> accepted_tag h ->
  let req := MkReq (Some gd) (Some start) (Some end_) h other in
  let tag := default "euclidean" h in
  (from_dict gd = KeyError ->
   find_path_astar libm_pow req = Ok (ExceptionBody, 500)) ∧
  (forall g, from_dict gd = Ok g ->
     (find_path_astar libm_pow req = Ok (NoPathBody start end_, 404) ∧
      astar libm_pow g start end_ tag = Ok None ∧
      (int_weights g -> no_path g start end_)) ∨
     (exists r, find_path_astar libm_pow req = Ok (SuccessBody r, 200) ∧
        astar libm_pow g start end_ tag = Ok (Some r) ∧
        reachable g start end_) ∨
     (find_path_astar libm_pow req = Ok (ExceptionBody, 500) ∧
      astar libm_pow g start end_ tag = OverflowError ∧
      ~ exact_search g (select_heuristic libm_pow tag))).
Proof. apply find_path_astar_cases. Qed.

Lemma find_path_dijkstra_cases gd start end_ h other :
  let req := MkReq (Some gd) (Some start) (Some end_) h other in
  (from_dict gd = KeyError -> find_path_dijkstra req = Ok (ExceptionBody, 500)) ∧
  (forall g, from_dict gd = Ok g -> dijkstra g start end_ = OverflowError ->
     find_path_dijkstra req = Ok (ExceptionBody, 500)) ∧
  (forall g, from_dict gd = Ok g -> nonneg g -> int_weights g ->
     (find_path_dijkstra req = Ok (NoPathBody start end_, 404) ∧
      no_path g start end_) ∨
     (exists r, find_path_dijkstra req = Ok (SuccessBody r, 200) ∧
        dijkstra g start end_ = Ok (Some r) ∧ reachable g start end_)).
Proof.
  cbv zeta. unfold find_path_dijkstra, check_request, request_empty.
  cbn [req_graph req_start req_end req_heuristic req_other_keys required bind].
  split; [|split].
  - intros ->. by destruct h.
  - intros g Hg Hd. rewrite Hg. cbn [bind required]. rewrite Hd. by destruct h.
  - intros g Hg Hnn Hint. rewrite Hg. cbn [bind required].
    destruct (dijkstra_cases g start end_ (from_dict_built _ _ Hg) Hnn Hint)
      as [[-> Hno]|(r & d & Hr & Hreach & _)].
    + left. by destruct h.
    + right. exists r. rewrite Hr. split; [by destruct h|done].
Qed.

(** X17: for a request with graph, start and end, [find_path_dijkstra]
    answers 500 when the graph input lacks a required key and when
    [dijkstra] raises [OverflowError]; when the graph is built and its
    weights are Python ints that are not negative it answers 404 if
    there is no path and 200 with the result of [dijkstra] otherwise. *)
Theorem find_path_dijkstra_answers (gd : graph_data) (start end_ : string)
    (h : option string) (other : bool) :
  let req := MkReq (Some gd) (Some start) (Some end_) h other in
  (from_dict gd = KeyError -> find_path_dijkstra req = Ok (ExceptionBody, 500)) ∧
  (forall g, from_dict gd = Ok g -> dijkstra g start end_ = OverflowError ->
     find_path_dijkstra req = Ok (ExceptionBody, 500)) ∧
  (forall g, from_dict gd = Ok g -> nonneg g -> int_weights g ->
     (find_path_dijkstra req = Ok (NoPathBody start end_, 404) ∧
      no_path g start end_) ∨
     (exists r, find_path_dijkstra req = Ok (SuccessBody r, 200) ∧
        dijkstra g start end_ = Ok (Some r) ∧ reachable g start end_)).
Proof. apply find_path_dijkstra_cases. Qed.




Lemma detour_built : built detour.
Proof.
  unfold detour, build_graph.
  cbn [foldl s_from s_to s_weight s_bidirectional s_id s_x s_y]. repeat constructor.
Qed.

Lemma triangle_from_dict : from_dict triangle_data = Ok triangle.
Proof. reflexivity. Qed.

Lemma detour_from_dict : from_dict detour_data = Ok detour.
Proof. rewrite from_dict_resolve. reflexivity. Qed.

Lemma triangle_z_built : built triangle_z.
Proof. unfold triangle_z. constructor. apply triangle_built. Qed.

Lemma triangle_z_nonneg : nonneg triangle_z.
Proof. unfold triangle_z. apply nonneg_add_node, triangle_nonneg. Qed.

Lemma triangle_z_int_weights : int_weights triangle_z.
Proof. unfold triangle_z. apply int_weights_add_node, triangle_int_weights. Qed.






Lemma unknown_tag_runs_euclidean_witness :
  astar rounded_pow triangle "A" "C" "random" =
    relabel "astar_random" (astar rounded_pow triangle "A" "C" "euclidean") ∧
  find_path_astar rounded_pow
    (MkReq (Some triangle_data) (Some "A") (Some "C") (Some "random") false) =
  Ok (ErrorBody "Invalid heuristic. Use 'euclidean' or 'manhattan'", 400).
Proof.
  destruct (unknown_tag_runs_euclidean rounded_pow triangle "A" "C" "random"
              triangle_data false)
    as [Hrun Hreq]; [discriminate|discriminate|].
  split; [exact Hrun|]. apply Hreq. reflexivity.
Defined.



Lemma arc_endpoints_are_nodes_witness :
  closed triangle ∧
  (forall a b w bd e, (e = a ∨ e = b) -> adjacency_list triangle !! e = None ->
     is_Some (adjacency_list (add_edge triangle a b w bd) !! e) ∧
     node_positions (add_edge triangle a b w bd) !! e = Some (Int 0, Int 0)).
Proof.
  destruct (arc_endpoints_are_nodes triangle) as (Hc & _ & Hnew);
    [unfold triangle; repeat constructor|].
  split; [exact Hc|exact Hnew].
Defined.

Lemma search_same_node_witness :
  dijkstra triangle "A" "A" =
    Ok (Some {| path := ["A"]; distance := Int 0; nodes_explored := 1;
                algorithm := "dijkstra" |}) ∧
  forall libm_pow heuristic,
    astar libm_pow triangle "A" "A" heuristic =
    Ok (Some {| path := ["A"]; distance := Int 0; nodes_explored := 1;
                algorithm := String.append "astar_" heuristic |}).
Proof.
  apply search_same_node. vm_compute. eauto.
Defined.

Lemma built_nodes_have_positions_witness :
  is_Some (node_positions triangle !! "B") <->
  is_Some (adjacency_list triangle !! "B").
Proof. apply built_nodes_have_positions. apply triangle_built. Defined.

Lemma add_edge_keeps_position_witness :
  node_positions (add_edge placed "B" "D" (Int 2) true) !! "B" =
  node_positions placed !! "B".
Proof. apply add_edge_keeps_position. vm_compute. eauto. Defined.

Lemma from_dict_node_set_witness :
  is_Some (adjacency_list detour !! "B") <->
  (exists it, it ∈ default [] (data_nodes detour_data) ∧ item_id it = Some "B") ∨
  (exists e, e ∈ default [] (data_edges detour_data) ∧
             (e_from e = Some "B" ∨ e_to e = Some "B")).
Proof. apply from_dict_node_set. apply detour_from_dict. Defined.

Lemma from_dict_arcs_witness :
  arc triangle "C" "B" (Int 2) <->
  exists e, e ∈ default [] (data_edges triangle_data) ∧ edge_gives e "C" "B" (Int 2).
Proof. apply from_dict_arcs. reflexivity. Defined.

Lemma from_dict_positions_witness :
  exists g0,
    from_dict (MkData (data_nodes detour_data) None) = Ok g0 ∧
    forall n, node_positions detour !! n =
      match node_positions g0 !! n with
      | Some p => Some p
      | None => if decide (is_Some (adjacency_list detour !! n)) then Some (Int 0, Int 0)
                else None
      end.
Proof. apply from_dict_positions. apply detour_from_dict. Defined.

Lemma dijkstra_none_iff_no_path_witness :
  (exists o, dijkstra triangle_z "A" "Z" = Ok o) ∧
  (dijkstra triangle_z "A" "Z" = Ok None <->
   adjacency_list triangle_z !! "A" = None ∨ adjacency_list triangle_z !! "Z" = None ∨
   ~ reachable triangle_z "A" "Z").
Proof.
  apply dijkstra_none_iff_no_path.
  - apply triangle_z_built.
  - apply triangle_z_nonneg.
  - apply triangle_z_int_weights.
Defined.

Lemma dijkstra_result_shape_witness :
  let r := {| path := ["S"; "A"; "B"; "E"]; distance := Flt 9007199254740992;
              nodes_explored := 4; algorithm := "dijkstra" |} in
  algorithm r = "dijkstra" ∧ NoDup (path r) ∧
  head (path r) = Some "S" ∧ last (path r) = Some "E" ∧
  (1 <= length (path r) <= nodes_explored r)%nat ∧
  (nodes_explored r <= size (adjacency_list rounding))%nat.
Proof.
  apply (dijkstra_result_shape rounding "S" "E").
  - unfold rounding, build_graph. cbn [foldl s_from s_to s_weight s_bidirectional].
    repeat constructor.
  - apply rounding_nonneg.
  - vm_compute. reflexivity.
Defined.

Lemma astar_result_is_path_witness :
  let r := {| path := ["S"; "E"]; distance := Int 5; nodes_explored := 3;
              algorithm := "astar_euclidean" |} in
  trail detour "S" "E" (path r) ∧
  NoDup (path r) ∧
  (length (path r) <= nodes_explored r)%nat ∧
  (nodes_explored r <= size (adjacency_list detour))%nat ∧
  algorithm r = String.append "astar_" "euclidean" ∧
  (int_weights detour ->
   exists d, distance r = Int d ∧ path_from detour "S" "E" (path r) d).
Proof.
  apply (astar_result_is_path rounded_pow detour "S" "E" "euclidean").
  - apply rounded_pow_sane.
  - apply detour_built.
  - vm_compute. reflexivity.
Defined.

Lemma astar_none_iff_no_path_witness :
  (astar rounded_pow triangle_z "A" "Z" "euclidean" = Ok None ∨
   (exists r, astar rounded_pow triangle_z "A" "Z" "euclidean" = Ok (Some r)) ∨
   (astar rounded_pow triangle_z "A" "Z" "euclidean" = OverflowError ∧
    ~ exact_search triangle_z (select_heuristic rounded_pow "euclidean"))) ∧
  (no_path triangle_z "A" "Z" ->
   astar rounded_pow triangle_z "A" "Z" "euclidean" = Ok None ∨
   astar rounded_pow triangle_z "A" "Z" "euclidean" = OverflowError) ∧
  (int_weights triangle_z ->
   (astar rounded_pow triangle_z "A" "Z" "euclidean" = Ok None ->
    no_path triangle_z "A" "Z") ∧
   (int_positions triangle_z ->
    (exists o, astar rounded_pow triangle_z "A" "Z" "manhattan" = Ok o) ∧
    (astar rounded_pow triangle_z "A" "Z" "manhattan" = Ok None <->
     no_path triangle_z "A" "Z"))).
Proof.
  apply astar_none_iff_no_path; [apply rounded_pow_sane|apply triangle_z_built].
Defined.

Lemma astar_never_beats_dijkstra_witness :
  (astar rounded_pow detour "S" "E" "euclidean" = Ok None ->
   dijkstra detour "S" "E" = Ok None) ∧
  (int_positions detour ->
   (astar rounded_pow detour "S" "E" "manhattan" = Ok None <->
    dijkstra detour "S" "E" = Ok None)) ∧
  (forall ra rd,
     astar rounded_pow detour "S" "E" "euclidean" = Ok (Some ra) ->
     dijkstra detour "S" "E" = Ok (Some rd) ->
     exists da dd, distance ra = Int da ∧ distance rd = Int dd ∧ dd <= da).
Proof.
  apply astar_never_beats_dijkstra;
    [apply rounded_pow_sane|apply detour_built|apply detour_nonneg
    |apply detour_int_weights].
Defined.

Lemma find_path_astar_answers_witness :
  let req := MkReq (Some triangle_data) (Some "A") (Some "C") (Some "manhattan") false in
  let tag := default "euclidean" (Some "manhattan") in
  (from_dict triangle_data = KeyError ->
   find_path_astar rounded_pow req = Ok (ExceptionBody, 500)) ∧
  (forall g, from_dict triangle_data = Ok g ->
     (find_path_astar rounded_pow req = Ok (NoPathBody "A" "C", 404) ∧
      astar rounded_pow g "A" "C" tag = Ok None ∧
      (int_weights g -> no_path g "A" "C")) ∨
     (exists r, find_path_astar rounded_pow req = Ok (SuccessBody r, 200) ∧
        astar rounded_pow g "A" "C" tag = Ok (Some r) ∧
        reachable g "A" "C") ∨
     (find_path_astar rounded_pow req = Ok (ExceptionBody, 500) ∧
      astar rounded_pow g "A" "C" tag = OverflowError ∧
      ~ exact_search g (select_heuristic rounded_pow tag))).
Proof.
  apply (find_path_astar_answers rounded_pow triangle_data "A" "C" (Some "manhattan") false).
  - apply rounded_pow_sane.
  - right. right. reflexivity.
Defined.

Lemma find_path_dijkstra_answers_witness :
  let req := MkReq (Some triangle_data) (Some "A") (Some "C") None false in
  (find_path_dijkstra req = Ok (NoPathBody "A" "C", 404) ∧ no_path triangle "A" "C") ∨
  (exists r, find_path_dijkstra req = Ok (SuccessBody r, 200) ∧
     dijkstra triangle "A" "C" = Ok (Some r) ∧ reachable triangle "A" "C").
Proof.
  apply (proj2 (proj2 (find_path_dijkstra_answers triangle_data "A" "C" None false))
           triangle).
  - reflexivity.
  - apply triangle_nonneg.
  - apply triangle_int_weights.
Defined.


